(** * The CARE data pipeline of the image-restoration exercises

    A shallow embedding of the patch sampler, the normalizer, the augmenter
    and the paired dataset that the CARE notebook (exercise3.ipynb) defines:
    [create_patches], [normalize], [denormalize], [_flip_and_rotate],
    [augment_batch] and [CAREDataset].

    Conventions.
    - A numpy array is a dtype tag, a shape and its elements in row-major
      (C) order.  Elements are rationals.  A cast ([astype]) rounds to the
      values of the target type; the arithmetic of [normalize] and
      [denormalize] is exact, its float64 rounding is not modelled, and
      neither are infinities and nans.
    - Array extents are natural numbers; coordinates and random draws are
      integers.
    - A Python call either returns or raises: [result].
    - numpy's random generator is a library: its bit stream is a parameter
      of the development, its bounded draw follows the documented contract
      of [Generator.integers]. *)

From Stdlib Require Import List ZArith QArith Qabs Qpower Qminmax.
From Stdlib Require Import Lia Bool Arith Permutation.
Import ListNotations.

Set Implicit Arguments.

(** ** Outcomes of a call *)

(** The exceptions the modelled code can meet. *)
Inductive exception : Type :=
| IndexError
| ValueError.

Inductive result (A : Type) : Type :=
| Ok (a : A)
| Raise (e : exception).

Arguments Ok {A} a.
Arguments Raise {A} e.

Definition bind {A B : Type} (m : result A) (k : A -> result B) : result B :=
  match m with
  | Ok a => k a
  | Raise e => Raise e
  end.

Notation "x <- m ;; k" := (bind m (fun x => k))
  (at level 61, m at next level, right associativity).
Notation "' pat <- m ;; k" := (bind m (fun x => match x with pat => k end))
  (at level 61, pat pattern, m at next level, right associativity).

(** The outcome of a call, transformed when it returns. *)
Definition map_result {A B : Type} (f : A -> B) (m : result A) : result B :=
  match m with
  | Ok a => Ok (f a)
  | Raise e => Raise e
  end.

Definition raises {A : Type} (m : result A) : Prop :=
  exists e, m = Raise e.

Definition is_ok {A : Type} (m : result A) : bool :=
  match m with Ok _ => true | Raise _ => false end.

(** ** Arrays *)

Inductive dtype : Type := uint8 | uint16 | int64 | float32 | float64.

Record ndarray : Type := mk_ndarray {
  dtype_of : dtype;
  shape : list nat;
  data : list Q
}.

(** [np.prod] of a shape. *)
Definition prod (s : list nat) : nat := fold_right Nat.mul 1%nat s.

Definition ndim (a : ndarray) : nat := length (shape a).

(** The invariant of a numpy array: as many elements as the shape says. *)
Definition well_formed (a : ndarray) : Prop :=
  length (data a) = prod (shape a).

(** [chunks n sz d]: the [n] consecutive blocks of [sz] elements of [d],
    the sub-arrays along the first axis. *)
Fixpoint chunks (n sz : nat) (d : list Q) : list (list Q) :=
  match n with
  | O => []
  | S n' => firstn sz d :: chunks n' sz (skipn sz d)
  end.

(** Python's index normalisation on an axis of length [n]:
    [-n <= i < n], negative indices count from the end. *)
Definition normalize_index (n : nat) (i : Z) : option nat :=
  if (0 <=? i)%Z && (i <? Z.of_nat n)%Z then Some (Z.to_nat i)
  else if (- Z.of_nat n <=? i)%Z && (i <? 0)%Z then Some (Z.to_nat (Z.of_nat n + i))
  else None.

(** [a[i]]: the sub-array at position [i] of the first axis. *)
Definition item (a : ndarray) (i : Z) : result ndarray :=
  match shape a with
  | [] => Raise IndexError
  | n :: rest =>
      match normalize_index n i with
      | None => Raise IndexError
      | Some j =>
          Ok (mk_ndarray (dtype_of a) rest
                (firstn (prod rest) (skipn (j * prod rest) (data a))))
      end
  end.

(** Elementwise application of a scalar function. *)
Definition map_elements (f : Q -> Q) (a : ndarray) : ndarray :=
  mk_ndarray (dtype_of a) (shape a) (map f (data a)).

(** *** Casts

    The values of a binary floating-point type with [p] significant bits
    and least normal exponent [emin] are the multiples [k * 2^(e - p + 1)]
    with [|k| <= 2^p] and [e >= emin]; a cast rounds to the nearest of
    them, ties to the even significand.  Values beyond the largest finite
    one, which numpy turns into inf, are outside the model. *)

(** [2^e] for an integer exponent. *)
Definition pow2 (e : Z) : Q := 2 ^ e.

(** The nearest integer, ties to the even one. *)
Definition round_half_even (x : Q) : Z :=
  let n := Qnum x in
  let d := Zpos (Qden x) in
  let q := (n / d)%Z in
  let r := (n mod d)%Z in
  if (2 * r <? d)%Z then q
  else if (d <? 2 * r)%Z then (q + 1)%Z
  else if Z.even q then q else (q + 1)%Z.

(** For [x <> 0], the exponent [e] with [2^e <= |x| < 2^(e+1)]: the
    difference of the bit lengths of numerator and denominator, or one
    less. *)
Definition binade (x : Q) : Z :=
  let e := (Z.log2 (Z.abs (Qnum x)) - Z.log2 (Zpos (Qden x)))%Z in
  if Qle_bool (pow2 e) (Qabs x) then e else (e - 1)%Z.

(** [x] rounded to [p] significant bits, with the spacing of exponent
    [emin] below it (the subnormal range); the result is in lowest
    terms. *)
Definition round_binary (p emin : Z) (x : Q) : Q :=
  if Qeq_bool x 0 then 0
  else
    let e := Z.max (binade x) emin in
    let quantum := pow2 (e - p + 1) in
    Qred (inject_Z (round_half_even (x / quantum)) * quantum).

Definition round_float32 : Q -> Q := round_binary 24 (-126).
Definition round_float64 : Q -> Q := round_binary 53 (-1022).

(** The value a cast to dtype [t] gives: rounding for the floating-point
    types; for the integer types truncation towards zero, which is what
    numpy does within the range of the type (the code casts to float32
    only). *)
Definition cast (t : dtype) (x : Q) : Q :=
  match t with
  | float32 => round_float32 x
  | float64 => round_float64 x
  | _ => inject_Z (Z.quot (Qnum x) (Zpos (Qden x)))
  end.

(** [a.astype(t)]. *)
Definition astype (t : dtype) (a : ndarray) : ndarray :=
  mk_ndarray t (shape a) (map (cast t) (data a)).

(** [a[np.newaxis]]: a singleton axis in front. *)
Definition newaxis (a : ndarray) : ndarray :=
  mk_ndarray (dtype_of a) (1%nat :: shape a) (data a).

(** ** Normalizer *)

(** [normalize]: [(image - mean) / std], over exact arithmetic: the
    rounding of the float64 subtraction and division is not modelled.  The
    statistics are taken to be numpy float64 scalars, as the notebook's
    are, which makes the result float64.  With [std = 0] numpy yields
    non-finite values; the rational division is total, so statements about
    the values are made for a nonzero [std]. *)
Definition normalize (image : ndarray) (mean std : Q) : ndarray :=
  mk_ndarray float64 (shape image)
    (map (fun x => (x - mean) / std) (data image)).

(** [denormalize]: [image * std + mean], over exact arithmetic, with
    numpy float64 statistics as for [normalize]. *)
Definition denormalize (image : ndarray) (mean std : Q) : ndarray :=
  mk_ndarray float64 (shape image)
    (map (fun x => x * std + mean) (data image)).

(** numpy's elementwise [==], all true: same shape, equal values. *)
Definition values_eq (a b : ndarray) : Prop :=
  shape a = shape b /\ Forall2 Qeq (data a) (data b).

(** [a * c] for a scalar [c]. *)
Definition scale (c : Q) (a : ndarray) : ndarray :=
  map_elements (fun x => x * c) a.

(** ** Augmenter *)

(** Column [j] of a list of rows. *)
Definition column (j : nat) (rows : list (list Q)) : list Q :=
  flat_map (fun row => firstn 1 (skipn j row)) rows.

(** The transpose of a matrix with [w] columns. *)
Definition transpose (w : nat) (rows : list (list Q)) : list (list Q) :=
  map (fun j => column j rows) (seq 0 w).

(** [np.rot90] on one matrix with [w] columns, [k] already reduced modulo 4:
    [k = 1] is [transpose(flip(m, -1))], [k = 2] is [flip(flip(m, -2), -1)],
    [k = 3] is [flip(transpose(m), -1)]. *)
Definition rot90_matrix (k : Z) (w : nat) (rows : list (list Q))
  : list (list Q) :=
  if (k =? 0)%Z then rows
  else if (k =? 2)%Z then map (@rev Q) (rev rows)
  else if (k =? 1)%Z then transpose w (map (@rev Q) rows)
  else map (@rev Q) (transpose w rows).

(** Apply a matrix transformation to every matrix spanned by the last two
    axes; all leading axes are traversed block by block. *)
Fixpoint on_matrices (f : nat -> list (list Q) -> list (list Q))
  (sh : list nat) (d : list Q) : list Q :=
  match sh with
  | [] => d
  | n :: rest =>
      match rest with
      | [w] => concat (f w (chunks n w d))
      | _ => concat (map (on_matrices f rest) (chunks n (prod rest) d))
      end
  end.

(** The shape after exchanging the last two axes. *)
Fixpoint swap_last_two (sh : list nat) : list nat :=
  match sh with
  | [h; w] => [w; h]
  | n :: rest => n :: swap_last_two rest
  | [] => []
  end.

(** [np.rot90(m, k, axes=(-2, -1))]; the axes are out of range for an array
    of fewer than two dimensions. *)
Definition rot90 (m : ndarray) (k : Z) : result ndarray :=
  if (ndim m <? 2)%nat then Raise ValueError
  else
    let k4 := (k mod 4)%Z in
    Ok (mk_ndarray (dtype_of m)
          (if Z.odd k4 then swap_last_two (shape m) else shape m)
          (on_matrices (rot90_matrix k4) (shape m) (data m))).

(** [np.flip(m, axis=-1)]: every row along the last axis reversed. *)
Definition flip (m : ndarray) : result ndarray :=
  match rev (shape m) with
  | [] => Raise ValueError
  | w :: _ =>
      Ok (mk_ndarray (dtype_of m) (shape m)
            (concat (map (@rev Q)
                       (chunks (prod (removelast (shape m))) w (data m)))))
  end.

Definition _flip_and_rotate (image : ndarray) (rotate_state flip_state : Z)
  : result ndarray :=
  rotated <- rot90 image rotate_state ;;
  flipped <- (if (flip_state =? 1)%Z then flip rotated else Ok rotated) ;;
  Ok flipped.

(** ** Statistics of the training split *)

Definition sumQ (l : list Q) : Q := fold_right Qplus 0 l.

(** [a.mean()], of an array with at least one element. *)
Definition mean (a : ndarray) : Q :=
  sumQ (data a) / inject_Z (Z.of_nat (length (data a))).

(** The module-level variables [train_mean], [train_std], [target_mean] and
    [target_std] that [CAREDataset.__getitem__] reads. *)
Record statistics : Type := mk_statistics {
  train_mean : Q;
  train_std : Q;
  target_mean : Q;
  target_std : Q
}.

Section Statistics.

(** The square root of the floating-point library. *)
Variable sqrt : Q -> Q.

(** [a.std()]: the root of the mean squared deviation. *)
Definition std (a : ndarray) : Q :=
  let m := mean a in
  sqrt (mean (map_elements (fun x => (x - m) * (x - m)) a)).


End Statistics.

(** ** Cropping and stacking *)

(** Python's clamping of a slice bound [i] on an axis of length [n]. *)
Definition clamp (n : nat) (i : Z) : Z :=
  if (i <? 0)%Z then Z.max 0 (Z.of_nat n + i) else Z.min i (Z.of_nat n).

(** [slice(c, c + p)] on an axis of length [n]: first position and number
    of positions selected.  A slice that runs over the end is shortened. *)
Definition slice_start (n : nat) (c : Z) : nat := Z.to_nat (clamp n c).

Definition slice_length (n : nat) (c : Z) (p : nat) : nat :=
  Z.to_nat (clamp n (c + Z.of_nat p) - clamp n c).

(** The shape of [a[(..., slice(c0, c0 + p0), ..., slice(ck, ck + pk))]]:
    [lead] leading axes are kept whole (the Ellipsis), each remaining axis
    is sliced. *)
Fixpoint crop_shape (lead : nat) (sh : list nat) (slices : list (Z * nat))
  : list nat :=
  match sh with
  | [] => []
  | n :: rest =>
      match lead with
      | S lead' => n :: crop_shape lead' rest slices
      | O =>
          match slices with
          | (c, p) :: slices' => slice_length n c p :: crop_shape 0 rest slices'
          | [] => sh
          end
      end
  end.

(** The elements of that crop, in row-major order. *)
Fixpoint crop_data (lead : nat) (sh : list nat) (slices : list (Z * nat))
  (d : list Q) : list Q :=
  match sh with
  | [] => d
  | n :: rest =>
      let blocks := chunks n (prod rest) d in
      match lead with
      | S lead' => concat (map (crop_data lead' rest slices) blocks)
      | O =>
          match slices with
          | (c, p) :: slices' =>
              concat (map (crop_data 0 rest slices')
                        (firstn (slice_length n c p)
                           (skipn (slice_start n c) blocks)))
          | [] => d
          end
      end
  end.

(** [a[(..., *[slice(c, c + patch_size[i]) for i, c in enumerate(crop_coords)])]]:
    more slices than axes is an IndexError. *)
Definition crop (a : ndarray) (crop_coords : list Z) (patch_size : list nat)
  : result ndarray :=
  let slices := combine crop_coords patch_size in
  if (ndim a <? length slices)%nat then Raise IndexError
  else
    let lead := (ndim a - length slices)%nat in
    Ok (mk_ndarray (dtype_of a)
          (crop_shape lead (shape a) slices)
          (crop_data lead (shape a) slices (data a))).

Fixpoint shape_eqb (s t : list nat) : bool :=
  match s, t with
  | [], [] => true
  | x :: s', y :: t' => Nat.eqb x y && shape_eqb s' t'
  | _, _ => false
  end.

(** [np.stack]: needs at least one array, and all of the same shape.  The
    arrays stacked here all have one dtype, which the result takes. *)
Definition stack (arrays : list ndarray) : result ndarray :=
  match arrays with
  | [] => Raise ValueError
  | a :: _ =>
      if forallb (fun b => shape_eqb (shape a) (shape b)) arrays
      then Ok (mk_ndarray (dtype_of a)
                 (length arrays :: shape a)
                 (concat (map data arrays)))
      else Raise ValueError
  end.

(** [np.ceil(np.prod(sample.shape) / np.prod(patch_size)).astype(int)], as
    the number of passes of [range(n_patches)].  Extents below 2^53 are
    exact in float64 and the rounded quotient of two such integers has the
    ceiling of the exact one.  For a patch volume of zero the quotient is
    inf or nan (numpy warns, it does not raise); its cast to int is the
    most negative int64 on x86-64, and [range] of it is empty. *)
Definition n_patches (sample_shape patch_size : list nat) : result nat :=
  let volume := prod patch_size in
  if (volume =? 0)%nat then Ok 0%nat
  else Ok ((prod sample_shape + volume - 1) / volume)%nat.

(** One pass of the inner loop of [create_patches]: the image it came from,
    the coordinate drawn, and the two crops appended to [image_patches] and
    [target_patches]. *)
Record drawn : Type := mk_drawn {
  sample_index : nat;
  crop_coords : list Z;
  patch : ndarray;
  target_patch : ndarray
}.

(** ** The dataset *)

Record CAREDataset : Type := mk_CAREDataset {
  image_data : ndarray;
  target_data : ndarray;
  patch_augment : bool
}.

(** [CAREDataset.__init__]; [apply_augmentations] defaults to False. *)
Definition __init__ (image_data target_data : ndarray)
  (apply_augmentations : option bool) : CAREDataset :=
  mk_CAREDataset image_data target_data
    (match apply_augmentations with Some b => b | None => false end).

(** [CAREDataset.__len__]: [self.image_data.shape[0]]. *)
Definition __len__ (self : CAREDataset) : result nat :=
  match shape (image_data self) with
  | [] => Raise IndexError
  | n :: _ => Ok n
  end.

Section Sampler.

(** numpy's generator: the state of a bit generator, its construction
    from a seed ([np.random.default_rng(seed)]) and its raw output. *)
Variable Generator : Type.
Variable default_rng : Z -> Generator.
Variable random_raw : Generator -> Z * Generator.

(** [rng.integers(low, high, endpoint=...)]: a draw from [low, high), or
    from [low, high] with [endpoint=True]; an empty interval is a
    ValueError. *)
Definition integers (rng : Generator) (low high : Z) (endpoint : bool)
  : result (Z * Generator) :=
  let top := if endpoint then high else (high - 1)%Z in
  if (top <? low)%Z then Raise ValueError
  else
    let (r, rng') := random_raw rng in
    Ok ((low + r mod (top - low + 1))%Z, rng').

(** [np.random.default_rng(seed=seed)] accepts the non-negative integers
    and raises [ValueError] for a negative one.  [default_rng] stands for
    the generator of an accepted seed. *)
Definition seeded (seed : Z) : result Generator :=
  if (seed <? 0)%Z then Raise ValueError else Ok (default_rng seed).

(** [augment_batch]; [seed] defaults to 42. *)
Definition augment_batch (patch target : ndarray) (seed : option Z)
  : result (ndarray * ndarray) :=
  let seed := match seed with Some s => s | None => 42%Z end in
  rng <- seeded seed ;;
  '(rotate_state, rng) <- integers rng 0 4 false ;;
  '(flip_state, rng) <- integers rng 0 2 false ;;
  p <- _flip_and_rotate patch rotate_state flip_state ;;
  t <- _flip_and_rotate target rotate_state flip_state ;;
  Ok (p, t).

(** [CAREDataset.__getitem__], reading the module-level statistics. *)
Definition __getitem__ (stats : statistics) (self : CAREDataset) (index : Z)
  : result (ndarray * ndarray) :=
  patch <- item (image_data self) index ;;
  target <- item (target_data self) index ;;
  '(patch, target) <-
    (if patch_augment self then augment_batch patch target None
     else Ok (patch, target)) ;;
  let patch := normalize patch (train_mean stats) (train_std stats) in
  let target := normalize target (target_mean stats) (target_std stats) in
  Ok (astype float32 (newaxis patch), astype float32 (newaxis target)).

(** The list comprehension that draws [crop_coords]: one draw per entry
    of [patch_size], against the extent [sample.shape[i]]. *)
Fixpoint draw_crop_coords (rng : Generator) (sample_shape patch_size : list nat)
  (indices : list nat) : result (list Z * Generator) :=
  match indices with
  | [] => Ok ([], rng)
  | i :: indices' =>
      match nth_error sample_shape i with
      | None => Raise IndexError
      | Some extent =>
          '(c, rng) <- integers rng 0
                         (Z.of_nat extent - Z.of_nat (nth i patch_size 0%nat))
                         true ;;
          '(cs, rng) <- draw_crop_coords rng sample_shape patch_size indices' ;;
          Ok (c :: cs, rng)
      end
  end.

(** The inner loop, [for _ in range(n_patches)]. *)
Fixpoint sample_patches (rng : Generator) (s : nat)
  (sample target_sample : ndarray) (patch_size : list nat) (n : nat)
  : result (list drawn * Generator) :=
  match n with
  | O => Ok ([], rng)
  | S n' =>
      '(coords, rng) <- draw_crop_coords rng (shape sample) patch_size
                          (seq 0 (length patch_size)) ;;
      p <- crop sample coords patch_size ;;
      t <- crop target_sample coords patch_size ;;
      '(more, rng) <- sample_patches rng s sample target_sample patch_size n' ;;
      Ok (mk_drawn s coords (astype float32 p) (astype float32 t) :: more, rng)
  end.

(** The outer loop, [for s in range(image_array.shape[0])]. *)
Fixpoint iterate_samples (rng : Generator) (image_array target_array : ndarray)
  (patch_size : list nat) (samples : list nat)
  : result (list drawn * Generator) :=
  match samples with
  | [] => Ok ([], rng)
  | s :: samples' =>
      sample <- item image_array (Z.of_nat s) ;;
      target_sample <- item target_array (Z.of_nat s) ;;
      n <- n_patches (shape sample) patch_size ;;
      '(ps, rng) <- sample_patches rng s sample target_sample patch_size n ;;
      '(qs, rng) <- iterate_samples rng image_array target_array patch_size
                      samples' ;;
      Ok (ps ++ qs, rng)
  end.

(** Everything [create_patches] draws, in order.  [rng] is the generator
    that [np.random.default_rng()] returns: seeded from the operating
    system, so in an arbitrary state. *)
Definition draw_patches (rng : Generator) (image_array target_array : ndarray)
  (patch_size : list nat) : result (list drawn) :=
  match shape image_array with
  | [] => Raise IndexError
  | n :: _ =>
      '(ds, _) <- iterate_samples rng image_array target_array patch_size
                    (seq 0 n) ;;
      Ok ds
  end.

(** [create_patches]: the two lists the loops fill, stacked. *)
Definition create_patches (rng : Generator) (image_array target_array : ndarray)
  (patch_size : list nat) : result (ndarray * ndarray) :=
  ds <- draw_patches rng image_array target_array patch_size ;;
  image_patches <- stack (map patch ds) ;;
  target_patches <- stack (map target_patch ds) ;;
  Ok (image_patches, target_patches).

End Sampler.

(** ** A generator that replays a tape

    Used to run the code on a chosen sequence of raw outputs: [random_raw]
    hands out the entries of a list one by one, then zeroes. *)

Definition replay_raw (tape : list Z) : Z * list Z :=
  match tape with
  | [] => (0%Z, [])
  | r :: tape' => (r, tape')
  end.

Definition replay_seeded (seed : Z) : list Z := [seed; (seed / 4)%Z].

(** [full sh v]: the array of shape [sh] filled with [v] ([np.full]). *)
Definition full (sh : list nat) (v : Q) : ndarray :=
  mk_ndarray float32 sh (repeat v (prod sh)).

(** [arange sh]: the elements 0, 1, 2, ... laid out in shape [sh]
    ([np.arange(n).reshape(sh)]). *)
Definition arange (sh : list nat) : ndarray :=
  mk_ndarray float32 sh (map (fun i => inject_Z (Z.of_nat i)) (seq 0 (prod sh))).

(** ** Vocabulary of the statements *)

(** The seeds [np.random.default_rng] accepts, for the [seed] argument of
    [augment_batch]: none given (the default 42 is used) or a non-negative
    one. *)
Definition seed_accepted (seed : option Z) : bool :=
  match seed with
  | Some s => (0 <=? s)%Z
  | None => true
  end.

(** Integers of at most [bits] bits in magnitude, as every pixel of an
    8-bit or 16-bit image is for [bits = 24]. *)
Definition integer_within (bits : Z) (x : Q) : Prop :=
  exists n : Z, (Z.abs n <= 2 ^ bits)%Z /\ x = inject_Z n.


(** [n] is the ceiling of the quotient [a / b], for a positive [b]. *)
Definition is_ceil_quotient (a b n : nat) : Prop :=
  (a <= n * b /\ n * b < a + b)%nat.

(** The coordinate-bounds property on one drawn coordinate: against the
    spatial extents [S] and the patch shape [P], [0 <= c[d] <= S[d] - P[d]]
    on every axis. *)
Definition within_bounds (S P : list nat) (coords : list Z) : Prop :=
  Forall2 (fun c sp => (0 <= c <= Z.of_nat (fst sp) - Z.of_nat (snd sp))%Z)
    coords (combine S P).

(** The spatial extents of a sample for a patch of [k] axes: its last [k]
    extents. *)
Definition spatial_extents (k : nat) (sample_shape : list nat) : list nat :=
  skipn (length sample_shape - k) sample_shape.

(** A drawn pair is the float32 copy of the crops of [sample] and of
    [target_sample] at the coordinate recorded with it. *)
Definition cropped_from (sample target_sample : ndarray) (patch_size : list nat)
  (d : drawn) : Prop :=
  map_result (astype float32) (crop sample (crop_coords d) patch_size)
  = Ok (patch d) /\
  map_result (astype float32) (crop target_sample (crop_coords d) patch_size)
  = Ok (target_patch d).

(** The patches drawn from image [s]. *)
Definition drawn_from (s : nat) (ds : list drawn) : list drawn :=
  filter (fun d => Nat.eqb (sample_index d) s) ds.


(** A matrix as a list of rows of one width. *)
Definition uniform (w : nat) (rows : list (list Q)) : Prop :=
  Forall (fun row => length row = w) rows.

(** What [_flip_and_rotate] does to one matrix of [w] columns: the
    rotation, then the flip of the last axis when [flip] is set. *)
Definition flip_and_rotate_matrix (k : Z) (flip : bool) (w : nat)
  (rows : list (list Q)) : list (list Q) :=
  let rotated := rot90_matrix k w rows in
  if flip then map (@rev Q) rotated else rotated.

(** What a draw records apart from pixel values: the image it came from,
    the coordinate, and the shapes of the two crops. *)
Definition placement (d : drawn) : nat * list Z * list nat * list nat :=
  (sample_index d, crop_coords d, shape (patch d), shape (target_patch d)).

(** The shapes of a pair of arrays. *)
Definition shapes (r : ndarray * ndarray) : list nat * list nat :=
  (shape (fst r), shape (snd r)).

(** [a[i0, i1, ...]]: the element at a full index, reached by descending
    one axis at a time, as [item] does. *)
Fixpoint element_at (sh : list nat) (d : list Q) (index : list nat)
  : option Q :=
  match sh, index with
  | [], [] => hd_error d
  | n :: rest, i :: index' =>
      if (i <? n)%nat
      then element_at rest (firstn (prod rest) (skipn (i * prod rest) d)) index'
      else None
  | _, _ => None
  end.

Definition element (a : ndarray) (index : list nat) : option Q :=
  element_at (shape a) (data a) index.

(** The index in the image of position [index] of a patch cropped at
    [coords]: [coords[d] + index[d]] on every axis. *)
Definition shifted (coords : list Z) (index : list nat) : list nat :=
  map (fun ci => (Z.to_nat (fst ci) + snd ci)%nat) (combine coords index).

(** The indices Python accepts on an axis of length [n]: [-n <= i < n]. *)
Definition valid_index (n : nat) (i : Z) : bool :=
  (- Z.of_nat n <=? i)%Z && (i <? Z.of_nat n)%Z.

(** ** The split into training and validation files

    The cell that shuffles the two file lists with one permutation and
    cuts both at 80 percent. *)

(** [np.array(files)[shuffled_indices]]: the files at the given positions,
    in that order; a position outside the list is an IndexError. *)
Fixpoint take_files {A : Type} (files : list A) (shuffled_indices : list nat)
  : result (list A) :=
  match shuffled_indices with
  | [] => Ok []
  | i :: indices =>
      match nth_error files i with
      | None => Raise IndexError
      | Some file =>
          more <- take_files files indices ;;
          Ok (file :: more)
      end
  end.

(** [int(train_files_percentage * n)] with [train_files_percentage = 0.8].
    The float64 product truncates to the integer part of [8 n / 10] for
    every list length below 2^50. *)
Definition train_cut (n : nat) : nat := (8 * n / 10)%nat.

Record file_split (A : Type) : Type := mk_file_split {
  train_image_files : list A;
  train_target_files : list A;
  val_image_files : list A;
  val_target_files : list A
}.

Arguments mk_file_split {A} _ _ _ _.
Arguments train_image_files {A} _.
Arguments train_target_files {A} _.
Arguments val_image_files {A} _.
Arguments val_target_files {A} _.

(** How the cell ends: it runs through, one of its assertions fails, or
    an operation raises. *)
Inductive cell_result (A : Type) : Type :=
| Completed (a : A)
| AssertionError
| Raised (e : exception).

Arguments Completed {A} a.
Arguments AssertionError {A}.
Arguments Raised {A} e.

(** [all([i.name == j.name for i, j in zip(image_files, target_files)])]. *)
Definition names_match {A : Type} (same_name : A -> A -> bool)
  (image_files target_files : list A) : bool :=
  forallb (fun ij => same_name (fst ij) (snd ij))
    (combine image_files target_files).

(** The cell from its first assertion on; [shuffled_indices] is what
    [np.random.permutation(len(image_files))] returned. *)
Definition split_files {A : Type} (same_name : A -> A -> bool)
  (shuffled_indices : list nat) (image_files target_files : list A)
  : cell_result (file_split A) :=
  if negb (length image_files =? length target_files)%nat then AssertionError
  else
    match take_files image_files shuffled_indices with
    | Raise e => Raised e
    | Ok image_files =>
        match take_files target_files shuffled_indices with
        | Raise e => Raised e
        | Ok target_files =>
            if negb (names_match same_name image_files target_files)
            then AssertionError
            else
              let sp :=
                mk_file_split
                  (firstn (train_cut (length image_files)) image_files)
                  (firstn (train_cut (length target_files)) target_files)
                  (skipn (train_cut (length image_files)) image_files)
                  (skipn (train_cut (length target_files)) target_files) in
              if negb (names_match same_name (train_image_files sp)
                         (train_target_files sp))
              then AssertionError
              else if negb (names_match same_name (val_image_files sp)
                              (val_target_files sp))
              then AssertionError
              else Completed sp
        end
    end.

(** * Properties *)

(** ** Results *)

Lemma bind_ok {A B : Type} (m : result A) (k : A -> result B) (b : B) :
  bind m k = Ok b -> exists a, m = Ok a /\ k a = Ok b.
Proof.
  destruct m as [a | e]; simpl; intros H.
  - exists a; split; [reflexivity | exact H].
  - discriminate H.
Qed.

Lemma bind_raise {A B : Type} (m : result A) (k : A -> result B) (e : exception) :
  m = Raise e -> bind m k = Raise e.
Proof. intros ->; reflexivity. Qed.

(** ** Elementwise maps commute with the rearrangements of the augmenter *)

Section Elementwise.

Variable f : Q -> Q.

Lemma chunks_map (n sz : nat) (d : list Q) :
  chunks n sz (map f d) = map (map f) (chunks n sz d).
Proof.
  revert d; induction n as [| n IH]; intros d; simpl.
  - reflexivity.
  - rewrite firstn_map, skipn_map, IH; reflexivity.
Qed.

Lemma column_map (j : nat) (rows : list (list Q)) :
  column j (map (map f) rows) = map f (column j rows).
Proof.
  unfold column; induction rows as [| row rows IH].
  - reflexivity.
  - cbn [map flat_map].
    rewrite map_app, IH, skipn_map, firstn_map; reflexivity.
Qed.

Lemma transpose_map (w : nat) (rows : list (list Q)) :
  transpose w (map (map f) rows) = map (map f) (transpose w rows).
Proof.
  unfold transpose; rewrite map_map.
  apply map_ext; intros j; apply column_map.
Qed.

Lemma map_rev_rows (rows : list (list Q)) :
  map (@rev Q) (map (map f) rows) = map (map f) (map (@rev Q) rows).
Proof.
  rewrite !map_map; apply map_ext; intros row; symmetry; apply map_rev.
Qed.

Lemma rot90_matrix_map (k : Z) (w : nat) (rows : list (list Q)) :
  rot90_matrix k w (map (map f) rows) = map (map f) (rot90_matrix k w rows).
Proof.
  unfold rot90_matrix.
  destruct (k =? 0)%Z; [reflexivity |].
  destruct (k =? 2)%Z.
  - rewrite <- map_rev; apply map_rev_rows.
  - destruct (k =? 1)%Z.
    + rewrite map_rev_rows; apply transpose_map.
    + rewrite transpose_map; apply map_rev_rows.
Qed.

Lemma on_matrices_map (g : nat -> list (list Q) -> list (list Q)) :
  (forall w rows, g w (map (map f) rows) = map (map f) (g w rows)) ->
  forall sh d, on_matrices g sh (map f d) = map f (on_matrices g sh d).
Proof.
  intros Hg sh; induction sh as [| n rest IH]; intros d.
  - reflexivity.
  - assert (Hrec : concat (map (on_matrices g rest)
                             (chunks n (prod rest) (map f d)))
                   = map f (concat (map (on_matrices g rest)
                                      (chunks n (prod rest) d)))).
    { rewrite chunks_map, concat_map, !map_map.
      f_equal; apply map_ext; intros block; apply IH. }
    simpl; destruct rest as [| w [| x rest']]; try exact Hrec.
    rewrite chunks_map, Hg, concat_map; reflexivity.
Qed.

End Elementwise.

Lemma rot90_map_elements (f : Q -> Q) (m : ndarray) (k : Z) :
  rot90 (map_elements f m) k = map_result (map_elements f) (rot90 m k).
Proof.
  unfold rot90, ndim; simpl.
  destruct (length (shape m) <? 2)%nat; simpl; [reflexivity |].
  unfold map_elements; simpl; f_equal; f_equal.
  apply on_matrices_map; intros w rows; apply rot90_matrix_map.
Qed.

Lemma flip_map_elements (f : Q -> Q) (m : ndarray) :
  flip (map_elements f m) = map_result (map_elements f) (flip m).
Proof.
  unfold flip; simpl.
  destruct (rev (shape m)) as [| w rest]; simpl; [reflexivity |].
  unfold map_elements; simpl; f_equal; f_equal.
  rewrite chunks_map, map_rev_rows, concat_map; reflexivity.
Qed.

Lemma flip_and_rotate_map_elements (f : Q -> Q) (image : ndarray) (r fl : Z) :
  _flip_and_rotate (map_elements f image) r fl
  = map_result (map_elements f) (_flip_and_rotate image r fl).
Proof.
  unfold _flip_and_rotate.
  rewrite rot90_map_elements.
  destruct (rot90 image r) as [rotated | e]; simpl; [| reflexivity].
  destruct (fl =? 1)%Z; simpl; [| reflexivity].
  rewrite flip_map_elements.
  destruct (flip rotated); reflexivity.
Qed.

(** ** Normalizer *)

Lemma denormalize_normalize_values (m s : Q) (d : list Q) :
  ~ s == 0 ->
  Forall2 Qeq (map (fun x => x * s + m) (map (fun x => (x - m) / s) d)) d.
Proof.
  intros Hs; induction d as [| x d IH]; simpl; constructor.
  - field; exact Hs.
  - exact IH.
Qed.

(** C6.  For every array [x], every mean [m] and every nonzero standard
    deviation [s], denormalizing the normalized array gives back [x]: the
    same shape and, over exact arithmetic, the same values. *)
Theorem denormalize_normalize_roundtrip (x : ndarray) (m s : Q) :
  ~ s == 0 ->
  values_eq (denormalize (normalize x m s) m s) x.
Proof.
  intros Hs; split; simpl.
  - reflexivity.
  - apply denormalize_normalize_values; exact Hs.
Qed.

Lemma denormalize_normalize_roundtrip_witness :
  values_eq (denormalize (normalize (arange [2; 3]%nat) (5 # 2) (3 # 7))
               (5 # 2) (3 # 7))
            (arange [2; 3]%nat).
Proof.
  apply (denormalize_normalize_roundtrip (arange [2; 3]%nat) (5 # 2) (s := 3 # 7)).
  intros H; discriminate H.
Defined.

(** ** Augmenter *)

Lemma swap_last_two_length (sh : list nat) :
  length (swap_last_two sh) = length sh.
Proof.
  induction sh as [| n rest IH]; [reflexivity |].
  destruct rest as [| w [| x rest']]; try reflexivity.
  change (swap_last_two (n :: w :: x :: rest'))
    with (n :: swap_last_two (w :: x :: rest')).
  simpl length in *; rewrite IH; reflexivity.
Qed.

Lemma rot90_is_ok (m : ndarray) (k : Z) :
  is_ok (rot90 m k) = (2 <=? ndim m)%nat.
Proof.
  unfold rot90.
  destruct (Nat.ltb_spec (ndim m) 2) as [H | H]; cbn [is_ok]; symmetry.
  - apply Nat.leb_gt; exact H.
  - apply Nat.leb_le; exact H.
Qed.

Lemma rot90_ndim (m m' : ndarray) (k : Z) :
  rot90 m k = Ok m' -> ndim m' = ndim m.
Proof.
  unfold rot90; destruct (ndim m <? 2)%nat; [discriminate |].
  intros H; injection H as <-; unfold ndim; simpl.
  destruct (Z.odd (k mod 4)); [apply swap_last_two_length | reflexivity].
Qed.

Lemma flip_is_ok (m : ndarray) : is_ok (flip m) = (1 <=? ndim m)%nat.
Proof.
  unfold flip, ndim.
  destruct (shape m) as [| n rest] eqn:E; [reflexivity |].
  destruct (rev (n :: rest)) as [| w l] eqn:R; [| reflexivity].
  apply (f_equal (@length nat)) in R; rewrite length_rev in R; discriminate R.
Qed.

Lemma flip_and_rotate_is_ok (image : ndarray) (r fl : Z) :
  is_ok (_flip_and_rotate image r fl) = (2 <=? ndim image)%nat.
Proof.
  unfold _flip_and_rotate.
  pose proof (rot90_is_ok image r) as Hr.
  destruct (rot90 image r) as [rotated | e] eqn:E; cbn [bind is_ok] in *;
    [| exact Hr].
  destruct (fl =? 1)%Z; cbn [bind is_ok]; [| exact Hr].
  pose proof (flip_is_ok rotated) as Hf.
  rewrite (rot90_ndim _ _ E) in Hf.
  destruct (flip rotated); cbn [bind is_ok] in *; [exact Hr |].
  symmetry in Hr; apply Nat.leb_le in Hr.
  symmetry in Hf; apply Nat.leb_gt in Hf; lia.
Qed.

(** *** Rotations and flips of arrays are arrays *)

Lemma chunks_blocks (n sz : nat) (d : list Q) :
  length d = (n * sz)%nat ->
  length (chunks n sz d) = n /\
  Forall (fun block => length block = sz) (chunks n sz d).
Proof.
  revert d; induction n as [| n IH]; intros d Hd; simpl.
  - split; [reflexivity | constructor].
  - destruct (IH (skipn sz d)) as [Hl Hall].
    { rewrite length_skipn; simpl in Hd; lia. }
    split; [rewrite Hl; reflexivity |].
    constructor; [| exact Hall].
    rewrite length_firstn; simpl in Hd; lia.
Qed.

Lemma concat_blocks (sz : nat) (blocks : list (list Q)) :
  Forall (fun block => length block = sz) blocks ->
  length (concat blocks) = (length blocks * sz)%nat.
Proof.
  induction 1 as [| b blocks Hb _ IH]; simpl; [reflexivity |].
  rewrite length_app, Hb, IH; reflexivity.
Qed.

Lemma column_length (j w : nat) (rows : list (list Q)) :
  Forall (fun row => length row = w) rows -> (j < w)%nat ->
  length (column j rows) = length rows.
Proof.
  intros Hall Hj; unfold column.
  induction Hall as [| row rows Hrow _ IH]; [reflexivity |].
  cbn [flat_map length]; rewrite length_app, IH, length_firstn, length_skipn.
  lia.
Qed.

Lemma transpose_blocks (w : nat) (rows : list (list Q)) :
  Forall (fun row => length row = w) rows ->
  length (transpose w rows) = w /\
  Forall (fun col => length col = length rows) (transpose w rows).
Proof.
  intros Hall; unfold transpose; split.
  - rewrite length_map, length_seq; reflexivity.
  - apply Forall_map, Forall_forall; intros j Hj.
    apply in_seq in Hj; apply (column_length Hall); lia.
Qed.

Lemma reversed_rows (w : nat) (rows : list (list Q)) :
  Forall (fun row => length row = w) rows ->
  Forall (fun row => length row = w) (map (@rev Q) rows).
Proof.
  intros Hall; apply Forall_map; eapply Forall_impl; [| exact Hall].
  intros row Hrow; rewrite length_rev; exact Hrow.
Qed.

Lemma rot90_matrix_length (k : Z) (w : nat) (rows : list (list Q)) :
  Forall (fun row => length row = w) rows ->
  length (concat (rot90_matrix k w rows)) = (length rows * w)%nat.
Proof.
  intros Hall; unfold rot90_matrix.
  destruct (k =? 0)%Z; [apply concat_blocks; exact Hall |].
  destruct (k =? 2)%Z.
  - rewrite (@concat_blocks w), length_map, length_rev; [reflexivity |].
    apply reversed_rows, Forall_rev; exact Hall.
  - destruct (k =? 1)%Z.
    + destruct (transpose_blocks (reversed_rows Hall)) as [Hl Hcols].
      rewrite (concat_blocks Hcols), Hl, length_map; lia.
    + destruct (transpose_blocks Hall) as [Hl Hcols].
      rewrite (concat_blocks (reversed_rows Hcols)), length_map, Hl; lia.
Qed.

Lemma on_matrices_length (f : nat -> list (list Q) -> list (list Q)) :
  (forall w rows, Forall (fun row => length row = w) rows ->
                  length (concat (f w rows)) = (length rows * w)%nat) ->
  forall sh d, length d = prod sh -> length (on_matrices f sh d) = prod sh.
Proof.
  intros Hf sh; induction sh as [| n rest IH]; intros d Hd; [exact Hd |].
  destruct (@chunks_blocks n (prod rest) d Hd) as [Hn Hblocks].
  assert (Hrec : length (concat (map (on_matrices f rest)
                                   (chunks n (prod rest) d)))
                 = prod (n :: rest)).
  { rewrite (@concat_blocks (prod rest)), length_map, Hn; [reflexivity |].
    apply Forall_map; eapply Forall_impl; [| exact Hblocks].
    intros block Hblock; apply IH; exact Hblock. }
  simpl on_matrices; destruct rest as [| w [| x rest']]; try exact Hrec.
  simpl in Hd; rewrite Nat.mul_1_r in Hd.
  destruct (@chunks_blocks n w d Hd) as [Hn' Hrows].
  rewrite (Hf w _ Hrows), Hn'; simpl; lia.
Qed.

Lemma prod_app (s t : list nat) : prod (s ++ t) = (prod s * prod t)%nat.
Proof.
  induction s as [| n s IH]; simpl; [lia |].
  fold (prod (s ++ t)); fold (prod s); rewrite IH; lia.
Qed.

Lemma prod_swap_last_two (sh : list nat) :
  prod (swap_last_two sh) = prod sh.
Proof.
  induction sh as [| n rest IH]; [reflexivity |].
  destruct rest as [| w [| x rest']]; [reflexivity | simpl; lia |].
  change (swap_last_two (n :: w :: x :: rest'))
    with (n :: swap_last_two (w :: x :: rest')).
  change (prod (n :: swap_last_two (w :: x :: rest')))
    with (n * prod (swap_last_two (w :: x :: rest')))%nat.
  rewrite IH; reflexivity.
Qed.

Lemma rot90_well_formed (m m' : ndarray) (k : Z) :
  well_formed m -> rot90 m k = Ok m' -> well_formed m'.
Proof.
  unfold rot90, well_formed; intros Hm.
  destruct (ndim m <? 2)%nat; [discriminate |].
  intros H; injection H as <-; cbn [data shape].
  rewrite (@on_matrices_length (rot90_matrix (k mod 4))
             (rot90_matrix_length (k mod 4)) _ _ Hm).
  destruct (Z.odd (k mod 4)); [symmetry; apply prod_swap_last_two | reflexivity].
Qed.

Lemma flip_well_formed (m m' : ndarray) :
  well_formed m -> flip m = Ok m' -> well_formed m'.
Proof.
  unfold flip, well_formed; intros Hm.
  destruct (rev (shape m)) as [| w l] eqn:E; [discriminate |].
  intros H; injection H as <-; cbn [data shape].
  assert (Hsh : shape m = removelast (shape m) ++ [w]).
  { destruct (shape m) as [| n rest] eqn:Es; [discriminate |].
    rewrite (app_removelast_last 0%nat) at 1 by discriminate.
    f_equal; f_equal.
    rewrite <- (rev_involutive (n :: rest)), E; simpl.
    apply last_last. }
  assert (Hd : length (data m) = (prod (removelast (shape m)) * w)%nat).
  { rewrite Hm, Hsh at 1; rewrite prod_app; simpl; lia. }
  destruct (@chunks_blocks _ _ _ Hd) as [Hn Hrows].
  rewrite (concat_blocks (reversed_rows Hrows)), length_map, Hn.
  rewrite Hsh at 2; rewrite prod_app; simpl; lia.
Qed.

Lemma flip_and_rotate_well_formed (image image' : ndarray) (r fl : Z) :
  well_formed image -> _flip_and_rotate image r fl = Ok image' ->
  well_formed image'.
Proof.
  intros Hw H; unfold _flip_and_rotate in H.
  destruct (rot90 image r) as [rotated | e] eqn:Er; [| discriminate].
  pose proof (@rot90_well_formed image rotated r Hw Er) as Hr.
  cbn [bind] in H; destruct (fl =? 1)%Z.
  - destruct (flip rotated) as [flipped | e] eqn:Ef; [| discriminate].
    injection H as <-; exact (@flip_well_formed rotated flipped Hr Ef).
  - injection H as <-; exact Hr.
Qed.

(** A cast keeps the shape, and so the number of elements. *)
Lemma astype_well_formed (t : dtype) (a : ndarray) :
  well_formed a -> well_formed (astype t a).
Proof.
  unfold well_formed, astype; cbn [shape data].
  rewrite length_map; auto.
Qed.

Section Augmenter.

Variable Generator : Type.
Variable default_rng : Z -> Generator.
Variable random_raw : Generator -> Z * Generator.

(** A seed that is refused is refused before anything is drawn. *)
Lemma augment_batch_refused (seed : option Z) (patch target : ndarray) :
  seed_accepted seed = false ->
  augment_batch default_rng random_raw patch target seed = Raise ValueError.
Proof.
  destruct seed as [s |]; cbn [seed_accepted]; [| discriminate].
  intros Hs; unfold augment_batch, seeded.
  destruct (Z.ltb_spec s 0) as [_ | Hge]; [reflexivity |].
  apply Z.leb_gt in Hs; lia.
Qed.

(** The two draws of [augment_batch] depend on the seed alone: one
    rotation count and one flip flag serve both arrays. *)
Lemma augment_batch_state (seed : option Z) :
  exists rotate_state flip_state : Z,
    (0 <= rotate_state < 4)%Z /\ (0 <= flip_state < 2)%Z /\
    forall patch target,
      augment_batch default_rng random_raw patch target seed
      = if seed_accepted seed
        then (p <- _flip_and_rotate patch rotate_state flip_state ;;
              t <- _flip_and_rotate target rotate_state flip_state ;;
              Ok (p, t))
        else Raise ValueError.
Proof.
  destruct (seed_accepted seed) eqn:Hs.
  - assert (Hseeded : exists s : Z,
               forall patch target,
                 augment_batch default_rng random_raw patch target seed
                 = ('(rotate_state, rng) <-
                      integers random_raw (default_rng s) 0 4 false ;;
                    '(flip_state, rng) <- integers random_raw rng 0 2 false ;;
                    p <- _flip_and_rotate patch rotate_state flip_state ;;
                    t <- _flip_and_rotate target rotate_state flip_state ;;
                    Ok (p, t))).
    { destruct seed as [s |]; cbn [seed_accepted] in Hs.
      - exists s; intros patch target; unfold augment_batch, seeded.
        destruct (Z.ltb_spec s 0) as [Hlt | _]; [| reflexivity].
        apply Z.leb_le in Hs; lia.
      - exists 42%Z; intros patch target; reflexivity. }
    destruct Hseeded as (s & Hseeded).
    unfold integers in Hseeded; simpl in Hseeded.
    destruct (random_raw (default_rng s)) as [r1 g1]; simpl in Hseeded.
    destruct (random_raw g1) as [r2 g2]; simpl in Hseeded.
    exists (r1 mod 4)%Z, (r2 mod 2)%Z.
    split; [pose proof (Z.mod_pos_bound r1 4); lia |].
    split; [pose proof (Z.mod_pos_bound r2 2); lia |].
    exact Hseeded.
  - exists 0%Z, 0%Z; split; [lia |]; split; [lia |].
    intros patch target; exact (augment_batch_refused seed patch target Hs).
Qed.

(** Without a seed the default 42 is used, which is accepted. *)
Lemma augment_batch_default_state :
  exists rotate_state flip_state : Z,
    (0 <= rotate_state < 4)%Z /\ (0 <= flip_state < 2)%Z /\
    forall patch target,
      augment_batch default_rng random_raw patch target None
      = (p <- _flip_and_rotate patch rotate_state flip_state ;;
         t <- _flip_and_rotate target rotate_state flip_state ;;
         Ok (p, t)).
Proof. exact (augment_batch_state None). Qed.

(** C7.  For every seed that [np.random.default_rng] accepts (none given,
    or a non-negative one), [augment_batch] draws one rotation count and
    one flip flag and applies them to both arrays; with
    [target = patch * 2] the augmented target is the augmented patch times
    2; the call returns exactly when both arrays have at least two
    dimensions.  With a negative seed the call raises [ValueError] and
    nothing is augmented. *)
Theorem augment_batch_pairs_patch_and_target (seed : option Z) :
  exists rotate_state flip_state : Z,
    (0 <= rotate_state < 4)%Z /\ (0 <= flip_state < 2)%Z /\
    (forall patch target,
        augment_batch default_rng random_raw patch target seed
        = if seed_accepted seed
          then (p <- _flip_and_rotate patch rotate_state flip_state ;;
                t <- _flip_and_rotate target rotate_state flip_state ;;
                Ok (p, t))
          else Raise ValueError) /\
    (forall patch,
        augment_batch default_rng random_raw patch (scale 2 patch) seed
        = if seed_accepted seed
          then (p <- _flip_and_rotate patch rotate_state flip_state ;;
                Ok (p, scale 2 p))
          else Raise ValueError) /\
    (forall patch target,
        is_ok (augment_batch default_rng random_raw patch target seed)
        = seed_accepted seed
          && ((2 <=? ndim patch)%nat && (2 <=? ndim target)%nat)).
Proof.
  destruct (augment_batch_state seed) as (r & fl & Hr & Hf & Heq).
  exists r, fl; repeat split; try lia; try exact Heq.
  - intros patch; rewrite Heq; unfold scale.
    destruct (seed_accepted seed); [| reflexivity].
    rewrite flip_and_rotate_map_elements.
    destruct (_flip_and_rotate patch r fl); reflexivity.
  - intros patch target; rewrite Heq.
    destruct (seed_accepted seed); [| reflexivity].
    rewrite <- (flip_and_rotate_is_ok patch r fl),
            <- (flip_and_rotate_is_ok target r fl).
    destruct (_flip_and_rotate patch r fl); simpl; [| reflexivity].
    destruct (_flip_and_rotate target r fl); reflexivity.
Qed.

(** C10.  [augment_batch] is a function of patch, target and seed: equal
    arguments give equal pairs; a call without seed is the call with seed
    42, so all such calls apply one and the same rotation count and flip
    flag. *)
Theorem augment_batch_deterministic_in_seed :
  (forall patch target seed patch' target' seed',
      patch = patch' -> target = target' -> seed = seed' ->
      augment_batch default_rng random_raw patch target seed
      = augment_batch default_rng random_raw patch' target' seed') /\
  (forall patch target,
      augment_batch default_rng random_raw patch target None
      = augment_batch default_rng random_raw patch target (Some 42%Z)) /\
  (exists rotate_state flip_state : Z,
      (0 <= rotate_state < 4)%Z /\ (0 <= flip_state < 2)%Z /\
      forall patch target,
        augment_batch default_rng random_raw patch target None
        = (p <- _flip_and_rotate patch rotate_state flip_state ;;
           t <- _flip_and_rotate target rotate_state flip_state ;;
           Ok (p, t))).
Proof.
  split; [| split].
  - intros patch target seed patch' target' seed' -> -> ->; reflexivity.
  - intros patch target; reflexivity.
  - exact augment_batch_default_state.
Qed.

(** C1.  What [__getitem__] does with augmentation enabled: whatever the
    dataset and the index, and however often it is called, it applies the
    one rotation count and flip flag that seed 42 yields.  Two calls on
    the same index therefore return the same pair. *)
Theorem getitem_augmentation_never_varies (stats : statistics) :
  exists rotate_state flip_state : Z,
    forall (image_data target_data : ndarray) (index : Z),
      __getitem__ default_rng random_raw stats
        (__init__ image_data target_data (Some true)) index
      = (patch <- item image_data index ;;
         target <- item target_data index ;;
         p <- _flip_and_rotate patch rotate_state flip_state ;;
         t <- _flip_and_rotate target rotate_state flip_state ;;
         Ok (astype float32
               (newaxis (normalize p (train_mean stats) (train_std stats))),
             astype float32
               (newaxis (normalize t (target_mean stats) (target_std stats))))).
Proof.
  destruct augment_batch_default_state as (r & fl & _ & _ & Heq).
  exists r, fl; intros image_data target_data index.
  unfold __getitem__; simpl.
  destruct (item image_data index) as [patch | e]; simpl; [| reflexivity].
  destruct (item target_data index) as [target | e]; simpl; [| reflexivity].
  rewrite Heq.
  destruct (_flip_and_rotate patch r fl) as [p | e]; simpl; [| reflexivity].
  destruct (_flip_and_rotate target r fl) as [t | e]; reflexivity.
Qed.

End Augmenter.

(** ** Patch sampler *)

Ltac bind_inv H a Ha :=
  apply bind_ok in H; destruct H as (a & Ha & H).

Lemma item_in_range (a : ndarray) (n : nat) (rest : list nat) (s : nat) :
  shape a = n :: rest -> (s < n)%nat ->
  exists sub, item a (Z.of_nat s) = Ok sub /\ shape sub = rest.
Proof.
  intros Hs Hlt; unfold item, normalize_index; rewrite Hs.
  destruct (Z.leb_spec 0 (Z.of_nat s)); [| lia].
  destruct (Z.ltb_spec (Z.of_nat s) (Z.of_nat n)); [| lia].
  simpl; eexists; split; reflexivity.
Qed.

Lemma item_shape (a sub : ndarray) (i : Z) :
  item a i = Ok sub -> shape sub = tl (shape a).
Proof.
  unfold item; destruct (shape a) as [| n rest]; [discriminate |].
  destruct (normalize_index n i); [| discriminate].
  intros H; injection H as <-; reflexivity.
Qed.

Lemma item_past_the_end (a : ndarray) (s : nat) :
  (length (shape a) = 0 \/ hd 0 (shape a) <= s)%nat ->
  item a (Z.of_nat s) = Raise IndexError.
Proof.
  unfold item, normalize_index.
  destruct (shape a) as [| n rest]; simpl; intros H; [reflexivity |].
  destruct H as [H | H]; [discriminate |].
  destruct (Z.leb_spec 0 (Z.of_nat s)); [| lia].
  destruct (Z.ltb_spec (Z.of_nat s) (Z.of_nat n)); [lia |].
  simpl.
  destruct (Z.leb_spec (- Z.of_nat n) (Z.of_nat s));
    destruct (Z.ltb_spec (Z.of_nat s) 0); simpl; try reflexivity; lia.
Qed.

Lemma crop_shape_of (a a' : ndarray) (coords : list Z) (patch_size : list nat) :
  crop a coords patch_size = Ok a' ->
  shape a' = crop_shape (ndim a - length (combine coords patch_size))
               (shape a) (combine coords patch_size).
Proof.
  unfold crop.
  destruct (ndim a <? length (combine coords patch_size))%nat; [discriminate |].
  intros H; injection H as <-; reflexivity.
Qed.

(** *** Crops and stacks of arrays are arrays *)

Lemma Forall_window {A : Type} (P : A -> Prop) (j k : nat) (l : list A) :
  Forall P l -> Forall P (firstn k (skipn j l)).
Proof.
  intros H; apply Forall_forall; intros x Hx.
  rewrite Forall_forall in H; apply H.
  rewrite <- (firstn_skipn j l); apply in_or_app; right.
  rewrite <- (firstn_skipn k (skipn j l)); apply in_or_app; left; exact Hx.
Qed.

Lemma slice_inside (n p : nat) (c : Z) :
  (slice_length n c p <= n - slice_start n c)%nat.
Proof.
  unfold slice_length, slice_start, clamp.
  destruct (Z.ltb_spec (c + Z.of_nat p) 0); destruct (Z.ltb_spec c 0); lia.
Qed.

Lemma crop_data_length (sh : list nat) :
  forall (lead : nat) (slices : list (Z * nat)) (d : list Q),
    length d = prod sh ->
    length (crop_data lead sh slices d) = prod (crop_shape lead sh slices).
Proof.
  induction sh as [| n rest IH]; intros lead slices d Hd; [exact Hd |].
  destruct (@chunks_blocks n (prod rest) d Hd) as [Hn Hblocks].
  assert (Hmap : forall l sl blocks,
             Forall (fun block => length block = prod rest) blocks ->
             length (concat (map (crop_data l rest sl) blocks))
             = (length blocks * prod (crop_shape l rest sl))%nat).
  { intros l sl blocks Hb.
    rewrite (@concat_blocks (prod (crop_shape l rest sl))), length_map;
      [reflexivity |].
    apply Forall_map; eapply Forall_impl; [| exact Hb].
    intros block Hblock; apply IH; exact Hblock. }
  destruct lead as [| lead]; [destruct slices as [| [c p] slices] |].
  - exact Hd.
  - cbn [crop_data crop_shape prod fold_right].
    fold (prod (crop_shape 0 rest slices)).
    rewrite Hmap.
    + rewrite length_firstn, length_skipn, Hn.
      pose proof (slice_inside n p c); f_equal; lia.
    + apply Forall_window; exact Hblocks.
  - cbn [crop_data crop_shape prod fold_right].
    fold (prod (crop_shape lead rest slices)).
    rewrite Hmap, Hn; [reflexivity | exact Hblocks].
Qed.

Lemma crop_well_formed (a a' : ndarray) (coords : list Z) (patch_size : list nat) :
  well_formed a -> crop a coords patch_size = Ok a' -> well_formed a'.
Proof.
  unfold crop, well_formed; intros Ha.
  destruct (ndim a <? length (combine coords patch_size))%nat; [discriminate |].
  intros H; injection H as <-; simpl.
  apply crop_data_length; exact Ha.
Qed.

Lemma item_well_formed (a sub : ndarray) (i : Z) :
  well_formed a -> item a i = Ok sub -> well_formed sub.
Proof.
  unfold item, well_formed; intros Ha.
  destruct (shape a) as [| n rest]; [discriminate |].
  destruct (normalize_index n i) as [j |] eqn:Ej; [| discriminate].
  intros H; injection H as <-; simpl.
  assert (Hj : (j < n)%nat).
  { unfold normalize_index in Ej.
    destruct (Z.leb_spec 0 i); destruct (Z.ltb_spec i (Z.of_nat n));
      destruct (Z.leb_spec (- Z.of_nat n) i); destruct (Z.ltb_spec i 0);
      simpl in Ej; try discriminate; injection Ej as <-; lia. }
  rewrite length_firstn, length_skipn, Ha; simpl; nia.
Qed.

Lemma shape_eqb_eq (s t : list nat) : shape_eqb s t = true -> s = t.
Proof.
  revert t; induction s as [| x s IH]; intros [| y t]; simpl; intros H;
    try discriminate; [reflexivity |].
  apply andb_prop in H; destruct H as [Hx Hs].
  apply Nat.eqb_eq in Hx; rewrite Hx, (IH t Hs); reflexivity.
Qed.

Lemma stack_well_formed (arrays : list ndarray) (stacked : ndarray) :
  Forall well_formed arrays -> stack arrays = Ok stacked -> well_formed stacked.
Proof.
  unfold stack; intros Hall.
  destruct arrays as [| a rest] eqn:E; [discriminate |]; rewrite <- E in *.
  destruct (forallb (fun b => shape_eqb (shape a) (shape b)) arrays) eqn:Hsame;
    [| discriminate].
  intros H; injection H as <-; unfold well_formed; cbn [data shape prod fold_right].
  fold (prod (shape a)).
  rewrite (@concat_blocks (prod (shape a))), length_map; [reflexivity |].
  apply Forall_map, Forall_forall; intros b Hb.
  rewrite forallb_forall in Hsame; rewrite Forall_forall in Hall.
  rewrite (shape_eqb_eq _ _ (Hsame b Hb)); exact (Hall b Hb).
Qed.

Section SamplerProperties.

Variable Generator : Type.
Variable random_raw : Generator -> Z * Generator.

Lemma sample_patches_spec (s : nat) (sample target_sample : ndarray)
  (patch_size : list nat) (n : nat) :
  forall rng ds rng',
    sample_patches random_raw rng s sample target_sample patch_size n
    = Ok (ds, rng') ->
    length ds = n /\
    Forall (fun d => sample_index d = s /\
                     cropped_from sample target_sample patch_size d) ds.
Proof.
  induction n as [| n IH]; intros rng ds rng' H; simpl in H.
  - injection H as <- <-; split; [reflexivity | constructor].
  - bind_inv H cr Hcr; destruct cr as [coords rng1].
    bind_inv H p Hp. bind_inv H t Ht.
    bind_inv H mr Hmr; destruct mr as [more rng2].
    injection H as <- <-.
    destruct (IH _ _ _ Hmr) as [Hlen Hall].
    split; [simpl; rewrite Hlen; reflexivity |].
    constructor; [| exact Hall].
    split; [reflexivity |].
    unfold cropped_from; simpl; rewrite Hp, Ht; split; reflexivity.
Qed.

Lemma iterate_samples_spec (image_array target_array : ndarray)
  (patch_size : list nat) (samples : list nat) :
  forall rng ds rng',
    iterate_samples random_raw rng image_array target_array patch_size samples
    = Ok (ds, rng') ->
    Forall (fun d =>
              In (sample_index d) samples /\
              exists sample target_sample,
                item image_array (Z.of_nat (sample_index d)) = Ok sample /\
                item target_array (Z.of_nat (sample_index d)) = Ok target_sample /\
                cropped_from sample target_sample patch_size d) ds.
Proof.
  induction samples as [| s samples IH]; intros rng ds rng' H; simpl in H.
  - injection H as <- <-; constructor.
  - bind_inv H sample Hsample. bind_inv H target_sample Htarget.
    bind_inv H n Hn.
    bind_inv H pr Hpr; destruct pr as [ps rng1].
    bind_inv H qr Hqr; destruct qr as [qs rng2].
    injection H as <- <-.
    apply Forall_app; split.
    + destruct (sample_patches_spec _ _ _ _ _ _ Hpr) as [_ Hall].
      eapply Forall_impl; [| exact Hall].
      intros d [Hs Hc]; rewrite Hs; split; [left; reflexivity |].
      exists sample, target_sample; auto.
    + eapply Forall_impl; [| exact (IH _ _ _ Hqr)].
      intros d [Hin Hex]; split; [right; exact Hin | exact Hex].
Qed.

(** C5.  Whenever [create_patches] returns, every drawn pair consists of
    the crop of the source image and the crop of its target image at one
    and the same coordinate, and for source and target stacks of equal
    shape the two crops have the same shape; the returned arrays are the
    stacks of these crops. *)
Theorem create_patches_pairs_crops (rng : Generator)
  (image_array target_array : ndarray) (patch_size : list nat)
  (image_patches target_patches : ndarray) :
  shape image_array = shape target_array ->
  create_patches random_raw rng image_array target_array patch_size
  = Ok (image_patches, target_patches) ->
  exists ds,
    draw_patches random_raw rng image_array target_array patch_size = Ok ds /\
    stack (map patch ds) = Ok image_patches /\
    stack (map target_patch ds) = Ok target_patches /\
    Forall (fun d =>
              exists sample target_sample,
                item image_array (Z.of_nat (sample_index d)) = Ok sample /\
                item target_array (Z.of_nat (sample_index d)) = Ok target_sample /\
                cropped_from sample target_sample patch_size d /\
                shape (patch d) = shape (target_patch d)) ds.
Proof.
  intros Hshape H; unfold create_patches in H.
  bind_inv H ds Hds. bind_inv H ip Hip. bind_inv H tp Htp.
  injection H as <- <-.
  exists ds; repeat split; try assumption.
  unfold draw_patches in Hds.
  destruct (shape image_array) as [| n rest] eqn:Hs; [discriminate |].
  bind_inv Hds it Hit; destruct it as [ds' rng']. injection Hds as <-.
  eapply Forall_impl; [| exact (iterate_samples_spec _ _ _ _ _ Hit)].
  intros d (_ & sample & target_sample & Hi & Ht & Hc).
  exists sample, target_sample; repeat split; try assumption.
  - apply Hc.
  - apply Hc.
  - destruct Hc as [Hp Hq].
    pose proof (item_shape _ _ Hi) as S1.
    pose proof (item_shape _ _ Ht) as S2.
    rewrite Hs in S1; rewrite <- Hshape in S2; simpl in S1, S2.
    destruct (crop sample (crop_coords d) patch_size) as [p | e] eqn:Ep;
      [| discriminate].
    destruct (crop target_sample (crop_coords d) patch_size) as [t | e] eqn:Et;
      [| discriminate].
    simpl in Hp, Hq; injection Hp as Hp; injection Hq as Hq.
    rewrite <- Hp, <- Hq; simpl.
    rewrite (crop_shape_of _ _ _ Ep), (crop_shape_of _ _ _ Et).
    unfold ndim; rewrite S1, S2; reflexivity.
Qed.

(** *** Sampling from images that hold the patch *)

Lemma integers_endpoint_ok (rng : Generator) (high : Z) :
  (0 <= high)%Z ->
  exists c rng',
    integers random_raw rng 0 high true = Ok (c, rng') /\ (0 <= c <= high)%Z.
Proof.
  intros H; unfold integers.
  destruct (Z.ltb_spec high 0); [lia |].
  destruct (random_raw rng) as [r rng'].
  eexists; eexists; split; [reflexivity |].
  pose proof (Z.mod_pos_bound r (high - 0 + 1)); lia.
Qed.


Lemma draw_crop_coords_fit (P S : list nat) :
  Forall2 le P S ->
  forall (preS preP : list nat) (rng : Generator),
    length preS = length preP ->
    exists cs rng',
      draw_crop_coords random_raw rng (preS ++ S) (preP ++ P)
        (seq (length preS) (length P)) = Ok (cs, rng') /\
      within_bounds S P cs.
Proof.
  induction 1 as [| p n P' S' Hle Hall IH]; intros preS preP rng Hlen; simpl.
  - exists [], rng; split; [reflexivity | constructor].
  - rewrite nth_error_app2 by lia.
    rewrite Nat.sub_diag; simpl.
    rewrite app_nth2 by lia.
    replace (length preS - length preP)%nat with 0%nat by lia; simpl.
    destruct (integers_endpoint_ok rng (high := Z.of_nat n - Z.of_nat p))
      as (c & rng1 & Hc & Hb); [lia |].
    rewrite Hc; simpl.
    destruct (IH (preS ++ [n]) (preP ++ [p]) rng1) as (cs & rng2 & Hcs & Hbs).
    { rewrite !length_app; simpl; lia. }
    rewrite <- !app_assoc in Hcs; simpl in Hcs.
    rewrite length_app in Hcs; simpl in Hcs.
    rewrite Nat.add_1_r in Hcs; rewrite Hcs; simpl.
    exists (c :: cs), rng2; split; [reflexivity |].
    constructor; [exact Hb | exact Hbs].
Qed.

Lemma slice_length_fit (n p : nat) (c : Z) :
  (0 <= c <= Z.of_nat n - Z.of_nat p)%Z -> slice_length n c p = p.
Proof.
  intros H; unfold slice_length, clamp.
  destruct (Z.ltb_spec (c + Z.of_nat p) 0); [lia |].
  destruct (Z.ltb_spec c 0); lia.
Qed.

Lemma crop_shape_fit (S : list nat) :
  forall (P : list nat) (cs : list Z),
    length S = length P -> within_bounds S P cs ->
    crop_shape 0 S (combine cs P) = P.
Proof.
  unfold within_bounds.
  induction S as [| n S IH]; intros [| p P] cs Hlen Hb; try discriminate.
  - reflexivity.
  - simpl in Hb; inversion Hb as [| c sp cs' l Hc Hcs]; subst.
    simpl in Hc; simpl.
    rewrite (slice_length_fit _ _ Hc), IH; auto.
Qed.

Lemma within_bounds_length (S P : list nat) (cs : list Z) :
  length S = length P -> within_bounds S P cs -> length cs = length P.
Proof.
  intros Hlen Hb; apply Forall2_length in Hb.
  rewrite length_combine in Hb; lia.
Qed.

Lemma crop_fit (a : ndarray) (P : list nat) (cs : list Z) :
  length (shape a) = length P -> within_bounds (shape a) P cs ->
  exists a', crop a cs P = Ok a' /\ shape a' = P.
Proof.
  intros Hlen Hb; unfold crop, ndim.
  pose proof (within_bounds_length Hlen Hb) as Hcs.
  rewrite length_combine, Hcs, Nat.min_id, Hlen.
  rewrite Nat.ltb_irrefl, Nat.sub_diag.
  eexists; split; [reflexivity |]; simpl.
  apply crop_shape_fit; assumption.
Qed.

Lemma sample_patches_fit (s : nat) (sample target_sample : ndarray)
  (P : list nat) :
  Forall2 le P (shape sample) -> shape target_sample = shape sample ->
  forall (n : nat) (rng : Generator),
    exists ds rng',
      sample_patches random_raw rng s sample target_sample P n = Ok (ds, rng') /\
      Forall (fun d => within_bounds (shape sample) P (crop_coords d) /\
                       shape (patch d) = P /\ shape (target_patch d) = P) ds.
Proof.
  intros Hfit Hsame n; induction n as [| n IH]; intros rng; simpl.
  - exists [], rng; split; [reflexivity | constructor].
  - destruct (draw_crop_coords_fit Hfit [] [] rng eq_refl)
      as (cs & rng1 & Hcs & Hb).
    simpl in Hcs; rewrite Hcs; simpl.
    pose proof (Forall2_length Hfit) as Hlen; symmetry in Hlen.
    destruct (crop_fit sample Hlen Hb) as (p & Hp & Sp).
    rewrite Hp; simpl.
    rewrite <- Hsame in Hlen, Hb.
    destruct (crop_fit target_sample Hlen Hb) as (t & Ht & St).
    rewrite Ht; simpl.
    destruct (IH rng1) as (more & rng2 & Hmore & Hall).
    rewrite Hmore; simpl.
    eexists; eexists; split; [reflexivity |].
    constructor; [| exact Hall]; simpl.
    rewrite Hsame in Hb; auto.
Qed.

Lemma prod_positive (P : list nat) :
  Forall (lt 0) P -> (0 < prod P)%nat.
Proof.
  induction 1 as [| p P Hp _ IH]; simpl; [lia | nia].
Qed.

Lemma n_patches_ceil (S P : list nat) :
  (0 < prod P)%nat ->
  exists n, n_patches S P = Ok n /\ is_ceil_quotient (prod S) (prod P) n.
Proof.
  intros Hpos; unfold n_patches.
  destruct (Nat.eqb_spec (prod P) 0) as [E | _]; [lia |].
  eexists; split; [reflexivity |].
  unfold is_ceil_quotient.
  pose proof (Nat.div_mod_eq (prod S + prod P - 1) (prod P)) as Hd.
  pose proof (Nat.mod_upper_bound (prod S + prod P - 1) (prod P)) as Hm.
  nia.
Qed.

Lemma drawn_from_same (s : nat) (ds : list drawn) :
  Forall (fun d => sample_index d = s) ds -> drawn_from s ds = ds.
Proof.
  unfold drawn_from; induction 1 as [| d ds Hd _ IH]; simpl; [reflexivity |].
  rewrite Hd, Nat.eqb_refl, IH; reflexivity.
Qed.

Lemma drawn_from_other (s s' : nat) (ds : list drawn) :
  s' <> s -> Forall (fun d => sample_index d = s') ds -> drawn_from s ds = [].
Proof.
  unfold drawn_from; intros Hne; induction 1 as [| d ds Hd _ IH]; simpl;
    [reflexivity |].
  rewrite Hd; destruct (Nat.eqb_spec s' s); [contradiction | exact IH].
Qed.

Lemma iterate_samples_fit (image_array target_array : ndarray)
  (N n : nat) (S P : list nat) :
  shape image_array = N :: S -> shape target_array = N :: S ->
  Forall2 le P S -> n_patches S P = Ok n ->
  forall samples : list nat,
    Forall (fun s => (s < N)%nat) samples ->
    forall rng : Generator,
      exists ds rng',
        iterate_samples random_raw rng image_array target_array P samples
        = Ok (ds, rng') /\
        length ds = (n * length samples)%nat /\
        (forall s, length (drawn_from s ds)
                   = (n * count_occ Nat.eq_dec samples s)%nat) /\
        Forall (fun d => within_bounds S P (crop_coords d) /\
                         shape (patch d) = P /\ shape (target_patch d) = P) ds.
Proof.
  intros HI HT Hfit Hn samples;
    induction 1 as [| s samples Hs _ IH]; intros rng; simpl.
  - exists [], rng; repeat split; auto; intros; simpl; lia.
  - destruct (item_in_range image_array HI Hs) as (sample & Hsample & Ss).
    destruct (item_in_range target_array HT Hs) as (target & Htarget & St).
    rewrite Hsample, Htarget; simpl; rewrite Ss, Hn; simpl.
    rewrite <- Ss in Hfit.
    destruct (sample_patches_fit s sample target Hfit
                (eq_trans St (eq_sym Ss)) n rng) as (ps & rng1 & Hps & Hall).
    rewrite Hps; simpl.
    destruct (sample_patches_spec _ _ _ _ _ _ Hps) as [Hlen Hidx].
    destruct (IH rng1) as (qs & rng2 & Hqs & Hlq & Hcount & Hallq).
    rewrite Hqs; simpl.
    exists (ps ++ qs), rng2; split; [reflexivity |].
    assert (Hidx' : Forall (fun d => sample_index d = s) ps).
    { eapply Forall_impl; [| exact Hidx]; intros d [Hd _]; exact Hd. }
    split; [rewrite length_app, Hlen, Hlq; lia |].
    split.
    + intros s'; unfold drawn_from; rewrite filter_app, length_app.
      fold (drawn_from s' ps); fold (drawn_from s' qs); rewrite Hcount.
      destruct (Nat.eq_dec s s') as [-> | Hne].
      * rewrite (drawn_from_same Hidx'), Hlen; lia.
      * rewrite (drawn_from_other Hne Hidx'); simpl; lia.
    + apply Forall_app; split; [| exact Hallq].
      rewrite Ss in Hall; exact Hall.
Qed.

Lemma shape_eqb_refl (sh : list nat) : shape_eqb sh sh = true.
Proof.
  induction sh as [| n sh IH]; simpl; [reflexivity |].
  rewrite Nat.eqb_refl, IH; reflexivity.
Qed.

Lemma stack_same_shape (arrays : list ndarray) (sh : list nat) :
  arrays <> [] -> Forall (fun a => shape a = sh) arrays ->
  exists stacked,
    stack arrays = Ok stacked /\ shape stacked = length arrays :: sh.
Proof.
  intros Hne Hall; unfold stack.
  destruct arrays as [| a rest]; [contradiction |].
  pose proof (Forall_inv Hall) as Ha; simpl in Ha.
  assert (E : forallb (fun b => shape_eqb (shape a) (shape b)) (a :: rest) = true).
  { apply forallb_forall; intros b Hb.
    rewrite Forall_forall in Hall; rewrite Ha, (Hall b Hb).
    apply shape_eqb_refl. }
  rewrite E; eexists; split; [reflexivity |]; simpl; rewrite Ha; reflexivity.
Qed.

Lemma count_occ_seq (N s : nat) :
  (s < N)%nat -> count_occ Nat.eq_dec (seq 0 N) s = 1%nat.
Proof.
  intros H; apply NoDup_count_occ'; [apply seq_NoDup | apply in_seq; lia].
Qed.

(** C3.  For a non-empty stack of [N] images of shape [S], a target stack
    of the same shape and a patch shape [P] of positive extents that fit
    ([P[d] <= S[d]] on every axis), [create_patches] returns; it draws
    [n = ceil(prod(S) / prod(P))] patches from every image, [N * n] in
    all, and both returned arrays have shape [(N * n, *P)]. *)
Theorem create_patches_count (rng : Generator)
  (image_array target_array : ndarray) (N : nat) (S P : list nat) :
  shape image_array = N :: S -> shape target_array = N :: S ->
  (1 <= N)%nat -> Forall2 le P S -> Forall (lt 0) P ->
  exists ds image_patches target_patches n,
    draw_patches random_raw rng image_array target_array P = Ok ds /\
    create_patches random_raw rng image_array target_array P
    = Ok (image_patches, target_patches) /\
    is_ceil_quotient (prod S) (prod P) n /\
    (forall s, (s < N)%nat -> length (drawn_from s ds) = n) /\
    length ds = (N * n)%nat /\
    shape image_patches = (N * n)%nat :: P /\
    shape target_patches = (N * n)%nat :: P.
Proof.
  intros HI HT HN Hfit Hpos.
  pose proof (prod_positive Hpos) as HP.
  destruct (@n_patches_ceil S P HP) as (n & Hn & Hceil).
  assert (Hrange : Forall (fun s => (s < N)%nat) (seq 0 N)).
  { apply Forall_forall; intros s Hs; apply in_seq in Hs; lia. }
  destruct (iterate_samples_fit image_array target_array HI HT Hfit Hn
              Hrange rng) as (ds & rng' & Hds & Hlen & Hcount & Hall).
  rewrite length_seq in Hlen.
  assert (Hn1 : (1 <= n)%nat).
  { assert (0 < prod S)%nat.
    { apply prod_positive.
      clear - Hfit Hpos; induction Hfit; constructor;
        inversion Hpos; subst; [lia | auto]. }
    destruct Hceil as [Hc _]; destruct n; [simpl in Hc; lia | lia]. }
  assert (Hdraw : draw_patches random_raw rng image_array target_array P = Ok ds).
  { unfold draw_patches; rewrite HI, Hds; reflexivity. }
  assert (Hne : ds <> []).
  { intros ->; simpl in Hlen; nia. }
  destruct (@stack_same_shape (map patch ds) P) as (ip & Hip & Sip).
  { intros E; apply map_eq_nil in E; contradiction. }
  { apply Forall_map; eapply Forall_impl; [| exact Hall]; simpl; tauto. }
  destruct (@stack_same_shape (map target_patch ds) P) as (tp & Htp & Stp).
  { intros E; apply map_eq_nil in E; contradiction. }
  { apply Forall_map; eapply Forall_impl; [| exact Hall]; simpl; tauto. }
  rewrite length_map in Sip, Stp.
  exists ds, ip, tp, n; repeat split.
  - exact Hdraw.
  - unfold create_patches; rewrite Hdraw; simpl; rewrite Hip; simpl.
    rewrite Htp; reflexivity.
  - apply Hceil.
  - apply Hceil.
  - intros s Hs; rewrite Hcount, (count_occ_seq Hs); lia.
  - rewrite Hlen; lia.
  - rewrite Sip, Hlen; f_equal; lia.
  - rewrite Stp, Hlen; f_equal; lia.
Qed.

(** On images with exactly the axes of the patch, every coordinate drawn
    lies within the bounds. *)
Lemma draw_patches_within_bounds (rng : Generator)
  (image_array target_array : ndarray) (N : nat) (S P : list nat) :
  shape image_array = N :: S -> shape target_array = N :: S ->
  Forall2 le P S -> Forall (lt 0) P ->
  exists ds,
    draw_patches random_raw rng image_array target_array P = Ok ds /\
    Forall (fun d => within_bounds S P (crop_coords d)) ds.
Proof.
  intros HI HT Hfit Hpos.
  destruct (@n_patches_ceil S P (prod_positive Hpos)) as (n & Hn & _).
  assert (Hrange : Forall (fun s => (s < N)%nat) (seq 0 N)).
  { apply Forall_forall; intros s Hs; apply in_seq in Hs; lia. }
  destruct (iterate_samples_fit image_array target_array HI HT Hfit Hn
              Hrange rng) as (ds & rng' & Hds & _ & _ & Hall).
  exists ds; split.
  - unfold draw_patches; rewrite HI, Hds; reflexivity.
  - eapply Forall_impl; [| exact Hall]; simpl; tauto.
Qed.

(** *** Patches that do not fit *)




(** *** Stacks that do not match *)

Lemma iterate_samples_missing_target (image_array target_array : ndarray)
  (P : list nat) (s : nat) (samples : list nat) :
  In s samples ->
  item target_array (Z.of_nat s) = Raise IndexError ->
  forall rng : Generator,
    raises (iterate_samples random_raw rng image_array target_array P samples).
Proof.
  intros Hin Hmiss; induction samples as [| s0 samples IH]; intros rng;
    [contradiction |].
  cbn [iterate_samples].
  destruct (item image_array (Z.of_nat s0)) as [sample | e] eqn:Ei;
    [| exists e; reflexivity].
  cbn [bind].
  destruct (item target_array (Z.of_nat s0)) as [target | e] eqn:Et;
    [| exists e; reflexivity].
  cbn [bind].
  destruct (n_patches (shape sample) P) as [n | e]; [| exists e; reflexivity].
  cbn [bind].
  destruct (sample_patches random_raw rng s0 sample target P n)
    as [[ps rng1] | e]; [| exists e; reflexivity].
  cbn [bind].
  destruct Hin as [-> | Hin]; [rewrite Hmiss in Et; discriminate |].
  destruct (IH Hin rng1) as [e He]; rewrite He; exists e; reflexivity.
Qed.

(** C2, as the code has it.  When the target stack holds fewer images
    than the source stack, [create_patches] fails: at the latest with the
    IndexError of [target_array[s]] at the first image without a target,
    after the earlier images have been sampled. *)
Theorem create_patches_fewer_targets_fails (rng : Generator)
  (image_array target_array : ndarray) (N M : nat) (S T P : list nat) :
  shape image_array = N :: S -> shape target_array = M :: T ->
  (M < N)%nat ->
  exists e,
    draw_patches random_raw rng image_array target_array P = Raise e /\
    create_patches random_raw rng image_array target_array P = Raise e.
Proof.
  intros HI HT HM.
  assert (Hmiss : item target_array (Z.of_nat M) = Raise IndexError).
  { apply item_past_the_end; right; rewrite HT; simpl; lia. }
  assert (Hin : In M (seq 0 N)) by (apply in_seq; lia).
  destruct (iterate_samples_missing_target image_array target_array P
              M (seq 0 N) Hin Hmiss rng) as [e He].
  exists e.
  assert (Hdraw : draw_patches random_raw rng image_array target_array P
                  = Raise e).
  { unfold draw_patches; rewrite HI, He; reflexivity. }
  split; [exact Hdraw |].
  unfold create_patches; rewrite Hdraw; reflexivity.
Qed.

(** What [create_patches] returns for arrays are arrays: each stack holds
    as many elements as its shape says. *)
Lemma create_patches_well_formed (rng : Generator)
  (image_array target_array : ndarray) (patch_size : list nat)
  (image_patches target_patches : ndarray) :
  well_formed image_array -> well_formed target_array ->
  create_patches random_raw rng image_array target_array patch_size
  = Ok (image_patches, target_patches) ->
  well_formed image_patches /\ well_formed target_patches.
Proof.
  intros WI WT H; unfold create_patches in H.
  bind_inv H ds Hds. bind_inv H ip Hip. bind_inv H tp Htp.
  injection H as <- <-.
  unfold draw_patches in Hds.
  destruct (shape image_array) as [| n rest]; [discriminate |].
  bind_inv Hds it Hit; destruct it as [ds' rng']. injection Hds as <-.
  pose proof (iterate_samples_spec _ _ _ _ _ Hit) as Hall.
  assert (Hwf : Forall (fun d => well_formed (patch d) /\
                                 well_formed (target_patch d)) ds').
  { eapply Forall_impl; [| exact Hall].
    intros d (_ & sample & target_sample & Hi & Ht & Hp & Hq).
    apply item_well_formed in Hi; [| exact WI].
    apply item_well_formed in Ht; [| exact WT].
    destruct (crop sample (crop_coords d) patch_size) as [p | e] eqn:Ep;
      [| discriminate].
    destruct (crop target_sample (crop_coords d) patch_size) as [t | e] eqn:Et;
      [| discriminate].
    simpl in Hp, Hq; injection Hp as Hp; injection Hq as Hq.
    rewrite <- Hp, <- Hq; split.
    - exact (@astype_well_formed float32 p
               (@crop_well_formed sample p _ _ Hi Ep)).
    - exact (@astype_well_formed float32 t
               (@crop_well_formed target_sample t _ _ Ht Et)). }
  split.
  - apply (stack_well_formed (arrays := map patch ds')); [| exact Hip].
    apply Forall_map; eapply Forall_impl; [| exact Hwf]; simpl; tauto.
  - apply (stack_well_formed (arrays := map target_patch ds')); [| exact Htp].
    apply Forall_map; eapply Forall_impl; [| exact Hwf]; simpl; tauto.
Qed.

End SamplerProperties.

(** ** The dataset *)

Lemma item_valid (a : ndarray) (n : nat) (rest : list nat) (i : Z) :
  shape a = n :: rest -> (- Z.of_nat n <= i < Z.of_nat n)%Z ->
  exists sub, item a i = Ok sub /\ shape sub = rest.
Proof.
  intros Hs Hi; unfold item, normalize_index; rewrite Hs.
  destruct (Z.leb_spec 0 i); destruct (Z.ltb_spec i (Z.of_nat n));
    destruct (Z.leb_spec (- Z.of_nat n) i); destruct (Z.ltb_spec i 0);
    simpl; try lia; eexists; split; reflexivity.
Qed.

Lemma swap_last_two_cons (n : nat) (rest : list nat) :
  (2 <= length rest)%nat ->
  swap_last_two (n :: rest) = n :: swap_last_two rest.
Proof.
  destruct rest as [| a [| b rest']]; simpl; intros H; try lia; reflexivity.
Qed.




Section DatasetProperties.

Variable Generator : Type.
Variable default_rng : Z -> Generator.
Variable random_raw : Generator -> Z * Generator.
Variable sqrt : Q -> Q.


End DatasetProperties.

(** ** The code on concrete inputs *)

(** C4.  Where the code leaves the bounds.  The extent a coordinate is
    drawn against is [sample.shape[i]], counted from the first axis, while
    the slice is applied to the last axes.  A single-channel 4x4 image
    [(1, 4, 4)] with patch shape [(2, 2)] is refused by the generator
    ([1 - 2 < 0]) although both spatial axes hold the patch; on a
    three-channel 2x2 image the first coordinate is drawn from [0, 1]
    although only 0 lies within the bounds, and the draw 1 yields patches
    of shape [(3, 1, 2)]. *)
Theorem create_patches_misreads_leading_axes :
  (forall (Generator : Type) (random_raw : Generator -> Z * Generator)
          (rng : Generator),
      create_patches random_raw rng
        (full [1; 1; 4; 4]%nat 0) (full [1; 1; 4; 4]%nat 0) [2; 2]%nat
      = Raise ValueError) /\
  (exists ds,
      draw_patches replay_raw [1; 0; 1; 0; 1; 0]%Z
        (arange [1; 3; 2; 2]%nat) (arange [1; 3; 2; 2]%nat) [2; 2]%nat = Ok ds /\
      length ds = 3%nat /\
      Forall (fun d =>
                crop_coords d = [1; 0]%Z /\
                ~ within_bounds (spatial_extents 2 [3; 2; 2]%nat) [2; 2]%nat
                    (crop_coords d) /\
                shape (patch d) = [3; 1; 2]%nat) ds).
Proof.
  split.
  - intros Generator random_raw rng; reflexivity.
  - eexists; split; [vm_compute; reflexivity |].
    split; [reflexivity |].
    repeat constructor; simpl;
      intros H; inversion H as [| c sp cs l Hc Hl]; simpl in Hc; lia.
Qed.

(** C2 fails on the code: stacks that do not match are not refused.  A
    1x1 target image for a 2x2 source image gives a 1x1 target patch next
    to the 2x2 input patch; a second target image without a source image
    is never looked at. *)
Lemma create_patches_accepts_mismatched_stacks :
  create_patches replay_raw []
    (arange [1; 2; 2]%nat) (arange [1; 1; 1]%nat) [2; 2]%nat
  = Ok (mk_ndarray float32 [1; 2; 2]%nat [0; 1; 2; 3],
        mk_ndarray float32 [1; 1; 1]%nat [0]) /\
  create_patches replay_raw []
    (arange [1; 2; 2]%nat) (arange [2; 2; 2]%nat) [2; 2]%nat
  = Ok (mk_ndarray float32 [1; 2; 2]%nat [0; 1; 2; 3],
        mk_ndarray float32 [1; 2; 2]%nat [0; 1; 2; 3]).
Proof.
  split; vm_compute; reflexivity.
Qed.


(** ** The theorems at work *)

Lemma create_patches_count_witness :
  exists ds image_patches target_patches n,
    draw_patches replay_raw [1; 5; 7]%Z
      (arange [1; 2; 3]%nat) (arange [1; 2; 3]%nat) [2; 2]%nat = Ok ds /\
    create_patches replay_raw [1; 5; 7]%Z
      (arange [1; 2; 3]%nat) (arange [1; 2; 3]%nat) [2; 2]%nat
    = Ok (image_patches, target_patches) /\
    is_ceil_quotient (prod [2; 3]%nat) (prod [2; 2]%nat) n /\
    (forall s, (s < 1)%nat -> length (drawn_from s ds) = n) /\
    length ds = (1 * n)%nat /\
    shape image_patches = (1 * n)%nat :: [2; 2]%nat /\
    shape target_patches = (1 * n)%nat :: [2; 2]%nat.
Proof.
  apply (@create_patches_count (list Z) replay_raw [1; 5; 7]%Z
           (arange [1; 2; 3]%nat) (arange [1; 2; 3]%nat) 1 [2; 3]%nat [2; 2]%nat).
  - reflexivity.
  - reflexivity.
  - lia.
  - repeat constructor.
  - repeat constructor.
Defined.

Lemma create_patches_pairs_crops_witness :
  exists ds,
    draw_patches replay_raw [1; 5; 7]%Z
      (arange [1; 2; 3]%nat) (scale 2 (arange [1; 2; 3]%nat)) [2; 2]%nat = Ok ds /\
    stack (map patch ds)
    = Ok (mk_ndarray float32 [2; 2; 2]%nat [1; 2; 4; 5; 0; 1; 3; 4]) /\
    stack (map target_patch ds)
    = Ok (mk_ndarray float32 [2; 2; 2]%nat [2; 4; 8; 10; 0; 2; 6; 8]) /\
    Forall (fun d =>
              exists sample target_sample,
                item (arange [1; 2; 3]%nat) (Z.of_nat (sample_index d)) = Ok sample /\
                item (scale 2 (arange [1; 2; 3]%nat)) (Z.of_nat (sample_index d))
                = Ok target_sample /\
                cropped_from sample target_sample [2; 2]%nat d /\
                shape (patch d) = shape (target_patch d)) ds.
Proof.
  apply (@create_patches_pairs_crops (list Z) replay_raw [1; 5; 7]%Z
           (arange [1; 2; 3]%nat) (scale 2 (arange [1; 2; 3]%nat)) [2; 2]%nat).
  - reflexivity.
  - vm_compute; reflexivity.
Defined.


Lemma create_patches_fewer_targets_fails_witness :
  exists e,
    draw_patches replay_raw [1; 2]%Z
      (arange [2; 2; 2]%nat) (arange [1; 2; 2]%nat) [2; 2]%nat = Raise e /\
    create_patches replay_raw [1; 2]%Z
      (arange [2; 2; 2]%nat) (arange [1; 2; 2]%nat) [2; 2]%nat = Raise e.
Proof.
  apply (@create_patches_fewer_targets_fails (list Z) replay_raw [1; 2]%Z
           (arange [2; 2; 2]%nat) (arange [1; 2; 2]%nat) 2 1
           [2; 2]%nat [2; 2]%nat [2; 2]%nat).
  - reflexivity.
  - reflexivity.
  - lia.
Defined.


(** * Further properties of the pipeline *)

Unset Implicit Arguments.

(** ** Normalizer: inverses and centring

    The statements of this part are over exact arithmetic: [normalize]
    and [denormalize] compute in the rationals, and what the float64
    operations of numpy round away is not accounted for. *)

(** X1.  [normalize] undoes [denormalize]: with a nonzero std,
    normalizing a denormalized array gives back its values. *)
Theorem normalize_denormalize_roundtrip (y : ndarray) (m s : Q) :
  ~ s == 0 ->
  values_eq (normalize (denormalize y m s) m s) y.
Proof.
  intros Hs; split; [reflexivity |]; simpl.
  induction (data y) as [| x d IH]; simpl; constructor; [| exact IH].
  field; exact Hs.
Qed.

Lemma normalize_denormalize_roundtrip_witness :
  values_eq (normalize (denormalize (arange [2; 2]%nat) (7 # 3) (2 # 5))
               (7 # 3) (2 # 5))
            (arange [2; 2]%nat).
Proof.
  apply (normalize_denormalize_roundtrip (arange [2; 2]%nat) (7 # 3) (2 # 5)).
  intros H; discriminate H.
Defined.

Lemma sumQ_normalized (m s : Q) (d : list Q) :
  ~ s == 0 ->
  sumQ (map (fun x => (x - m) / s) d)
  == (sumQ d - inject_Z (Z.of_nat (length d)) * m) / s.
Proof.
  intros Hs; induction d as [| x d IH].
  - simpl; field; exact Hs.
  - cbn [map sumQ fold_right length]; fold (sumQ (map (fun x => (x - m) / s) d)).
    fold (sumQ d); rewrite IH, Nat2Z.inj_succ, <- Z.add_1_r, inject_Z_plus.
    field; exact Hs.
Qed.

Lemma count_nonzero (n : nat) : ~ inject_Z (Z.of_nat (S n)) == 0.
Proof.
  unfold Qeq; simpl; lia.
Qed.

(** X3.  Centring, over exact arithmetic.  Where subtraction, division
    and the mean are computed without rounding, an array with at least one
    element, normalized with its own mean (and any nonzero std), has mean
    zero.  (With the roundings of numpy the mean is only close to zero.) *)
Theorem normalize_with_own_mean_centres (a : ndarray) (s : Q) :
  data a <> [] -> ~ s == 0 ->
  mean (normalize a (mean a) s) == 0.
Proof.
  intros Hne Hs; unfold mean at 1; simpl.
  rewrite length_map, sumQ_normalized by exact Hs.
  unfold mean.
  destruct (data a) as [| x d]; [contradiction |].
  pose proof (count_nonzero (length d)) as Hn.
  change (length (x :: d)) with (S (length d)).
  field; split; assumption.
Qed.

Lemma normalize_with_own_mean_centres_witness :
  mean (normalize (arange [2; 3]%nat) (mean (arange [2; 3]%nat)) (3 # 2)) == 0.
Proof.
  apply (normalize_with_own_mean_centres (arange [2; 3]%nat) (3 # 2)).
  - discriminate.
  - intros H; discriminate H.
Defined.

(** ** Augmenter: pixels are rearranged, never changed *)

Lemma concat_chunks (n sz : nat) (d : list Q) :
  length d = (n * sz)%nat -> concat (chunks n sz d) = d.
Proof.
  revert d; induction n as [| n IH]; intros d Hd; simpl.
  - destruct d; [reflexivity | discriminate].
  - rewrite IH; [apply firstn_skipn |].
    rewrite length_skipn; simpl in Hd; lia.
Qed.

Lemma chunks_concat (sz : nat) (rows : list (list Q)) :
  uniform sz rows -> chunks (length rows) sz (concat rows) = rows.
Proof.
  induction 1 as [| row rows Hrow _ IH]; simpl; [reflexivity |].
  rewrite firstn_app, skipn_app, Hrow, Nat.sub_diag; simpl.
  rewrite firstn_all2, skipn_all2 by lia; simpl.
  rewrite app_nil_r, IH; reflexivity.
Qed.

Lemma Permutation_concat_map (g : list Q -> list Q) (blocks : list (list Q)) :
  Forall (fun b => Permutation (g b) b) blocks ->
  Permutation (concat (map g blocks)) (concat blocks).
Proof.
  induction 1 as [| b blocks Hb _ IH]; simpl; [constructor |].
  apply Permutation_app; assumption.
Qed.

Lemma Permutation_concat_rev (rows : list (list Q)) :
  Permutation (concat (rev rows)) (concat rows).
Proof.
  induction rows as [| row rows IH]; simpl; [constructor |].
  rewrite concat_app; simpl; rewrite app_nil_r.
  eapply Permutation_trans; [apply Permutation_app_comm |].
  apply Permutation_app_head; exact IH.
Qed.

Lemma Permutation_concat_reversed (rows : list (list Q)) :
  Permutation (concat (map (@rev Q) rows)) (concat rows).
Proof.
  apply Permutation_concat_map, Forall_forall; intros row _.
  apply Permutation_sym, Permutation_rev.
Qed.

Lemma Permutation_concat_split {A : Type} (f g : A -> list Q) (l : list A) :
  Permutation (concat (map (fun j => f j ++ g j) l))
              (concat (map f l) ++ concat (map g l)).
Proof.
  induction l as [| j l IH]; simpl; [constructor |].
  rewrite <- !app_assoc; apply Permutation_app_head.
  eapply Permutation_trans; [apply Permutation_app_head; exact IH |].
  apply Permutation_app_swap_app.
Qed.

Lemma cells_of_row (row : list Q) :
  concat (map (fun j => firstn 1 (skipn j row)) (seq 0 (length row))) = row.
Proof.
  induction row as [| x row IH]; [reflexivity |].
  cbn [length seq map concat]; rewrite <- seq_shift, map_map.
  simpl; f_equal; exact IH.
Qed.

Lemma concat_nils {A : Type} (l : list A) :
  concat (map (fun _ => @nil Q) l) = [].
Proof.
  induction l as [| j l IH]; simpl; [reflexivity | exact IH].
Qed.

Lemma Permutation_transpose (w : nat) (rows : list (list Q)) :
  uniform w rows ->
  Permutation (concat (transpose w rows)) (concat rows).
Proof.
  unfold transpose, column.
  induction 1 as [| row rows Hrow _ IH]; cbn [flat_map concat].
  - rewrite concat_nils; constructor.
  - eapply Permutation_trans; [apply Permutation_concat_split |].
    rewrite <- Hrow at 1; rewrite cells_of_row.
    apply Permutation_app_head; exact IH.
Qed.

Lemma rot90_matrix_permutation (k : Z) (w : nat) (rows : list (list Q)) :
  uniform w rows ->
  Permutation (concat (rot90_matrix k w rows)) (concat rows).
Proof.
  intros Hu; unfold rot90_matrix.
  destruct (k =? 0)%Z; [reflexivity |].
  destruct (k =? 2)%Z.
  - eapply Permutation_trans; [apply Permutation_concat_reversed |].
    apply Permutation_concat_rev.
  - destruct (k =? 1)%Z.
    + eapply Permutation_trans;
        [apply Permutation_transpose, reversed_rows; exact Hu |].
      apply Permutation_concat_reversed.
    + eapply Permutation_trans; [apply Permutation_concat_reversed |].
      apply Permutation_transpose; exact Hu.
Qed.

Lemma on_matrices_permutation (f : nat -> list (list Q) -> list (list Q)) :
  (forall w rows, uniform w rows ->
                  Permutation (concat (f w rows)) (concat rows)) ->
  forall sh d, length d = prod sh -> Permutation (on_matrices f sh d) d.
Proof.
  intros Hf sh; induction sh as [| n rest IH]; intros d Hd; [reflexivity |].
  destruct (chunks_blocks n (prod rest) d Hd) as [Hn Hblocks].
  assert (Hrec : Permutation (concat (map (on_matrices f rest)
                                        (chunks n (prod rest) d))) d).
  { rewrite <- (concat_chunks n (prod rest) d Hd) at 2.
    apply Permutation_concat_map.
    eapply Forall_impl; [| exact Hblocks].
    intros block Hblock; apply IH; exact Hblock. }
  simpl on_matrices; destruct rest as [| w [| x rest']]; try exact Hrec.
  simpl in Hd; rewrite Nat.mul_1_r in Hd.
  destruct (chunks_blocks n w d Hd) as [_ Hrows].
  rewrite <- (concat_chunks n w d Hd) at 2.
  apply Hf; exact Hrows.
Qed.

Lemma shape_ends_with (sh : list nat) (w : nat) (l : list nat) :
  rev sh = w :: l -> sh = removelast sh ++ [w].
Proof.
  intros E.
  destruct sh as [| n rest]; [discriminate |].
  rewrite (app_removelast_last 0%nat) at 1 by discriminate.
  f_equal; f_equal.
  rewrite <- (rev_involutive (n :: rest)), E; simpl.
  apply last_last.
Qed.

Lemma flip_rows (m : ndarray) (w : nat) (l : list nat) :
  well_formed m -> rev (shape m) = w :: l ->
  length (data m) = (prod (removelast (shape m)) * w)%nat.
Proof.
  unfold well_formed; intros Hm E.
  rewrite Hm, (shape_ends_with _ _ _ E) at 1.
  rewrite prod_app; simpl; lia.
Qed.

Lemma flip_permutation (m m' : ndarray) :
  well_formed m -> flip m = Ok m' -> Permutation (data m') (data m).
Proof.
  intros Hm H; unfold flip in H.
  destruct (rev (shape m)) as [| w l] eqn:E; [discriminate |].
  injection H as <-; cbn [data].
  pose proof (flip_rows m w l Hm E) as Hd.
  rewrite <- (concat_chunks _ _ _ Hd) at 2.
  apply Permutation_concat_reversed.
Qed.

Lemma flip_and_rotate_permutation (image image' : ndarray) (r fl : Z) :
  well_formed image -> _flip_and_rotate image r fl = Ok image' ->
  Permutation (data image') (data image) /\
  well_formed image' /\ dtype_of image' = dtype_of image.
Proof.
  intros Hw H.
  pose proof (@flip_and_rotate_well_formed image image' r fl Hw H) as Hw'.
  unfold _flip_and_rotate in H.
  destruct (rot90 image r) as [rotated | e] eqn:Er; [| discriminate].
  pose proof (@rot90_well_formed image rotated r Hw Er) as Hr.
  assert (Pr : Permutation (data rotated) (data image) /\
               dtype_of rotated = dtype_of image).
  { unfold rot90 in Er; destruct (ndim image <? 2)%nat; [discriminate |].
    injection Er as <-; cbn [data dtype_of]; split; [| reflexivity].
    apply on_matrices_permutation; [| exact Hw].
    intros w rows; apply rot90_matrix_permutation. }
  destruct Pr as [Pr Dr].
  cbn [bind] in H; destruct (fl =? 1)%Z.
  - destruct (flip rotated) as [flipped | e] eqn:Ef; [| discriminate].
    injection H as <-.
    split; [| split; [exact Hw' |]].
    + eapply Permutation_trans; [apply (flip_permutation rotated); assumption |].
      exact Pr.
    + unfold flip in Ef; destruct (rev (shape rotated)); [discriminate |].
      injection Ef as <-; exact Dr.
  - injection H as <-; auto.
Qed.

Section AugmenterValues.

Variable Generator : Type.
Variable default_rng : Z -> Generator.
Variable random_raw : Generator -> Z * Generator.

(** X4.  Augmentation rearranges, it does not alter: whenever
    [augment_batch] returns for two arrays, each returned array holds
    exactly the values of its input, each as often as before, keeps the
    number of elements its shape announces, and keeps its dtype. *)
Theorem augment_batch_permutes_pixels (patch target p t : ndarray)
  (seed : option Z) :
  well_formed patch -> well_formed target ->
  augment_batch default_rng random_raw patch target seed = Ok (p, t) ->
  Permutation (data p) (data patch) /\ well_formed p /\
  dtype_of p = dtype_of patch /\
  Permutation (data t) (data target) /\ well_formed t /\
  dtype_of t = dtype_of target.
Proof.
  intros Wp Wt H.
  destruct (augment_batch_state default_rng random_raw seed)
    as (r & fl & _ & _ & Heq).
  rewrite Heq in H.
  destruct (seed_accepted seed); [| discriminate].
  destruct (_flip_and_rotate patch r fl) as [p' | e] eqn:Ep; [| discriminate].
  destruct (_flip_and_rotate target r fl) as [t' | e] eqn:Et; [| discriminate].
  simpl in H; injection H as <- <-.
  destruct (flip_and_rotate_permutation _ _ _ _ Wp Ep) as (P1 & W1 & D1).
  destruct (flip_and_rotate_permutation _ _ _ _ Wt Et) as (P2 & W2 & D2).
  repeat split; assumption.
Qed.

End AugmenterValues.

Lemma augment_batch_permutes_pixels_witness :
  let patch := arange [2; 3]%nat in
  let target := scale 2 (arange [2; 3]%nat) in
  let p := mk_ndarray float32 [3; 2]%nat [0; 3; 1; 4; 2; 5] in
  let t := mk_ndarray float32 [3; 2]%nat [0; 6; 2; 8; 4; 10] in
  Permutation (data p) (data patch) /\ well_formed p /\
  dtype_of p = dtype_of patch /\
  Permutation (data t) (data target) /\ well_formed t /\
  dtype_of t = dtype_of target.
Proof.
  intros patch target p t.
  apply (augment_batch_permutes_pixels (list Z) replay_seeded replay_raw
           patch target p t (Some 7%Z)).
  - reflexivity.
  - reflexivity.
  - vm_compute; reflexivity.
Defined.

(** ** Augmenter: every state can be undone *)

Lemma on_matrices_id (f : nat -> list (list Q) -> list (list Q)) :
  (forall w rows, uniform w rows -> f w rows = rows) ->
  forall sh d, length d = prod sh -> on_matrices f sh d = d.
Proof.
  intros Hf sh; induction sh as [| n rest IH]; intros d Hd; [reflexivity |].
  destruct (@chunks_blocks n (prod rest) d Hd) as [Hn Hblocks].
  assert (Hrec : concat (map (on_matrices f rest) (chunks n (prod rest) d)) = d).
  { rewrite <- (concat_chunks n (prod rest) d Hd) at 2; f_equal.
    rewrite <- (map_id (chunks n (prod rest) d)) at 2.
    apply map_ext_in; intros block Hin.
    rewrite Forall_forall in Hblocks; apply IH, Hblocks, Hin. }
  simpl on_matrices; destruct rest as [| w [| x rest']]; try exact Hrec.
  simpl in Hd; rewrite Nat.mul_1_r in Hd.
  destruct (@chunks_blocks n w d Hd) as [_ Hrows].
  rewrite (Hf w _ Hrows); apply concat_chunks; exact Hd.
Qed.

Lemma on_matrices_generic (f : nat -> list (list Q) -> list (list Q))
  (n : nat) (rest : list nat) (d : list Q) :
  (2 <= length rest)%nat ->
  on_matrices f (n :: rest) d
  = concat (map (on_matrices f rest) (chunks n (prod rest) d)).
Proof.
  destruct rest as [| a [| b rest']]; simpl; intros H; try lia; reflexivity.
Qed.

(** Composition of two transformations of the last two axes; [sw] tells
    whether the first one exchanges the two axes. *)
Lemma on_matrices_compose (f g : nat -> list (list Q) -> list (list Q))
  (sw : bool) :
  (forall w rows, uniform w rows ->
                  uniform (if sw then length rows else w) (f w rows) /\
                  length (f w rows) = (if sw then w else length rows)) ->
  forall sh d,
    (2 <= length sh)%nat -> length d = prod sh ->
    on_matrices g (if sw then swap_last_two sh else sh) (on_matrices f sh d)
    = on_matrices (fun w rows => g (if sw then length rows else w) (f w rows))
        sh d.
Proof.
  intros Hf sh; induction sh as [| n rest IH]; intros d Hrank Hd;
    [simpl in Hrank; lia |].
  destruct rest as [| w rest]; [simpl in Hrank; lia |].
  destruct rest as [| x rest].
  - (* a single matrix *)
    simpl in Hd; rewrite Nat.mul_1_r in Hd.
    destruct (@chunks_blocks n w d Hd) as [Hn Hrows].
    destruct (Hf w _ Hrows) as [Hu Hl]; rewrite Hn in Hu.
    cbn [on_matrices]; rewrite Hn.
    destruct sw; cbn [swap_last_two on_matrices].
    + rewrite <- Hl at 1; rewrite (chunks_concat n _ Hu); reflexivity.
    + rewrite <- Hn at 1; rewrite <- Hl.
      rewrite (chunks_concat w _ Hu); reflexivity.
  - (* a stack of sub-arrays *)
    set (rest' := w :: x :: rest) in *.
    assert (Hr : (2 <= length rest')%nat) by (simpl; lia).
    destruct (@chunks_blocks n (prod rest') d Hd) as [Hn Hblocks].
    assert (Hflen : forall block, length block = prod rest' ->
                                  length (on_matrices f rest' block) = prod rest').
    { intros block Hb; apply on_matrices_length; [| exact Hb].
      intros w0 rows Hu; destruct (Hf w0 rows Hu) as [Hu' Hl'].
      rewrite (@concat_blocks _ _ Hu'), Hl'; destruct sw; lia. }
    rewrite (on_matrices_generic f n rest' d Hr).
    rewrite (on_matrices_generic _ n rest' d Hr).
    assert (Hshape : (if sw then swap_last_two (n :: rest') else n :: rest')
                     = n :: (if sw then swap_last_two rest' else rest')).
    { destruct sw; [apply swap_last_two_cons; exact Hr | reflexivity]. }
    rewrite Hshape, on_matrices_generic.
    2:{ destruct sw; [rewrite swap_last_two_length |]; exact Hr. }
    assert (Hp : prod (if sw then swap_last_two rest' else rest') = prod rest').
    { destruct sw; [apply prod_swap_last_two | reflexivity]. }
    rewrite Hp.
    assert (Hu : uniform (prod rest')
                   (map (on_matrices f rest') (chunks n (prod rest') d))).
    { apply Forall_map; eapply Forall_impl; [| exact Hblocks].
      intros block Hb; apply Hflen; exact Hb. }
    pose proof (chunks_concat _ _ Hu) as Hc.
    rewrite length_map, Hn in Hc; rewrite Hc, map_map; f_equal.
    apply map_ext_in; intros block Hin.
    rewrite Forall_forall in Hblocks.
    apply IH; [exact Hr | apply Hblocks, Hin].
Qed.

Lemma chunks_app (a b sz : nat) (d : list Q) :
  chunks (a + b) sz d
  = chunks a sz (firstn (a * sz) d) ++ chunks b sz (skipn (a * sz) d).
Proof.
  revert d; induction a as [| a IH]; intros d; [reflexivity |].
  cbn [chunks Nat.add Nat.mul app]; rewrite IH.
  rewrite firstn_firstn, Nat.min_l by lia.
  rewrite firstn_skipn_comm, skipn_skipn.
  rewrite (Nat.add_comm (a * sz) sz); reflexivity.
Qed.

Lemma chunks_nested (n m w : nat) (d : list Q) :
  chunks (n * m) w d = concat (map (chunks m w) (chunks n (m * w) d)).
Proof.
  revert d; induction n as [| n IH]; intros d; [reflexivity |].
  cbn [Nat.mul chunks map concat]; rewrite chunks_app, IH; reflexivity.
Qed.

Lemma concat_nested {A : Type} (h : A -> list (list Q)) (l : list A) :
  concat (concat (map h l)) = concat (map (fun x => concat (h x)) l).
Proof.
  induction l as [| x l IH]; simpl; [reflexivity |].
  rewrite concat_app, IH; reflexivity.
Qed.

(** [np.flip(m, axis=-1)] as a transformation of the last two axes. *)
Lemma flip_data_on_matrices (sh : list nat) :
  forall d, (2 <= length sh)%nat ->
    concat (map (@rev Q) (chunks (prod (removelast sh)) (last sh 0%nat) d))
    = on_matrices (fun _ rows => map (@rev Q) rows) sh d.
Proof.
  induction sh as [| n rest IH]; intros d Hrank; [simpl in Hrank; lia |].
  destruct rest as [| w rest]; [simpl in Hrank; lia |].
  destruct rest as [| x rest].
  - cbn [removelast last prod fold_right on_matrices].
    rewrite Nat.mul_1_r; reflexivity.
  - set (rest' := w :: x :: rest) in *.
    assert (Hr : (2 <= length rest')%nat) by (simpl; lia).
    rewrite (on_matrices_generic _ n rest' d Hr).
    change (removelast (n :: rest')) with (n :: removelast rest').
    change (last (n :: rest') 0%nat) with (last rest' 0%nat).
    change (prod (n :: removelast rest')) with (n * prod (removelast rest'))%nat.
    assert (Hp : prod rest' = (prod (removelast rest') * last rest' 0)%nat).
    { rewrite (app_removelast_last 0%nat (l := rest')) at 1 by discriminate.
      rewrite prod_app; simpl; lia. }
    rewrite chunks_nested, <- Hp, concat_map, map_map, concat_nested.
    f_equal; apply map_ext; intros block; apply IH; exact Hr.
Qed.

Lemma rot90_matrix_dims (k : Z) (w : nat) (rows : list (list Q)) :
  (0 <= k < 4)%Z -> uniform w rows ->
  uniform (if Z.odd k then length rows else w) (rot90_matrix k w rows) /\
  length (rot90_matrix k w rows) = (if Z.odd k then w else length rows).
Proof.
  intros Hk Hu; unfold rot90_matrix.
  destruct (Z.eqb_spec k 0) as [-> | H0]; [split; [exact Hu | reflexivity] |].
  destruct (Z.eqb_spec k 2) as [-> | H2].
  - split; [apply reversed_rows, Forall_rev; exact Hu |].
    rewrite length_map, length_rev; reflexivity.
  - destruct (Z.eqb_spec k 1) as [-> | H1].
    + destruct (transpose_blocks (reversed_rows Hu)) as [Hl Hc].
      rewrite length_map in Hc; split; assumption.
    + assert (k = 3%Z) as -> by lia.
      destruct (transpose_blocks Hu) as [Hl Hc].
      split; [apply reversed_rows; exact Hc |].
      rewrite length_map; exact Hl.
Qed.

Lemma flip_and_rotate_as_matrices (image : ndarray) (r fl : Z) :
  well_formed image -> (2 <= ndim image)%nat ->
  _flip_and_rotate image r fl
  = Ok (mk_ndarray (dtype_of image)
          (if Z.odd (r mod 4) then swap_last_two (shape image) else shape image)
          (on_matrices (flip_and_rotate_matrix (r mod 4) (fl =? 1)%Z)
             (shape image) (data image))).
Proof.
  intros Hw Hrank; unfold _flip_and_rotate, rot90.
  destruct (Nat.ltb_spec (ndim image) 2) as [H | _]; [lia |].
  cbn [bind]; unfold flip_and_rotate_matrix.
  destruct (fl =? 1)%Z; cbn [bind].
  2:{ reflexivity. }
  set (k := (r mod 4)%Z).
  set (sh' := if Z.odd k then swap_last_two (shape image) else shape image).
  assert (Hlen : length sh' = length (shape image)).
  { unfold sh'; destruct (Z.odd k); [apply swap_last_two_length | reflexivity]. }
  unfold flip; cbn [shape data dtype_of].
  destruct (rev sh') as [| w l] eqn:E.
  { apply (f_equal (@length nat)) in E; rewrite length_rev, Hlen in E.
    unfold ndim in Hrank; simpl in E; lia. }
  cbn [bind]; f_equal; f_equal.
  assert (Hlast : last sh' 0%nat = w).
  { rewrite (shape_ends_with _ _ _ E); apply last_last. }
  rewrite <- Hlast, flip_data_on_matrices by (rewrite Hlen; exact Hrank).
  unfold sh'.
  apply (on_matrices_compose (rot90_matrix k)
           (fun _ rows => map (@rev Q) rows) (Z.odd k));
    [| exact Hrank | exact Hw].
  intros w0 rows Hu; apply rot90_matrix_dims; [| exact Hu].
  apply Z.mod_pos_bound; lia.
Qed.

Lemma column_heads {A : Type} (a : A -> Q) (c : A -> list Q) (l : list A) :
  column 0 (map (fun j => a j :: c j) l) = map a l.
Proof.
  unfold column; induction l as [| j l IH]; simpl; [reflexivity |].
  f_equal; exact IH.
Qed.

Lemma column_tails {A : Type} (a : A -> Q) (c : A -> list Q) (l : list A)
  (i : nat) :
  column (S i) (map (fun j => a j :: c j) l) = column i (map c l).
Proof.
  unfold column; induction l as [| j l IH]; simpl; [reflexivity |].
  f_equal; exact IH.
Qed.

Lemma cell_of_row (row : list Q) (j : nat) :
  (j < length row)%nat -> firstn 1 (skipn j row) = [nth j row 0].
Proof.
  revert j; induction row as [| x row IH]; intros j Hj; [simpl in Hj; lia |].
  destruct j as [| j]; [reflexivity |].
  simpl; apply IH; simpl in Hj; lia.
Qed.

Lemma row_of_cells (row : list Q) :
  map (fun j => nth j row 0) (seq 0 (length row)) = row.
Proof.
  induction row as [| x row IH]; [reflexivity |].
  cbn [length seq map]; rewrite <- seq_shift, map_map; simpl.
  f_equal; exact IH.
Qed.

Lemma transpose_cons (w : nat) (row : list Q) (rows : list (list Q)) :
  length row = w ->
  transpose w (row :: rows)
  = map (fun j => nth j row 0 :: column j rows) (seq 0 w).
Proof.
  intros Hrow; unfold transpose; apply map_ext_in; intros j Hj.
  apply in_seq in Hj; unfold column; cbn [flat_map].
  rewrite cell_of_row by lia; reflexivity.
Qed.

Lemma transpose_involutive (w : nat) (rows : list (list Q)) :
  uniform w rows -> transpose (length rows) (transpose w rows) = rows.
Proof.
  induction 1 as [| row rows Hrow Hu IH]; [reflexivity |].
  rewrite (transpose_cons w row rows Hrow).
  unfold transpose at 1; cbn [length seq map].
  rewrite column_heads, <- seq_shift, map_map.
  rewrite <- Hrow at 1; rewrite row_of_cells; f_equal.
  rewrite <- IH at 2; unfold transpose at 2.
  apply map_ext; intros i; apply column_tails.
Qed.

Lemma reversed_twice (rows : list (list Q)) :
  map (@rev Q) (map (@rev Q) rows) = rows.
Proof.
  rewrite map_map; rewrite <- (map_id rows) at 2.
  apply map_ext; intros row; apply rev_involutive.
Qed.

(** The state that undoes [(k, flip)]: a flipped state undoes itself, a
    plain rotation is undone by the opposite rotation. *)
Lemma flip_and_rotate_matrix_undo (k : Z) (fl : bool) (w : nat)
  (rows : list (list Q)) :
  (0 <= k < 4)%Z -> uniform w rows ->
  flip_and_rotate_matrix (if fl then k else (4 - k) mod 4)%Z fl
    (if Z.odd k then length rows else w)
    (flip_and_rotate_matrix k fl w rows)
  = rows.
Proof.
  intros Hk Hu.
  pose proof (transpose_involutive w rows Hu) as T.
  pose proof (transpose_involutive w _ (reversed_rows Hu)) as T'.
  rewrite length_map in T'.
  assert (R0 : forall c m, rot90_matrix 0 c m = m) by reflexivity.
  assert (R1 : forall c m, rot90_matrix 1 c m = transpose c (map (@rev Q) m))
    by reflexivity.
  assert (R2 : forall c m, rot90_matrix 2 c m = map (@rev Q) (rev m))
    by reflexivity.
  assert (R3 : forall c m, rot90_matrix 3 c m = map (@rev Q) (transpose c m))
    by reflexivity.
  assert (Hcases : k = 0%Z \/ k = 1%Z \/ k = 2%Z \/ k = 3%Z) by lia.
  unfold flip_and_rotate_matrix.
  destruct Hcases as [-> | [-> | [-> | ->]]]; destruct fl;
    cbn [Z.odd];
    try change ((4 - 0) mod 4)%Z with 0%Z;
    try change ((4 - 1) mod 4)%Z with 3%Z;
    try change ((4 - 2) mod 4)%Z with 2%Z;
    try change ((4 - 3) mod 4)%Z with 1%Z;
    rewrite ?R0, ?R1, ?R2, ?R3.
  - apply reversed_twice.
  - reflexivity.
  - rewrite reversed_twice, T'; apply reversed_twice.
  - rewrite T'; apply reversed_twice.
  - rewrite !reversed_twice; apply rev_involutive.
  - rewrite <- map_rev, reversed_twice; apply rev_involutive.
  - rewrite !reversed_twice; exact T.
  - rewrite reversed_twice; exact T.
Qed.

Lemma swap_last_two_involutive (sh : list nat) :
  swap_last_two (swap_last_two sh) = sh.
Proof.
  induction sh as [| n rest IH]; [reflexivity |].
  destruct rest as [| w [| x rest']]; try reflexivity.
  rewrite swap_last_two_cons by (simpl; lia).
  rewrite swap_last_two_cons by (rewrite swap_last_two_length; simpl; lia).
  rewrite IH; reflexivity.
Qed.

(** X5.  The neutral state.  With a rotation count that is a multiple of 4
    and a flip flag other than 1, [_flip_and_rotate] returns an array of
    at least two dimensions exactly as it was. *)
Theorem flip_and_rotate_neutral_state (image : ndarray) (r fl : Z) :
  well_formed image -> (2 <= ndim image)%nat ->
  (r mod 4 = 0)%Z -> fl <> 1%Z ->
  _flip_and_rotate image r fl = Ok image.
Proof.
  intros Hw Hrank Hr Hfl.
  rewrite (flip_and_rotate_as_matrices image r fl Hw Hrank), Hr.
  destruct (Z.eqb_spec fl 1) as [E | _]; [contradiction |].
  cbn [Z.odd]; rewrite on_matrices_id; [destruct image; reflexivity | | exact Hw].
  intros w rows _; reflexivity.
Qed.

Lemma flip_and_rotate_neutral_state_witness :
  _flip_and_rotate (arange [2; 2; 3]%nat) 8 0 = Ok (arange [2; 2; 3]%nat).
Proof.
  apply (flip_and_rotate_neutral_state (arange [2; 2; 3]%nat) 8 0).
  - reflexivity.
  - unfold ndim; simpl; lia.
  - reflexivity.
  - discriminate.
Defined.

(** X6.  Every state can be undone.  For each rotation count and flip
    flag there is a state that restores the original array from the
    augmented one: a flipped state undoes itself, a rotation is undone by
    the opposite rotation.  Augmentation loses no information. *)
Theorem flip_and_rotate_can_be_undone (r fl : Z) :
  exists r' fl' : Z,
    (0 <= r' < 4)%Z /\ (0 <= fl' < 2)%Z /\
    forall image image' : ndarray,
      well_formed image ->
      _flip_and_rotate image r fl = Ok image' ->
      _flip_and_rotate image' r' fl' = Ok image.
Proof.
  set (k := (r mod 4)%Z).
  assert (Hk : (0 <= k < 4)%Z) by (apply Z.mod_pos_bound; lia).
  set (b := (fl =? 1)%Z).
  exists (if b then k else (4 - k) mod 4)%Z, (if b then 1 else 0)%Z.
  split; [destruct b; [exact Hk | apply Z.mod_pos_bound; lia] |].
  split; [destruct b; lia |].
  intros image image' Hw H.
  assert (Hrank : (2 <= ndim image)%nat).
  { pose proof (flip_and_rotate_is_ok image r fl) as Hok.
    rewrite H in Hok; symmetry in Hok; apply Nat.leb_le in Hok; exact Hok. }
  pose proof (@flip_and_rotate_well_formed image image' r fl Hw H) as Hw'.
  rewrite (flip_and_rotate_as_matrices image r fl Hw Hrank) in H.
  fold k in H; fold b in H; injection H as <-.
  set (sh' := if Z.odd k then swap_last_two (shape image) else shape image) in *.
  assert (Hrank' : (2 <= length sh')%nat).
  { unfold sh'; destruct (Z.odd k); [rewrite swap_last_two_length |];
      exact Hrank. }
  rewrite flip_and_rotate_as_matrices; [| exact Hw' | exact Hrank'].
  cbn [dtype_of shape data].
  assert (Hmod : ((if b then k else (4 - k) mod 4) mod 4
                  = if b then k else (4 - k) mod 4)%Z).
  { apply Z.mod_small; destruct b; [exact Hk | apply Z.mod_pos_bound; lia]. }
  assert (Hodd : Z.odd (if b then k else (4 - k) mod 4) = Z.odd k).
  { assert (Hcases : k = 0%Z \/ k = 1%Z \/ k = 2%Z \/ k = 3%Z) by lia.
    destruct Hcases as [-> | [-> | [-> | ->]]]; destruct b; reflexivity. }
  assert (Hflag : ((if b then 1 else 0) =? 1)%Z = b) by (destruct b; reflexivity).
  rewrite Hmod, Hodd, Hflag.
  assert (Hshape : (if Z.odd k then swap_last_two sh' else sh') = shape image).
  { unfold sh'; destruct (Z.odd k);
      [apply swap_last_two_involutive | reflexivity]. }
  rewrite Hshape.
  unfold sh'.
  rewrite (on_matrices_compose (flip_and_rotate_matrix k b)
             (flip_and_rotate_matrix (if b then k else (4 - k) mod 4)%Z b)
             (Z.odd k)); [| | exact Hrank | exact Hw].
  - rewrite on_matrices_id; [destruct image; reflexivity | | exact Hw].
    intros w rows Hu; apply flip_and_rotate_matrix_undo; assumption.
  - intros w rows Hu; unfold flip_and_rotate_matrix.
    destruct (rot90_matrix_dims k w rows Hk Hu) as [Hu' Hl'].
    destruct b; [| split; assumption].
    split; [apply reversed_rows; exact Hu' | rewrite length_map; exact Hl'].
Qed.

(** ** The cast to float32

    What [astype(np.float32)] does to a value: the result is a float32
    value, within half the spacing of the float32 values around it, and
    integers of up to 24 bits are kept as they are. *)

Lemma pow2_pos (e : Z) : 0 < pow2 e.
Proof. apply Qpower_0_lt; reflexivity. Qed.

Lemma pow2_add (a b : Z) : pow2 (a + b) == pow2 a * pow2 b.
Proof. apply Qpower_plus; intros H; discriminate H. Qed.

Lemma pow2_nonneg (a : Z) : (0 <= a)%Z -> pow2 a == inject_Z (2 ^ a).
Proof. intros H; unfold pow2; rewrite Zpower_Qpower by exact H; reflexivity. Qed.

Lemma round_half_even_error (y : Q) :
  Qabs (inject_Z (round_half_even y) - y) <= 1 # 2.
Proof.
  destruct y as [n d]; unfold round_half_even; cbn [Qnum Qden].
  pose proof (Z.div_mod n (Zpos d) ltac:(lia)) as Hdiv.
  pose proof (Z.mod_pos_bound n (Zpos d) ltac:(lia)) as Hmod.
  set (q := (n / Zpos d)%Z) in *; set (r := (n mod Zpos d)%Z) in *.
  assert (Hcases : forall k : Z,
             (2 * Z.abs (k * Zpos d - n) <= Zpos d)%Z ->
             Qabs (inject_Z k - (n # d)) <= 1 # 2).
  { intros k Hk; apply Qabs_Qle_condition; split;
      unfold Qle, Qminus, Qplus, Qopp, inject_Z; cbn [Qnum Qden];
      rewrite ?Pos.mul_1_l; lia. }
  destruct (Z.ltb_spec (2 * r) (Zpos d)); [apply Hcases; lia |].
  destruct (Z.ltb_spec (Zpos d) (2 * r)); [apply Hcases; lia |].
  destruct (Z.even q); apply Hcases; lia.
Qed.

Lemma round_half_even_integer (y : Q) (k : Z) :
  y == inject_Z k -> round_half_even y = k.
Proof.
  destruct y as [n d]; unfold Qeq, inject_Z, round_half_even; cbn [Qnum Qden].
  intros H; rewrite Z.mul_1_r in H; subst n.
  rewrite Z.div_mul, Z.mod_mul by lia.
  destruct (Z.ltb_spec (2 * 0) (Zpos d)); [reflexivity | lia].
Qed.

Lemma Qabs_make (n : Z) (d : positive) :
  Qabs (n # d) == inject_Z (Z.abs n) / inject_Z (Zpos d).
Proof.
  unfold Qabs; rewrite Qmake_Qdiv; reflexivity.
Qed.

Lemma binade_le (x : Q) : ~ x == 0 -> pow2 (binade x) <= Qabs x.
Proof.
  intros Hx; unfold binade.
  set (e := (Z.log2 (Z.abs (Qnum x)) - Z.log2 (Zpos (Qden x)))%Z).
  destruct (Qle_bool (pow2 e) (Qabs x)) eqn:E; [apply Qle_bool_iff; exact E |].
  destruct x as [n d]; cbn [Qnum Qden] in e.
  assert (Hn : (0 < Z.abs n)%Z).
  { unfold Qeq in Hx; simpl in Hx; lia. }
  pose proof (Z.log2_spec (Z.abs n) Hn) as [Ha _].
  pose proof (Z.log2_spec (Zpos d) ltac:(lia)) as [_ Hb].
  pose proof (Z.log2_nonneg (Z.abs n)) as Ha0.
  pose proof (Z.log2_nonneg (Zpos d)) as Hb0.
  set (a := Z.log2 (Z.abs n)) in *; set (b := Z.log2 (Zpos d)) in *.
  rewrite Qabs_make.
  apply Qle_shift_div_l; [reflexivity |].
  apply Qle_trans with (pow2 (e - 1) * pow2 (b + 1)).
  - apply Qmult_le_l; [apply pow2_pos |].
    rewrite pow2_nonneg by lia.
    rewrite <- Zle_Qle; replace (b + 1)%Z with (Z.succ b) by lia; lia.
  - rewrite <- pow2_add.
    replace (e - 1 + (b + 1))%Z with a by (unfold e; lia).
    rewrite pow2_nonneg by lia; rewrite <- Zle_Qle; exact Ha.
Qed.

(** Rounding moves a value by at most half the spacing at its
    exponent. *)
Lemma round_binary_half_spacing (p emin : Z) (x : Q) :
  Qabs (round_binary p emin x - x) <= pow2 (Z.max (binade x) emin - p).
Proof.
  unfold round_binary.
  destruct (Qeq_bool x 0) eqn:E.
  - apply Qeq_bool_iff in E.
    setoid_replace (0 - x) with 0 by (rewrite E; ring).
    apply Qlt_le_weak, pow2_pos.
  - set (e := Z.max (binade x) emin).
    set (q := pow2 (e - p + 1)).
    pose proof (pow2_pos (e - p + 1)) as Hq; fold q in Hq.
    rewrite Qred_correct.
    setoid_replace (inject_Z (round_half_even (x / q)) * q - x)
      with ((inject_Z (round_half_even (x / q)) - x / q) * q)
      by (field; intros H; rewrite H in Hq; discriminate Hq).
    rewrite Qabs_Qmult, (Qabs_pos q) by (apply Qlt_le_weak; exact Hq).
    apply Qle_trans with ((1 # 2) * q).
    + apply Qmult_le_compat_r; [apply round_half_even_error |].
      apply Qlt_le_weak; exact Hq.
    + unfold q; replace (e - p + 1)%Z with (1 + (e - p))%Z by lia.
      rewrite pow2_add.
      setoid_replace ((1 # 2) * (pow2 1 * pow2 (e - p))) with (pow2 (e - p))
        by (unfold pow2 at 1; simpl; field).
      apply Qle_refl.
Qed.


Lemma binade_lt (x : Q) : ~ x == 0 -> Qabs x < pow2 (binade x + 1).
Proof.
  intros Hx; unfold binade.
  set (e := (Z.log2 (Z.abs (Qnum x)) - Z.log2 (Zpos (Qden x)))%Z).
  destruct (Qle_bool (pow2 e) (Qabs x)) eqn:E.
  - destruct x as [n d]; cbn [Qnum Qden] in e.
    assert (Hn : (0 < Z.abs n)%Z).
    { unfold Qeq in Hx; simpl in Hx; lia. }
    pose proof (Z.log2_spec (Z.abs n) Hn) as [_ Ha].
    pose proof (Z.log2_spec (Zpos d) ltac:(lia)) as [Hb _].
    pose proof (Z.log2_nonneg (Z.abs n)) as Ha0.
    pose proof (Z.log2_nonneg (Zpos d)) as Hb0.
    set (a := Z.log2 (Z.abs n)) in *; set (b := Z.log2 (Zpos d)) in *.
    rewrite Qabs_make.
    apply Qlt_shift_div_r; [reflexivity |].
    apply Qlt_le_trans with (pow2 (e + 1) * pow2 b).
    + rewrite <- pow2_add.
      replace (e + 1 + b)%Z with (Z.succ a) by (unfold e; lia).
      rewrite pow2_nonneg by lia; rewrite <- Zlt_Qlt; exact Ha.
    + apply Qmult_le_l; [apply pow2_pos |].
      rewrite pow2_nonneg by lia; rewrite <- Zle_Qle; exact Hb.
  - replace (e - 1 + 1)%Z with e by lia.
    apply Qnot_le_lt; intros H; apply Qle_bool_iff in H; congruence.
Qed.

Lemma binade_integer (n : Z) :
  n <> 0%Z -> binade (inject_Z n) = Z.log2 (Z.abs n).
Proof.
  intros Hn; unfold binade; cbn [inject_Z Qnum Qden].
  change (Z.log2 1) with 0%Z; rewrite Z.sub_0_r.
  pose proof (Z.log2_spec (Z.abs n) ltac:(lia)) as [Ha _].
  pose proof (Z.log2_nonneg (Z.abs n)) as Ha0.
  assert (E : Qle_bool (pow2 (Z.log2 (Z.abs n))) (Qabs (n # 1)) = true).
  { apply Qle_bool_iff; rewrite pow2_nonneg by lia.
    unfold Qabs; change (Z.abs n # 1) with (inject_Z (Z.abs n)).
    rewrite <- Zle_Qle; exact Ha. }
  change (n # 1) with (inject_Z n) in E; rewrite E; reflexivity.
Qed.

Lemma Qred_integer (q : Q) (n : Z) : q == inject_Z n -> Qred q = inject_Z n.
Proof.
  intros H; rewrite (Qred_complete _ _ H).
  unfold Qred, inject_Z.
  pose proof (Z.ggcd_correct_divisors n 1) as Hd.
  pose proof (Z.ggcd_gcd n 1) as Hg.
  destruct (Z.ggcd n 1) as [g [aa bb]]; cbn [fst snd] in *.
  rewrite Z.gcd_1_r in Hg; subst g.
  destruct Hd as [Ha Hb]; rewrite Z.mul_1_l in Ha, Hb; subst; reflexivity.
Qed.

Lemma round_binary_integer (p emin n : Z) :
  (1 <= p)%Z -> (emin <= 0)%Z -> (Z.abs n <= 2 ^ p)%Z ->
  round_binary p emin (inject_Z n) = inject_Z n.
Proof.
  intros Hp Hemin Hn; unfold round_binary.
  destruct (Z.eq_dec n 0) as [-> | Hn0]; [reflexivity |].
  destruct (Qeq_bool (inject_Z n) 0) eqn:E.
  { apply Qeq_bool_iff in E; unfold Qeq in E; simpl in E; lia. }
  rewrite (binade_integer n Hn0).
  pose proof (Z.log2_spec (Z.abs n) ltac:(lia)) as [Ha _].
  pose proof (Z.log2_nonneg (Z.abs n)) as Ha0.
  assert (Hap : (Z.log2 (Z.abs n) <= p)%Z).
  { rewrite <- (Z.log2_pow2 p) by lia; apply Z.log2_le_mono; exact Hn. }
  set (a := Z.log2 (Z.abs n)) in *.
  rewrite Z.max_l by lia.
  pose proof (pow2_pos (a - p + 1)) as Hq.
  assert (Hk : exists k : Z, inject_Z n / pow2 (a - p + 1) == inject_Z k).
  { destruct (Z.eq_dec a p) as [Eap | Nap].
    - exists (Z.sgn n * 2 ^ (p - 1))%Z.
      replace (a - p + 1)%Z with 1%Z by lia.
      assert (Habs : Z.abs n = (2 ^ p)%Z) by (rewrite Eap in Ha; lia).
      assert (En : n = (Z.sgn n * 2 ^ (p - 1) * 2)%Z).
      { assert (Hpow : (2 ^ p = 2 * 2 ^ (p - 1))%Z).
        { rewrite <- Z.pow_succ_r by lia; f_equal; lia. }
        destruct n as [| n' | n']; cbn [Z.sgn Z.abs] in *; lia. }
      rewrite En at 1; rewrite inject_Z_mult.
      unfold pow2; simpl; field.
    - exists (n * 2 ^ (p - 1 - a))%Z.
      rewrite inject_Z_mult, <- pow2_nonneg by lia.
      replace (a - p + 1)%Z with (- (p - 1 - a))%Z by lia.
      unfold pow2; rewrite Qpower_opp; field.
      apply Qpower_not_0; intros H; discriminate H. }
  destruct Hk as [k Hk].
  apply Qred_integer.
  rewrite (round_half_even_integer _ k Hk), <- Hk; field.
  intros H; rewrite H in Hq; discriminate Hq.
Qed.

Lemma pow2_le (a b : Z) : (a <= b)%Z -> pow2 a <= pow2 b.
Proof.
  intros H; apply Qpower_le_compat_l; [exact H | discriminate].
Qed.

Lemma round_binary_representable (p emin : Z) (x : Q) :
  (0 <= p)%Z ->
  exists k : Z,
    (Z.abs k <= 2 ^ p)%Z /\
    round_binary p emin x
    == inject_Z k * pow2 (Z.max (binade x) emin - p + 1).
Proof.
  intros Hp; unfold round_binary.
  destruct (Qeq_bool x 0) eqn:E.
  - exists 0%Z; split; [simpl; pose proof (Z.pow_nonneg 2 p); lia | ring].
  - assert (Hx : ~ x == 0).
    { intros H; apply Qeq_bool_iff in H; congruence. }
    set (e := Z.max (binade x) emin).
    set (q := pow2 (e - p + 1)).
    pose proof (pow2_pos (e - p + 1)) as Hq; fold q in Hq.
    assert (Hq0 : ~ q == 0) by (intros H; rewrite H in Hq; discriminate Hq).
    exists (round_half_even (x / q)); split; [| apply Qred_correct].
    assert (Hy : Qabs (x / q) < inject_Z (2 ^ p)).
    { unfold Qdiv; rewrite Qabs_Qmult, Qabs_Qinv.
      rewrite (Qabs_pos q) by (apply Qlt_le_weak; exact Hq).
      apply Qlt_shift_div_r; [exact Hq |].
      apply Qlt_le_trans with (pow2 (binade x + 1));
        [apply binade_lt; exact Hx |].
      rewrite <- pow2_nonneg by exact Hp; unfold q; rewrite <- pow2_add.
      apply pow2_le; unfold e; lia. }
    pose proof (round_half_even_error (x / q)) as Herr.
    set (k := round_half_even (x / q)) in *.
    assert (Hk : Qabs (inject_Z k) < inject_Z (2 ^ p) + (1 # 2)).
    { setoid_replace (inject_Z k) with ((inject_Z k - x / q) + x / q) by ring.
      eapply Qle_lt_trans; [apply Qabs_triangle |].
      rewrite Qplus_comm.
      apply Qplus_lt_le_compat; assumption. }
    unfold Qabs, inject_Z, Qlt, Qplus in Hk; cbn [Qnum Qden] in Hk; lia.
Qed.

(** X22.  The cast to float32 rounds to nearest.  [binade] is the exponent
    of the value; the cast gives a float32 value, a significand of at most
    24 bits times the spacing at that exponent (the subnormal spacing
    [2^-149] below [2^-126]), and it lies within half that spacing of the
    value cast. *)
Theorem cast_float32_rounds_to_nearest (x : Q) :
  (~ x == 0 -> pow2 (binade x) <= Qabs x /\ Qabs x < pow2 (binade x + 1)) /\
  (exists k : Z,
      (Z.abs k <= 2 ^ 24)%Z /\
      cast float32 x == inject_Z k * pow2 (Z.max (binade x) (-126) - 23)) /\
  Qabs (cast float32 x - x) <= pow2 (Z.max (binade x) (-126) - 24).
Proof.
  split; [| split].
  - intros Hx; split; [apply binade_le | apply binade_lt]; exact Hx.
  - destruct (round_binary_representable 24 (-126) x ltac:(lia))
      as (k & Hk & Hr).
    exists k; split; [exact Hk |].
    replace (Z.max (binade x) (-126) - 23)%Z
      with (Z.max (binade x) (-126) - 24 + 1)%Z by lia.
    exact Hr.
  - exact (round_binary_half_spacing 24 (-126) x).
Qed.

(** The cast on some values: [2^24 + 1] and [2^24 + 3] lie halfway between
    two float32 values and go to the even significand; [1/10] and [1/3]
    get their nearest 24-bit fractions; half the least subnormal goes to
    zero. *)
Example cast_float32_values :
  cast float32 16777217 = 16777216 /\
  cast float32 16777219 = 16777220 /\
  cast float32 (1 # 10) = 13421773 # 134217728 /\
  cast float32 (- (1 # 3)) = - (11184811 # 33554432) /\
  cast float32 (5 # 2) = 5 # 2 /\
  cast float32 (pow2 (-150)) = 0 /\
  cast float32 (3 * pow2 (-150)) == pow2 (-148).
Proof.
  repeat split; vm_compute; reflexivity.
Qed.

Lemma cast_float32_integer (x : Q) :
  integer_within 24 x -> cast float32 x = x.
Proof.
  intros (n & Hn & ->).
  apply (round_binary_integer 24 (-126) n); [lia | lia | exact Hn].
Qed.

Lemma cast_float32_integers (d : list Q) :
  Forall (integer_within 24) d -> map (cast float32) d = d.
Proof.
  induction 1 as [| x d Hx _ IH]; [reflexivity |].
  cbn [map]; rewrite IH, (cast_float32_integer x Hx); reflexivity.
Qed.

(** X23.  Integer images survive the cast.  An array whose values are
    integers of at most 24 bits in magnitude, as every 8-bit or 16-bit
    image is, keeps all its values when cast to float32: only the dtype
    changes. *)
Theorem astype_float32_keeps_small_integers (a : ndarray) :
  Forall (integer_within 24) (data a) ->
  astype float32 a = mk_ndarray float32 (shape a) (data a).
Proof.
  intros H; unfold astype; rewrite (cast_float32_integers _ H); reflexivity.
Qed.

Lemma astype_float32_keeps_small_integers_witness :
  astype float32 (mk_ndarray uint16 [2; 2]%nat [0; 65535; 255; 1024])
  = mk_ndarray float32 [2; 2]%nat [0; 65535; 255; 1024].
Proof.
  apply (astype_float32_keeps_small_integers
           (mk_ndarray uint16 [2; 2]%nat [0; 65535; 255; 1024])).
  repeat constructor.
  - exists 0%Z; split; [vm_compute; discriminate | reflexivity].
  - exists 65535%Z; split; [vm_compute; discriminate | reflexivity].
  - exists 255%Z; split; [vm_compute; discriminate | reflexivity].
  - exists 1024%Z; split; [vm_compute; discriminate | reflexivity].
Defined.

(** ** Patch sampler: what every returned stack satisfies *)

Lemma stack_inversion (arrays : list ndarray) (stacked : ndarray) :
  stack arrays = Ok stacked ->
  exists a rest,
    arrays = a :: rest /\
    stacked = mk_ndarray (dtype_of a) (length arrays :: shape a)
                (concat (map data arrays)) /\
    Forall (fun b => shape b = shape a) arrays.
Proof.
  unfold stack; destruct arrays as [| a rest]; [discriminate |].
  destruct (forallb (fun b => shape_eqb (shape a) (shape b)) (a :: rest))
    eqn:Hsame; [| discriminate].
  intros H; injection H as <-.
  exists a, rest; repeat split.
  apply Forall_forall; intros b Hb.
  rewrite forallb_forall in Hsame; symmetry.
  apply shape_eqb_eq, Hsame, Hb.
Qed.

Section SamplerResults.

Variable Generator : Type.
Variable random_raw : Generator -> Z * Generator.

Lemma create_patches_inversion (rng : Generator)
  (image_array target_array : ndarray) (patch_size : list nat)
  (image_patches target_patches : ndarray) :
  create_patches random_raw rng image_array target_array patch_size
  = Ok (image_patches, target_patches) ->
  exists ds,
    stack (map patch ds) = Ok image_patches /\
    stack (map target_patch ds) = Ok target_patches /\
    Forall (fun d =>
              exists sample target_sample,
                item image_array (Z.of_nat (sample_index d)) = Ok sample /\
                item target_array (Z.of_nat (sample_index d)) = Ok target_sample /\
                cropped_from sample target_sample patch_size d) ds.
Proof.
  intros H; unfold create_patches in H.
  bind_inv H ds Hds. bind_inv H ip Hip. bind_inv H tp Htp.
  injection H as <- <-.
  exists ds; repeat split; try assumption.
  unfold draw_patches in Hds.
  destruct (shape image_array) as [| n rest]; [discriminate |].
  bind_inv Hds it Hit; destruct it as [ds' rng']. injection Hds as <-.
  eapply Forall_impl; [| exact (@iterate_samples_spec _ _ _ _ _ _ _ _ _ Hit)].
  intros d [_ Hd]; exact Hd.
Qed.

Lemma cropped_dtype (sample target_sample : ndarray) (patch_size : list nat)
  (d : drawn) :
  cropped_from sample target_sample patch_size d ->
  dtype_of (patch d) = float32 /\ dtype_of (target_patch d) = float32.
Proof.
  intros [Hp Ht].
  destruct (crop sample (crop_coords d) patch_size); [| discriminate].
  destruct (crop target_sample (crop_coords d) patch_size); [| discriminate].
  simpl in Hp, Ht; injection Hp as <-; injection Ht as <-; split; reflexivity.
Qed.

(** X7.  Whatever the inputs, when [create_patches] returns, its two
    arrays hold the same number of patches, at least one, and both are
    float32: the notebook's assertion on the two first extents cannot
    fail. *)
Theorem create_patches_same_count_and_dtype (rng : Generator)
  (image_array target_array : ndarray) (patch_size : list nat)
  (image_patches target_patches : ndarray) :
  create_patches random_raw rng image_array target_array patch_size
  = Ok (image_patches, target_patches) ->
  hd 0%nat (shape image_patches) = hd 0%nat (shape target_patches) /\
  (1 <= hd 0%nat (shape image_patches))%nat /\
  dtype_of image_patches = float32 /\ dtype_of target_patches = float32.
Proof.
  intros H.
  destruct (create_patches_inversion _ _ _ _ _ _ H) as (ds & Hip & Htp & Hall).
  destruct (stack_inversion _ _ Hip) as (a & ra & Ea & -> & _).
  destruct (stack_inversion _ _ Htp) as (b & rb & Eb & -> & _).
  destruct ds as [| d ds]; [discriminate |].
  simpl in Ea, Eb; injection Ea as <- _; injection Eb as <- _.
  pose proof (Forall_inv Hall) as (sample & target_sample & _ & _ & Hc).
  destruct (cropped_dtype _ _ _ _ Hc) as [D1 D2].
  cbn [shape dtype_of hd]; rewrite !length_map.
  repeat split; try assumption; simpl; lia.
Qed.

(** *** Sampling never looks at pixel values *)

Lemma item_shape_only (a a' : ndarray) (i : Z) :
  shape a = shape a' ->
  map_result shape (item a i) = map_result shape (item a' i).
Proof.
  intros H; unfold item; rewrite <- H.
  destruct (shape a) as [| n rest]; [reflexivity |].
  destruct (normalize_index n i); reflexivity.
Qed.

Lemma crop_shape_only (a a' : ndarray) (coords : list Z) (patch_size : list nat) :
  shape a = shape a' ->
  map_result shape (crop a coords patch_size)
  = map_result shape (crop a' coords patch_size).
Proof.
  intros H; unfold crop, ndim; rewrite <- H.
  destruct (length (shape a) <? length (combine coords patch_size))%nat;
    reflexivity.
Qed.

(** Two outcomes that agree up to [h] are both returns or both the same
    exception. *)
Lemma same_outcome {A B : Type} (h : A -> B) (m m' : result A) :
  map_result h m = map_result h m' ->
  (exists a a', m = Ok a /\ m' = Ok a' /\ h a = h a') \/
  (exists e, m = Raise e /\ m' = Raise e).
Proof.
  destruct m as [a | e], m' as [a' | e']; simpl; intros H;
    try discriminate; injection H as H.
  - left; exists a, a'; auto.
  - right; exists e; subst; auto.
Qed.

Lemma sample_patches_shape_only (s : nat)
  (sample target_sample sample' target_sample' : ndarray)
  (patch_size : list nat) (n : nat) :
  shape sample = shape sample' ->
  shape target_sample = shape target_sample' ->
  forall rng,
    map_result (fun r => (map placement (fst r), snd r))
      (sample_patches random_raw rng s sample target_sample patch_size n)
    = map_result (fun r => (map placement (fst r), snd r))
        (sample_patches random_raw rng s sample' target_sample' patch_size n).
Proof.
  intros Hs Ht; induction n as [| n IH]; intros rng; [reflexivity |].
  cbn [sample_patches]; rewrite <- Hs.
  destruct (draw_crop_coords random_raw rng (shape sample) patch_size
              (seq 0 (length patch_size))) as [[coords rng1] | e];
    [| reflexivity].
  cbn [bind].
  destruct (same_outcome _ _ _ (crop_shape_only _ _ coords patch_size Hs))
    as [(p & p' & -> & -> & Sp) | (e & -> & ->)]; [| reflexivity].
  cbn [bind].
  destruct (same_outcome _ _ _ (crop_shape_only _ _ coords patch_size Ht))
    as [(t & t' & -> & -> & St) | (e & -> & ->)]; [| reflexivity].
  cbn [bind].
  destruct (same_outcome _ _ _ (IH rng1))
    as [([more rng2] & [more' rng2'] & -> & -> & Hm) | (e & -> & ->)];
    [| reflexivity].
  cbn [fst snd] in Hm; injection Hm as Hm <-.
  cbn [bind map_result fst snd map]; unfold placement at 1 3.
  cbn [sample_index crop_coords patch target_patch shape astype].
  rewrite Sp, St, Hm; reflexivity.
Qed.

Lemma iterate_samples_shape_only
  (image_array target_array image_array' target_array' : ndarray)
  (patch_size : list nat) (samples : list nat) :
  shape image_array = shape image_array' ->
  shape target_array = shape target_array' ->
  forall rng,
    map_result (fun r => (map placement (fst r), snd r))
      (iterate_samples random_raw rng image_array target_array patch_size
         samples)
    = map_result (fun r => (map placement (fst r), snd r))
        (iterate_samples random_raw rng image_array' target_array' patch_size
           samples).
Proof.
  intros Hi Ht; induction samples as [| s samples IH]; intros rng;
    [reflexivity |].
  cbn [iterate_samples].
  destruct (same_outcome _ _ _ (item_shape_only _ _ (Z.of_nat s) Hi))
    as [(sample & sample' & -> & -> & Ss) | (e & -> & ->)]; [| reflexivity].
  cbn [bind].
  destruct (same_outcome _ _ _ (item_shape_only _ _ (Z.of_nat s) Ht))
    as [(target_sample & target_sample' & -> & -> & St) | (e & -> & ->)];
    [| reflexivity].
  cbn [bind]; rewrite <- Ss.
  destruct (n_patches (shape sample) patch_size) as [n | e]; [| reflexivity].
  cbn [bind].
  destruct (same_outcome _ _ _
              (sample_patches_shape_only s _ _ _ _ patch_size n Ss St rng))
    as [([ps rng1] & [ps' rng1'] & -> & -> & Hp) | (e & -> & ->)];
    [| reflexivity].
  cbn [fst snd] in Hp; injection Hp as Hp <-.
  cbn [bind].
  destruct (same_outcome _ _ _ (IH rng1))
    as [([qs rng2] & [qs' rng2'] & -> & -> & Hq) | (e & -> & ->)];
    [| reflexivity].
  cbn [fst snd] in Hq; injection Hq as Hq <-.
  cbn [bind map_result fst snd]; rewrite !map_app, Hp, Hq; reflexivity.
Qed.

Lemma forallb_mapped {A B : Type} (h : A -> B) (q : B -> bool) (l : list A) :
  forallb q (map h l) = forallb (fun x => q (h x)) l.
Proof.
  induction l as [| x l IH]; simpl; [reflexivity | rewrite IH; reflexivity].
Qed.

Lemma stack_shape_only (arrays arrays' : list ndarray) :
  map shape arrays = map shape arrays' ->
  map_result shape (stack arrays) = map_result shape (stack arrays').
Proof.
  intros H; unfold stack.
  destruct arrays as [| a rest], arrays' as [| a' rest'];
    try discriminate; [reflexivity |].
  pose proof (f_equal (@length _) H) as Hlen; rewrite !length_map in Hlen.
  rewrite <- (forallb_mapped shape (shape_eqb (shape a)) (a :: rest)).
  rewrite <- (forallb_mapped shape (shape_eqb (shape a')) (a' :: rest')).
  rewrite H; cbn [map] in H; injection H as Ha _; rewrite Ha.
  destruct (forallb (shape_eqb (shape a')) (map shape (a' :: rest')));
    [| reflexivity].
  cbn [map_result shape]; rewrite Hlen; reflexivity.
Qed.

(** X8.  Sampling never looks at pixel values.  Where the crops are taken,
    how many there are and whether the call fails depend on the shapes of
    the two stacks and on the generator alone: on stacks of the same
    shapes and with the same generator, [create_patches] records the same
    image indices, coordinates and patch shapes, and returns arrays of the
    same shapes or raises the same exception. *)
Theorem create_patches_ignores_pixel_values (rng : Generator)
  (image_array target_array image_array' target_array' : ndarray)
  (patch_size : list nat) :
  shape image_array = shape image_array' ->
  shape target_array = shape target_array' ->
  map_result (map placement)
    (draw_patches random_raw rng image_array target_array patch_size)
  = map_result (map placement)
      (draw_patches random_raw rng image_array' target_array' patch_size) /\
  map_result shapes
    (create_patches random_raw rng image_array target_array patch_size)
  = map_result shapes
      (create_patches random_raw rng image_array' target_array' patch_size).
Proof.
  intros Hi Ht.
  assert (Hdraw :
            map_result (map placement)
              (draw_patches random_raw rng image_array target_array patch_size)
            = map_result (map placement)
                (draw_patches random_raw rng image_array' target_array'
                   patch_size)).
  { pose proof (fun samples =>
                  iterate_samples_shape_only _ _ _ _ patch_size samples
                    Hi Ht rng) as Hit.
    unfold draw_patches; rewrite <- Hi.
    destruct (shape image_array) as [| n rest]; [reflexivity |].
    destruct (same_outcome _ _ _ (Hit (seq 0 n)))
      as [([ds r1] & [ds' r1'] & -> & -> & Hd) | (e & -> & ->)];
      [| reflexivity].
    cbn [fst snd] in Hd; injection Hd as Hd _.
    cbn [bind map_result]; rewrite Hd; reflexivity. }
  split; [exact Hdraw |].
  unfold create_patches.
  destruct (same_outcome _ _ _ Hdraw)
    as [(ds & ds' & -> & -> & Hd) | (e & -> & ->)]; [| reflexivity].
  cbn [bind].
  assert (Hp : map shape (map patch ds) = map shape (map patch ds')).
  { rewrite !map_map.
    change (map (fun d => snd (fst (placement d))) ds
            = map (fun d => snd (fst (placement d))) ds').
    rewrite <- !(map_map placement (fun q => snd (fst q))), Hd; reflexivity. }
  assert (Hq : map shape (map target_patch ds)
               = map shape (map target_patch ds')).
  { rewrite !map_map.
    change (map (fun d => snd (placement d)) ds
            = map (fun d => snd (placement d)) ds').
    rewrite <- !(map_map placement (fun q => snd q)), Hd; reflexivity. }
  destruct (same_outcome _ _ _ (stack_shape_only _ _ Hp))
    as [(ip & ip' & -> & -> & Sp) | (e & -> & ->)]; [| reflexivity].
  cbn [bind].
  destruct (same_outcome _ _ _ (stack_shape_only _ _ Hq))
    as [(tp & tp' & -> & -> & Sq) | (e & -> & ->)]; [| reflexivity].
  cbn [bind map_result]; unfold shapes; cbn [fst snd].
  rewrite Sp, Sq; reflexivity.
Qed.

(** *** Elementwise functions and the crops *)





(** Casting the arrays before stacking is casting the stack. *)
Lemma stack_astype (t : dtype) (arrays : list ndarray) :
  stack (map (astype t) arrays) = map_result (astype t) (stack arrays).
Proof.
  unfold stack; destruct arrays as [| a rest]; [reflexivity |].
  cbn [map]; rewrite <- (map_cons (astype t) a rest).
  rewrite forallb_mapped; cbn [shape astype].
  destruct (forallb (fun b => shape_eqb (shape a) (shape b)) (a :: rest));
    [| reflexivity].
  cbn [map_result]; unfold astype; cbn [dtype_of shape data].
  rewrite length_map; f_equal; f_equal.
  change (concat (map (cast t) (data a) :: map data (map (astype t) rest)))
    with (concat (map data (map (astype t) (a :: rest)))).
  change (concat (data a :: map data rest))
    with (concat (map data (a :: rest))).
  rewrite concat_map, !map_map; reflexivity.
Qed.

End SamplerResults.

Lemma create_patches_same_count_and_dtype_witness :
  let image_patches := mk_ndarray float32 [1; 2; 2]%nat [0; 1; 2; 3] in
  let target_patches := mk_ndarray float32 [1; 1; 1]%nat [0] in
  hd 0%nat (shape image_patches) = hd 0%nat (shape target_patches) /\
  (1 <= hd 0%nat (shape image_patches))%nat /\
  dtype_of image_patches = float32 /\ dtype_of target_patches = float32.
Proof.
  intros image_patches target_patches.
  apply (create_patches_same_count_and_dtype (list Z) replay_raw [] (arange [1; 2; 2]%nat)
           (mk_ndarray uint16 [1; 1; 1]%nat [0]) [2; 2]%nat).
  vm_compute; reflexivity.
Defined.

Lemma create_patches_ignores_pixel_values_witness :
  map_result (map placement)
    (draw_patches replay_raw [1; 5; 7]%Z
       (arange [1; 2; 3]%nat) (arange [1; 2; 3]%nat) [2; 2]%nat)
  = map_result (map placement)
      (draw_patches replay_raw [1; 5; 7]%Z
         (full [1; 2; 3]%nat 7) (scale (1 # 3) (arange [1; 2; 3]%nat))
         [2; 2]%nat) /\
  map_result shapes
    (create_patches replay_raw [1; 5; 7]%Z
       (arange [1; 2; 3]%nat) (arange [1; 2; 3]%nat) [2; 2]%nat)
  = map_result shapes
      (create_patches replay_raw [1; 5; 7]%Z
         (full [1; 2; 3]%nat 7) (scale (1 # 3) (arange [1; 2; 3]%nat))
         [2; 2]%nat).
Proof.
  apply (create_patches_ignores_pixel_values (list Z) replay_raw [1; 5; 7]%Z
           (arange [1; 2; 3]%nat) (arange [1; 2; 3]%nat)
           (full [1; 2; 3]%nat 7) (scale (1 # 3) (arange [1; 2; 3]%nat))
           [2; 2]%nat).
  - reflexivity.
  - reflexivity.
Defined.

Section SamplerPixels.

Variable Generator : Type.
Variable random_raw : Generator -> Z * Generator.



(** X10.  Identical stacks give identical patches: when the target stack
    is the source stack itself, the two returned arrays are equal. *)
Theorem create_patches_of_identical_stacks (rng : Generator)
  (image_array : ndarray) (patch_size : list nat)
  (image_patches target_patches : ndarray) :
  create_patches random_raw rng image_array image_array patch_size
  = Ok (image_patches, target_patches) ->
  target_patches = image_patches.
Proof.
  intros H.
  destruct (create_patches_inversion _ _ _ _ _ _ _ _ H)
    as (ds & Hip & Htp & Hall).
  assert (Hmap : map target_patch ds = map patch ds).
  { apply map_ext_in; intros d Hd.
    rewrite Forall_forall in Hall.
    destruct (Hall d Hd) as (sample & target_sample & Hi & Ht & Hp & Hq).
    rewrite Hi in Ht; injection Ht as <-.
    rewrite Hp in Hq; injection Hq as Hq; symmetry; exact Hq. }
  rewrite Hmap, Hip in Htp; injection Htp as <-; reflexivity.
Qed.

(** *** No value is invented *)

Lemma chunks_incl (n sz : nat) :
  forall d block, In block (chunks n sz d) -> incl block d.
Proof.
  induction n as [| n IH]; intros d block Hin; [contradiction |].
  destruct Hin as [<- | Hin].
  - intros x Hx; rewrite <- (firstn_skipn sz d); apply in_or_app; left; exact Hx.
  - intros x Hx; rewrite <- (firstn_skipn sz d); apply in_or_app; right.
    exact (IH _ _ Hin x Hx).
Qed.

Lemma concat_incl {A : Type} (g : A -> list Q) (blocks : list A) (d : list Q) :
  (forall block, In block blocks -> incl (g block) d) ->
  incl (concat (map g blocks)) d.
Proof.
  intros H x Hx; apply in_concat in Hx; destruct Hx as (l & Hl & Hxl).
  apply in_map_iff in Hl; destruct Hl as (block & <- & Hb).
  exact (H block Hb x Hxl).
Qed.

Lemma window_incl {A : Type} (j k : nat) (l : list A) (x : A) :
  In x (firstn k (skipn j l)) -> In x l.
Proof.
  intros Hx.
  rewrite <- (firstn_skipn j l); apply in_or_app; right.
  rewrite <- (firstn_skipn k (skipn j l)); apply in_or_app; left; exact Hx.
Qed.

Lemma crop_data_incl (sh : list nat) :
  forall lead slices d, incl (crop_data lead sh slices d) d.
Proof.
  induction sh as [| n rest IH]; intros lead slices d; [apply incl_refl |].
  destruct lead as [| lead]; [destruct slices as [| [c p] slices] |];
    cbn [crop_data].
  - apply incl_refl.
  - apply concat_incl; intros block Hb.
    apply window_incl in Hb.
    eapply incl_tran; [apply IH | exact (chunks_incl _ _ _ _ Hb)].
  - apply concat_incl; intros block Hb.
    eapply incl_tran; [apply IH | exact (chunks_incl _ _ _ _ Hb)].
Qed.

Lemma item_incl (a sub : ndarray) (i : Z) :
  item a i = Ok sub -> incl (data sub) (data a).
Proof.
  unfold item; destruct (shape a) as [| n rest]; [discriminate |].
  destruct (normalize_index n i); [| discriminate].
  intros H; injection H as <-; simpl.
  intros x Hx; exact (window_incl _ _ _ _ Hx).
Qed.

Lemma crop_incl (a a' : ndarray) (coords : list Z) (patch_size : list nat) :
  crop a coords patch_size = Ok a' -> incl (data a') (data a).
Proof.
  unfold crop.
  destruct (ndim a <? length (combine coords patch_size))%nat; [discriminate |].
  intros H; injection H as <-; apply crop_data_incl.
Qed.

Lemma create_patches_pixels (rng : Generator)
  (image_array target_array : ndarray) (patch_size : list nat)
  (image_patches target_patches : ndarray) :
  create_patches random_raw rng image_array target_array patch_size
  = Ok (image_patches, target_patches) ->
  incl (data image_patches) (map (cast float32) (data image_array)) /\
  incl (data target_patches) (map (cast float32) (data target_array)).
Proof.
  intros H.
  destruct (create_patches_inversion _ _ _ _ _ _ _ _ H)
    as (ds & Hip & Htp & Hall).
  destruct (stack_inversion _ _ Hip) as (a & ra & _ & -> & _).
  destruct (stack_inversion _ _ Htp) as (b & rb & _ & -> & _).
  cbn [data]; rewrite Forall_forall in Hall.
  split; rewrite map_map; apply concat_incl; intros d Hd;
    destruct (Hall d Hd) as (sample & target_sample & Hi & Ht & Hp & Hq).
  - destruct (crop sample (crop_coords d) patch_size) as [p | e] eqn:Ep;
      [| discriminate].
    simpl in Hp; injection Hp as <-; cbn [data astype]; apply incl_map.
    eapply incl_tran; [exact (crop_incl _ _ _ _ Ep) | exact (item_incl _ _ _ Hi)].
  - destruct (crop target_sample (crop_coords d) patch_size) as [t | e] eqn:Et;
      [| discriminate].
    simpl in Hq; injection Hq as <-; cbn [data astype]; apply incl_map.
    eapply incl_tran; [exact (crop_incl _ _ _ _ Et) | exact (item_incl _ _ _ Ht)].
Qed.

(** X11.  No value is invented: every element of the returned input
    patches is the float32 value of an element of [image_array], every
    element of the returned target patches the float32 value of an element
    of [target_array]. *)
Theorem create_patches_takes_pixels_from_images (rng : Generator)
  (image_array target_array : ndarray) (patch_size : list nat)
  (image_patches target_patches : ndarray) :
  create_patches random_raw rng image_array target_array patch_size
  = Ok (image_patches, target_patches) ->
  incl (data image_patches) (map (cast float32) (data image_array)) /\
  incl (data target_patches) (map (cast float32) (data target_array)).
Proof.
  exact (create_patches_pixels rng image_array target_array patch_size
           image_patches target_patches).
Qed.

(** X24.  Patches of integer images hold the pixels themselves.  For
    stacks whose values are integers of at most 24 bits in magnitude (any
    8-bit or 16-bit image), the cast to float32 changes no value: every
    element of the returned input patches is an element of [image_array],
    every element of the returned target patches an element of
    [target_array]. *)
Theorem create_patches_of_integer_images (rng : Generator)
  (image_array target_array : ndarray) (patch_size : list nat)
  (image_patches target_patches : ndarray) :
  Forall (integer_within 24) (data image_array) ->
  Forall (integer_within 24) (data target_array) ->
  create_patches random_raw rng image_array target_array patch_size
  = Ok (image_patches, target_patches) ->
  incl (data image_patches) (data image_array) /\
  incl (data target_patches) (data target_array).
Proof.
  intros Hi Ht H.
  pose proof (create_patches_pixels rng image_array target_array patch_size
                image_patches target_patches H) as Hincl.
  rewrite (cast_float32_integers _ Hi), (cast_float32_integers _ Ht) in Hincl.
  exact Hincl.
Qed.

(** *** Nothing to stack *)

Lemma iterate_samples_without_pixels (image_array target_array : ndarray)
  (N M : nat) (S T P : list nat) :
  shape image_array = N :: S -> shape target_array = M :: T ->
  (N <= M)%nat -> prod S = 0%nat -> (0 < prod P)%nat ->
  forall samples rng,
    Forall (fun s => (s < N)%nat) samples ->
    iterate_samples random_raw rng image_array target_array P samples
    = Ok ([], rng).
Proof.
  intros HI HT HM HS HP samples rng;
    induction 1 as [| s samples Hs _ IH]; [reflexivity |].
  cbn [iterate_samples].
  destruct (@item_in_range image_array N S s HI Hs) as (sample & Hi & Ss).
  destruct (@item_in_range target_array M T s HT) as (target & Ht & _);
    [lia |].
  rewrite Hi, Ht; cbn [bind]; rewrite Ss.
  unfold n_patches; rewrite HS.
  destruct (Nat.eqb_spec (prod P) 0) as [E | _]; [lia |].
  cbn [bind].
  replace ((0 + prod P - 1) / prod P)%nat with 0%nat
    by (symmetry; apply Nat.div_small; lia).
  cbn [sample_patches bind]; rewrite IH; reflexivity.
Qed.

(** X12.  Nothing to stack.  For an empty stack of images, or for images
    without a single pixel, with a patch of positive volume and a target
    stack of at least as many images, no patch is drawn and
    [create_patches] raises the ValueError of [np.stack]: it never returns
    empty arrays. *)
Theorem create_patches_of_nothing_raises (rng : Generator)
  (image_array target_array : ndarray) (N M : nat) (S T P : list nat) :
  shape image_array = N :: S -> shape target_array = M :: T ->
  (N <= M)%nat -> (0 < prod P)%nat ->
  N = 0%nat \/ prod S = 0%nat ->
  draw_patches random_raw rng image_array target_array P = Ok [] /\
  create_patches random_raw rng image_array target_array P = Raise ValueError.
Proof.
  intros HI HT HM HP Hnone.
  assert (Hdraw : draw_patches random_raw rng image_array target_array P = Ok []).
  { unfold draw_patches; rewrite HI.
    destruct Hnone as [-> | HS]; [reflexivity |].
    rewrite (iterate_samples_without_pixels image_array target_array N M S T P
               HI HT HM HS HP); [reflexivity |].
    apply Forall_forall; intros s Hs; apply in_seq in Hs; lia. }
  split; [exact Hdraw |].
  unfold create_patches; rewrite Hdraw; reflexivity.
Qed.

End SamplerPixels.


Lemma create_patches_of_identical_stacks_witness :
  mk_ndarray float32 [2; 2; 2]%nat [1; 2; 4; 5; 0; 1; 3; 4]
  = mk_ndarray float32 [2; 2; 2]%nat [1; 2; 4; 5; 0; 1; 3; 4].
Proof.
  apply (create_patches_of_identical_stacks (list Z) replay_raw
           [1; 5; 7]%Z (arange [1; 2; 3]%nat) [2; 2]%nat).
  vm_compute; reflexivity.
Defined.

Lemma create_patches_takes_pixels_from_images_witness :
  incl [16777216; 1; 2; 3]
    (map (cast float32) [16777217; 1; 2; 3]) /\
  incl [1 # 2; 13421773 # 134217728; 0; 5]
    (map (cast float32) [1 # 2; 1 # 10; 0; 5]).
Proof.
  apply (create_patches_takes_pixels_from_images (list Z) replay_raw
           [1; 5; 7]%Z
           (mk_ndarray int64 [1; 2; 2]%nat [16777217; 1; 2; 3])
           (mk_ndarray float64 [1; 2; 2]%nat [1 # 2; 1 # 10; 0; 5])
           [2; 2]%nat
           (mk_ndarray float32 [1; 2; 2]%nat [16777216; 1; 2; 3])
           (mk_ndarray float32 [1; 2; 2]%nat
              [1 # 2; 13421773 # 134217728; 0; 5])).
  vm_compute; reflexivity.
Defined.

Lemma create_patches_of_integer_images_witness :
  incl [1; 2; 4; 5; 0; 1; 3; 4] (data (arange [1; 2; 3]%nat)) /\
  incl [200; 400; 800; 1000; 0; 200; 600; 800]
    (data (scale 200 (arange [1; 2; 3]%nat))).
Proof.
  apply (create_patches_of_integer_images (list Z) replay_raw
           [1; 5; 7]%Z (arange [1; 2; 3]%nat) (scale 200 (arange [1; 2; 3]%nat))
           [2; 2]%nat
           (mk_ndarray float32 [2; 2; 2]%nat [1; 2; 4; 5; 0; 1; 3; 4])
           (mk_ndarray float32 [2; 2; 2]%nat
              [200; 400; 800; 1000; 0; 200; 600; 800])).
  - repeat constructor;
      [exists 0%Z | exists 1%Z | exists 2%Z | exists 3%Z | exists 4%Z
       | exists 5%Z]; (split; [vm_compute; discriminate | reflexivity]).
  - repeat constructor;
      [exists 0%Z | exists 200%Z | exists 400%Z | exists 600%Z | exists 800%Z
       | exists 1000%Z]; (split; [vm_compute; discriminate | reflexivity]).
  - vm_compute; reflexivity.
Defined.

Lemma create_patches_of_nothing_raises_witness :
  draw_patches replay_raw [4; 2]%Z
    (full [3; 0; 5]%nat 0) (full [3; 0; 5]%nat 0) [2; 2]%nat = Ok [] /\
  create_patches replay_raw [4; 2]%Z
    (full [3; 0; 5]%nat 0) (full [3; 0; 5]%nat 0) [2; 2]%nat = Raise ValueError.
Proof.
  apply (create_patches_of_nothing_raises (list Z) replay_raw [4; 2]%Z
           (full [3; 0; 5]%nat 0) (full [3; 0; 5]%nat 0) 3 3
           [0; 5]%nat [0; 5]%nat [2; 2]%nat).
  - reflexivity.
  - reflexivity.
  - lia.
  - simpl; lia.
  - right; reflexivity.
Defined.


(** ** Patch sampler: where the pixels of a patch come from *)

Lemma nth_chunks (n sz : nat) :
  forall j d, (j < n)%nat ->
    nth j (chunks n sz d) [] = firstn sz (skipn (j * sz) d).
Proof.
  induction n as [| n IH]; intros j d Hj; [lia |].
  destruct j as [| j]; [reflexivity |].
  cbn [chunks nth]; rewrite IH by lia.
  rewrite skipn_skipn; f_equal; f_equal; simpl; lia.
Qed.

Lemma block_of_concat (sz : nat) (blocks : list (list Q)) (i : nat) :
  uniform sz blocks -> (i < length blocks)%nat ->
  firstn sz (skipn (i * sz) (concat blocks)) = nth i blocks [].
Proof.
  intros Hu Hi.
  rewrite <- (chunks_concat sz blocks Hu) at 2.
  symmetry; apply nth_chunks; exact Hi.
Qed.

Lemma element_at_defined (sh : list nat) :
  forall d index,
    length d = prod sh -> Forall2 lt index sh ->
    exists x, element_at sh d index = Some x.
Proof.
  induction sh as [| n rest IH]; intros d index Hd Hidx;
    inversion Hidx as [| i m index' sh' Hi Hrest]; subst.
  - destruct d as [| x d]; [discriminate |]; exists x; reflexivity.
  - cbn [element_at].
    destruct (Nat.ltb_spec i n) as [_ | H]; [| lia].
    apply IH; [| exact Hrest].
    rewrite length_firstn, length_skipn, Hd; simpl; nia.
Qed.

Lemma crop_data_element (S : list nat) :
  forall (P : list nat) (coords : list Z) (index : list nat) (d : list Q),
    length d = prod S -> length S = length P ->
    within_bounds S P coords -> Forall2 lt index P ->
    element_at P (crop_data 0 S (combine coords P) d) index
    = element_at S d (shifted coords index).
Proof.
  unfold within_bounds.
  induction S as [| n S IH]; intros [| p P] coords index d Hd Hlen Hb Hidx;
    try discriminate.
  - inversion Hb; subst; inversion Hidx; subst; reflexivity.
  - simpl in Hb; inversion Hb as [| c sp cs l Hc Hcs]; subst.
    inversion Hidx as [| i m index' P' Hi Hrest]; subst.
    simpl in Hc.
    assert (Hstart : slice_start n c = Z.to_nat c).
    { unfold slice_start, clamp; destruct (Z.ltb_spec c 0); lia. }
    assert (Hcount : slice_length n c p = p).
    { unfold slice_length, clamp.
      destruct (Z.ltb_spec (c + Z.of_nat p) 0); destruct (Z.ltb_spec c 0); lia. }
    destruct (@chunks_blocks n (prod S) d Hd) as [Hn Hblocks].
    cbn [combine crop_data shifted map fst snd element_at].
    fold (shifted cs index').
    rewrite Hstart, Hcount.
    destruct (Nat.ltb_spec i p) as [_ | H]; [| lia].
    destruct (Nat.ltb_spec (Z.to_nat c + i) n) as [_ | H]; [| lia].
    set (window := firstn p (skipn (Z.to_nat c) (chunks n (prod S) d))).
    assert (Hwl : length window = p).
    { unfold window; rewrite length_firstn, length_skipn, Hn; lia. }
    assert (Hwu : uniform (prod S) window).
    { unfold window; apply Forall_window; exact Hblocks. }
    assert (Hcu : uniform (prod P) (map (crop_data 0 S (combine cs P)) window)).
    { apply Forall_map; eapply Forall_impl; [| exact Hwu].
      intros block Hblock; simpl.
      rewrite crop_data_length by exact Hblock.
      rewrite (@crop_shape_fit S P cs); auto. }
    rewrite block_of_concat; [| exact Hcu | rewrite length_map; lia].
    rewrite (nth_indep _ _ (crop_data 0 S (combine cs P) []))
      by (rewrite length_map; lia).
    rewrite map_nth; unfold window.
    rewrite nth_firstn, nth_skipn.
    destruct (Nat.ltb_spec i p) as [_ | H]; [| lia].
    rewrite nth_chunks by lia.
    apply IH; auto.
    rewrite length_firstn, length_skipn, Hd; simpl; nia.
Qed.

Lemma element_at_map (h : Q -> Q) (sh : list nat) :
  forall d index,
    element_at sh (map h d) index = option_map h (element_at sh d index).
Proof.
  induction sh as [| n rest IH]; intros d [| i index]; try reflexivity.
  - destruct d; reflexivity.
  - cbn [element_at]; destruct (i <? n)%nat; [| reflexivity].
    rewrite skipn_map, firstn_map; apply IH.
Qed.

Lemma crop_element (a a' : ndarray) (P : list nat) (coords : list Z)
  (index : list nat) :
  well_formed a -> length (shape a) = length P ->
  within_bounds (shape a) P coords -> Forall2 lt index P ->
  crop a coords P = Ok a' ->
  exists x,
    element a (shifted coords index) = Some x /\
    element (astype float32 a') index = Some (cast float32 x).
Proof.
  intros Hw Hlen Hb Hidx H.
  pose proof (@within_bounds_length (shape a) P coords Hlen Hb) as Hcs.
  unfold crop, ndim in H.
  rewrite length_combine, Hcs, Nat.min_id, Hlen in H.
  rewrite Nat.ltb_irrefl, Nat.sub_diag in H; injection H as <-.
  unfold element; cbn [astype shape data].
  rewrite (@crop_shape_fit (shape a) P coords Hlen Hb), element_at_map.
  rewrite (crop_data_element (shape a) P coords index (data a) Hw Hlen Hb Hidx).
  assert (Hin : Forall2 lt (shifted coords index) (shape a)).
  2:{ destruct (element_at_defined (shape a) (data a) _ Hw Hin) as [x Hx].
      exists x; rewrite Hx; split; reflexivity. }
  clear - Hb Hidx Hlen. unfold within_bounds in Hb.
  revert P coords index Hb Hidx Hlen.
  induction (shape a) as [| n S IH]; intros [| p P] coords index Hb Hidx Hlen;
    try discriminate.
  - inversion Hb; subst; inversion Hidx; subst; constructor.
  - simpl in Hb; inversion Hb as [| c sp cs l Hc Hcs]; subst.
    inversion Hidx as [| i m index' P' Hi Hrest]; subst.
    simpl in Hc; cbn [shifted combine map fst snd].
    constructor; [lia |].
    apply (IH P cs index'); auto.
Qed.

Section SamplerWindows.

Variable Generator : Type.
Variable random_raw : Generator -> Z * Generator.

(** X13.  Where the pixels come from.  For stacks of [N] images of shape
    [S] and a fitting patch shape [P], every drawn pair is the window of
    its image at the drawn coordinate, cast to float32: position [index]
    of the input patch holds the float32 value of the pixel at
    [coords + index] of the source image, and the same position of the
    target patch holds the float32 value of the pixel at [coords + index]
    of the target image. *)
Theorem create_patches_patch_is_window (rng : Generator)
  (image_array target_array : ndarray) (N : nat) (S P : list nat) :
  well_formed image_array -> well_formed target_array ->
  shape image_array = N :: S -> shape target_array = N :: S ->
  Forall2 le P S -> Forall (lt 0) P ->
  exists ds,
    draw_patches random_raw rng image_array target_array P = Ok ds /\
    Forall (fun d =>
              exists sample target_sample,
                item image_array (Z.of_nat (sample_index d)) = Ok sample /\
                item target_array (Z.of_nat (sample_index d)) = Ok target_sample /\
                forall index, Forall2 lt index P ->
                  (exists x,
                      element sample (shifted (crop_coords d) index) = Some x /\
                      element (patch d) index = Some (cast float32 x)) /\
                  (exists y,
                      element target_sample (shifted (crop_coords d) index)
                      = Some y /\
                      element (target_patch d) index = Some (cast float32 y))) ds.
Proof.
  intros WI WT HI HT Hfit Hpos.
  destruct (@n_patches_ceil S P (prod_positive Hpos)) as (n & Hn & _).
  assert (Hrange : Forall (fun s => (s < N)%nat) (seq 0 N)).
  { apply Forall_forall; intros s Hs; apply in_seq in Hs; lia. }
  destruct (@iterate_samples_fit Generator random_raw image_array target_array
              N n S P HI HT Hfit Hn (seq 0 N) Hrange rng)
    as (ds & rng' & Hds & _ & _ & Hall).
  exists ds; split; [unfold draw_patches; rewrite HI, Hds; reflexivity |].
  pose proof (@iterate_samples_spec _ _ _ _ _ _ _ _ _ Hds) as Hspec.
  eapply Forall_impl; [| exact (Forall_and Hall Hspec)].
  intros d [(Hb & _ & _) (_ & sample & target_sample & Hi & Ht & Hp & Hq)].
  exists sample, target_sample; split; [exact Hi |]; split; [exact Ht |].
  pose proof (item_shape _ _ Hi) as S1; rewrite HI in S1; simpl in S1.
  pose proof (item_shape _ _ Ht) as S2; rewrite HT in S2; simpl in S2.
  pose proof (@item_well_formed _ _ _ WI Hi) as W1.
  pose proof (@item_well_formed _ _ _ WT Ht) as W2.
  pose proof (Forall2_length Hfit) as Hlen; symmetry in Hlen.
  intros index Hidx.
  destruct (crop sample (crop_coords d) P) as [p | e] eqn:Ep; [| discriminate].
  destruct (crop target_sample (crop_coords d) P) as [t | e] eqn:Et;
    [| discriminate].
  simpl in Hp, Hq; injection Hp as <-; injection Hq as <-.
  split.
  - apply (crop_element sample p P (crop_coords d) index); auto;
      rewrite S1; assumption.
  - apply (crop_element target_sample t P (crop_coords d) index); auto;
      rewrite S2; assumption.
Qed.

End SamplerWindows.

Lemma create_patches_patch_is_window_witness :
  exists ds,
    draw_patches replay_raw [1; 5; 7]%Z
      (arange [1; 2; 3]%nat) (scale (1 # 10) (arange [1; 2; 3]%nat)) [2; 2]%nat
    = Ok ds /\
    Forall (fun d =>
              exists sample target_sample,
                item (arange [1; 2; 3]%nat) (Z.of_nat (sample_index d))
                = Ok sample /\
                item (scale (1 # 10) (arange [1; 2; 3]%nat))
                  (Z.of_nat (sample_index d))
                = Ok target_sample /\
                forall index, Forall2 lt index [2; 2]%nat ->
                  (exists x,
                      element sample (shifted (crop_coords d) index) = Some x /\
                      element (patch d) index = Some (cast float32 x)) /\
                  (exists y,
                      element target_sample (shifted (crop_coords d) index)
                      = Some y /\
                      element (target_patch d) index = Some (cast float32 y))) ds.
Proof.
  apply (create_patches_patch_is_window (list Z) replay_raw [1; 5; 7]%Z
           (arange [1; 2; 3]%nat) (scale (1 # 10) (arange [1; 2; 3]%nat)) 1
           [2; 3]%nat [2; 2]%nat).
  - reflexivity.
  - reflexivity.
  - reflexivity.
  - reflexivity.
  - repeat constructor.
  - repeat constructor.
Defined.

(** ** The dataset: indices, round trip, and what it yields for patches *)

Lemma item_invalid (a : ndarray) (n : nat) (rest : list nat) (i : Z) :
  shape a = n :: rest -> valid_index n i = false ->
  item a i = Raise IndexError.
Proof.
  intros Hs Hv; unfold item, normalize_index; rewrite Hs.
  unfold valid_index in Hv.
  destruct (Z.leb_spec 0 i); destruct (Z.ltb_spec i (Z.of_nat n));
    destruct (Z.leb_spec (- Z.of_nat n) i); destruct (Z.ltb_spec i 0);
    simpl in *; try reflexivity; try discriminate; lia.
Qed.

Lemma item_of_valid (a : ndarray) (n : nat) (rest : list nat) (i : Z) :
  shape a = n :: rest -> valid_index n i = true ->
  exists sub, item a i = Ok sub /\ shape sub = rest.
Proof.
  intros Hs Hv; apply (@item_valid a n rest i Hs).
  unfold valid_index in Hv; apply andb_prop in Hv; destruct Hv as [H1 H2].
  apply Z.leb_le in H1; apply Z.ltb_lt in H2; lia.
Qed.

Lemma item_raises_index_error (a : ndarray) (i : Z) (e : exception) :
  item a i = Raise e -> e = IndexError.
Proof.
  unfold item; destruct (shape a) as [| n rest];
    [intros H; injection H as <-; reflexivity |].
  destruct (normalize_index n i); [discriminate |].
  intros H; injection H as <-; reflexivity.
Qed.

Section DatasetIndices.

Variable Generator : Type.
Variable default_rng : Z -> Generator.
Variable random_raw : Generator -> Z * Generator.

(** X14.  Which indices the dataset accepts.  A dataset built without
    [apply_augmentations] returns a pair exactly for the indices that are
    valid for both arrays, negative ones counting from the end; for every
    other index it raises IndexError.  [__len__] looks at [image_data]
    only, so with fewer target patches an index below the length fails. *)
Theorem getitem_accepts_valid_indices (stats : statistics)
  (images targets : ndarray) (N M : nat) (P T : list nat) (index : Z) :
  shape images = N :: P -> shape targets = M :: T ->
  __len__ (__init__ images targets None) = Ok N /\
  (valid_index N index && valid_index M index = true ->
   exists x y,
     __getitem__ default_rng random_raw stats
       (__init__ images targets None) index = Ok (x, y)) /\
  (valid_index N index && valid_index M index = false ->
   __getitem__ default_rng random_raw stats
     (__init__ images targets None) index = Raise IndexError).
Proof.
  intros HI HT; split; [unfold __len__; simpl; rewrite HI; reflexivity |].
  unfold __getitem__; cbn [__init__ image_data target_data patch_augment].
  split; intros Hv.
  - apply andb_prop in Hv; destruct Hv as [V1 V2].
    destruct (item_of_valid images N P index HI V1) as (p & Hp & _).
    destruct (item_of_valid targets M T index HT V2) as (t & Ht & _).
    rewrite Hp, Ht; cbn [bind]; eexists; eexists; reflexivity.
  - apply andb_false_iff in Hv; destruct Hv as [V | V].
    + rewrite (item_invalid images N P index HI V); reflexivity.
    + rewrite (item_invalid targets M T index HT V).
      destruct (item images index) as [p | e] eqn:E; [reflexivity |].
      rewrite (item_raises_index_error images index e E); reflexivity.
Qed.




(** The patches of fitting stacks, as [create_patches] returns them. *)
Lemma create_patches_returns (rng : Generator)
  (image_array target_array : ndarray) (N : nat) (S P : list nat) :
  shape image_array = N :: S -> shape target_array = N :: S ->
  (1 <= N)%nat -> Forall2 le P S -> Forall (lt 0) P ->
  exists image_patches target_patches n,
    create_patches random_raw rng image_array target_array P
    = Ok (image_patches, target_patches) /\
    is_ceil_quotient (prod S) (prod P) n /\
    shape image_patches = (N * n)%nat :: P /\
    shape target_patches = (N * n)%nat :: P.
Proof.
  intros HI HT HN Hfit Hpos.
  pose proof (prod_positive Hpos) as HP.
  destruct (@n_patches_ceil S P HP) as (n & Hn & Hceil).
  assert (Hrange : Forall (fun s => (s < N)%nat) (seq 0 N)).
  { apply Forall_forall; intros s Hs; apply in_seq in Hs; lia. }
  destruct (@iterate_samples_fit Generator random_raw image_array target_array
              N n S P HI HT Hfit Hn (seq 0 N) Hrange rng)
    as (ds & rng' & Hds & Hlen & _ & Hall).
  rewrite length_seq in Hlen.
  assert (Hn1 : (1 <= n)%nat).
  { assert (0 < prod S)%nat.
    { apply prod_positive.
      clear - Hfit Hpos; induction Hfit; constructor;
        inversion Hpos; subst; [lia | auto]. }
    destruct Hceil as [Hc _]; destruct n; [simpl in Hc; lia | lia]. }
  assert (Hne : ds <> []) by (intros ->; simpl in Hlen; nia).
  destruct (@stack_same_shape (map patch ds) P) as (ip & Hip & Sip).
  { intros E; apply map_eq_nil in E; contradiction. }
  { apply Forall_map; eapply Forall_impl; [| exact Hall]; simpl; tauto. }
  destruct (@stack_same_shape (map target_patch ds) P) as (tp & Htp & Stp).
  { intros E; apply map_eq_nil in E; contradiction. }
  { apply Forall_map; eapply Forall_impl; [| exact Hall]; simpl; tauto. }
  rewrite length_map in Sip, Stp.
  exists ip, tp, n; repeat split; try apply Hceil.
  - unfold create_patches, draw_patches; rewrite HI, Hds; cbn [bind].
    rewrite Hip; cbn [bind]; rewrite Htp; reflexivity.
  - rewrite Sip, Hlen; f_equal; lia.
  - rewrite Stp, Hlen; f_equal; lia.
Qed.

(** X16.  From images to samples.  For fitting stacks, the dataset built
    on the output of [create_patches] (without augmentation) has as many
    items as patches were drawn, [N * ceil(prod(S) / prod(P))], and every
    valid index yields two float32 arrays of shape [(1, *P)]: what the
    notebook's test cell asserts for one index holds for all. *)
Theorem dataset_of_patches_yields_samples (stats : statistics) (rng : Generator)
  (image_array target_array : ndarray) (N : nat) (S P : list nat) :
  shape image_array = N :: S -> shape target_array = N :: S ->
  (1 <= N)%nat -> Forall2 le P S -> Forall (lt 0) P ->
  exists image_patches target_patches n,
    create_patches random_raw rng image_array target_array P
    = Ok (image_patches, target_patches) /\
    is_ceil_quotient (prod S) (prod P) n /\
    __len__ (__init__ image_patches target_patches None) = Ok (N * n)%nat /\
    forall index, valid_index (N * n) index = true ->
      exists x y,
        __getitem__ default_rng random_raw stats
          (__init__ image_patches target_patches None) index = Ok (x, y) /\
        shape x = 1%nat :: P /\ shape y = 1%nat :: P /\
        dtype_of x = float32 /\ dtype_of y = float32.
Proof.
  intros HI HT HN Hfit Hpos.
  destruct (create_patches_returns rng image_array target_array N S P
              HI HT HN Hfit Hpos) as (ip & tp & n & Hc & Hceil & Sip & Stp).
  exists ip, tp, n; split; [exact Hc |]; split; [exact Hceil |].
  split; [unfold __len__; simpl; rewrite Sip; reflexivity |].
  intros index Hv.
  destruct (item_of_valid ip _ P index Sip Hv) as (p & Hp & Sp).
  destruct (item_of_valid tp _ P index Stp Hv) as (t & Ht & St).
  unfold __getitem__; cbn [__init__ image_data target_data patch_augment].
  rewrite Hp, Ht; cbn [bind].
  eexists; eexists; split; [reflexivity |].
  cbn [shape dtype_of astype newaxis normalize]; rewrite Sp, St; auto.
Qed.

End DatasetIndices.

Lemma getitem_accepts_valid_indices_witness :
  let images := arange [3; 2; 2]%nat in
  let targets := arange [2; 2; 2]%nat in
  __len__ (__init__ images targets None) = Ok 3%nat /\
  (valid_index 3 2 && valid_index 2 2 = true ->
   exists x y,
     __getitem__ replay_seeded replay_raw (mk_statistics 0 1 0 1)
       (__init__ images targets None) 2 = Ok (x, y)) /\
  (valid_index 3 2 && valid_index 2 2 = false ->
   __getitem__ replay_seeded replay_raw (mk_statistics 0 1 0 1)
     (__init__ images targets None) 2 = Raise IndexError).
Proof.
  intros images targets.
  apply (getitem_accepts_valid_indices (list Z) replay_seeded replay_raw
           (mk_statistics 0 1 0 1) images targets 3 2 [2; 2]%nat [2; 2]%nat 2).
  - reflexivity.
  - reflexivity.
Defined.


Lemma dataset_of_patches_yields_samples_witness :
  let images := arange [2; 3; 4]%nat in
  let stats := mk_statistics 0 1 0 1 in
  exists image_patches target_patches n,
    create_patches replay_raw [9; 4; 2]%Z images images [2; 3]%nat
    = Ok (image_patches, target_patches) /\
    is_ceil_quotient (prod [3; 4]%nat) (prod [2; 3]%nat) n /\
    __len__ (__init__ image_patches target_patches None) = Ok (2 * n)%nat /\
    forall index, valid_index (2 * n) index = true ->
      exists x y,
        __getitem__ replay_seeded replay_raw stats
          (__init__ image_patches target_patches None) index = Ok (x, y) /\
        shape x = 1%nat :: [2; 3]%nat /\ shape y = 1%nat :: [2; 3]%nat /\
        dtype_of x = float32 /\ dtype_of y = float32.
Proof.
  intros images stats.
  apply (dataset_of_patches_yields_samples (list Z) replay_seeded replay_raw
           stats [9; 4; 2]%Z images images 2 [3; 4]%nat [2; 3]%nat).
  - reflexivity.
  - reflexivity.
  - lia.
  - repeat constructor.
  - repeat constructor.
Defined.

(** ** The split into training and validation files *)

Lemma take_files_in_range {A : Type} (files : list A) (d : A)
  (indices : list nat) :
  Forall (fun i => (i < length files)%nat) indices ->
  take_files files indices = Ok (map (fun i => nth i files d) indices).
Proof.
  induction 1 as [| i indices Hi _ IH]; [reflexivity |].
  cbn [take_files map].
  rewrite (nth_error_nth' files d Hi), IH; reflexivity.
Qed.

Lemma positions_of_list {A : Type} (l : list A) (d : A) :
  map (fun i => nth i l d) (seq 0 (length l)) = l.
Proof.
  induction l as [| x l IH]; [reflexivity |].
  cbn [length seq map]; rewrite <- seq_shift, map_map; simpl.
  f_equal; exact IH.
Qed.

Lemma combine_skipn {A B : Type} (l : list A) (l' : list B) (n : nat) :
  skipn n (combine l l') = combine (skipn n l) (skipn n l').
Proof.
  revert l l'; induction n as [| n IH]; intros l l'; [reflexivity |].
  destruct l as [| x l]; [reflexivity |].
  destruct l' as [| y l']; [destruct (skipn (S n) (x :: l)); reflexivity |].
  simpl; apply IH.
Qed.

Lemma combine_taken {A : Type} (a b : list A) (da db : A) (indices : list nat) :
  length a = length b ->
  combine (map (fun i => nth i a da) indices) (map (fun i => nth i b db) indices)
  = map (fun i => nth i (combine a b) (da, db)) indices.
Proof.
  intros Hlen; induction indices as [| i indices IH]; [reflexivity |].
  cbn [map combine]; rewrite IH, (combine_nth a b i da db Hlen); reflexivity.
Qed.

Lemma forallb_permutation {A : Type} (q : A -> bool) (l l' : list A) :
  Permutation l l' -> forallb q l = forallb q l'.
Proof.
  induction 1 as [| x l l' _ IH | x y l | l l' l'' _ IH1 _ IH2]; simpl.
  - reflexivity.
  - rewrite IH; reflexivity.
  - destruct (q x), (q y); reflexivity.
  - rewrite IH1; exact IH2.
Qed.

Section FileSplit.

Variable A : Type.
Variable same_name : A -> A -> bool.

(** The shuffled lists, their cut, and what the shuffle preserves. *)
Lemma shuffled_pairs (shuffled_indices : list nat)
  (image_files target_files : list A) :
  length target_files = length image_files ->
  Permutation shuffled_indices (seq 0 (length image_files)) ->
  exists images targets,
    take_files image_files shuffled_indices = Ok images /\
    take_files target_files shuffled_indices = Ok targets /\
    length images = length image_files /\
    length targets = length image_files /\
    Permutation (combine images targets) (combine image_files target_files).
Proof.
  intros Hlen Hperm.
  destruct image_files as [| di image_files'] eqn:Ei.
  { destruct target_files; [| discriminate].
    apply Permutation_sym, Permutation_nil in Hperm; subst.
    exists [], []; repeat split; constructor. }
  rewrite <- Ei in *.
  destruct target_files as [| dt target_files'] eqn:Et;
    [rewrite Ei in Hlen; discriminate |].
  rewrite <- Et in *.
  assert (Hrange : Forall (fun i => (i < length image_files)%nat) shuffled_indices).
  { apply Forall_forall; intros i Hi.
    apply (Permutation_in _ Hperm), in_seq in Hi; lia. }
  assert (Hrange' : Forall (fun i => (i < length target_files)%nat) shuffled_indices)
    by (rewrite Hlen; exact Hrange).
  assert (Hn : length shuffled_indices = length image_files).
  { rewrite (Permutation_length Hperm), length_seq; reflexivity. }
  exists (map (fun i => nth i image_files di) shuffled_indices),
         (map (fun i => nth i target_files dt) shuffled_indices).
  split; [apply take_files_in_range; exact Hrange |].
  split; [apply take_files_in_range; exact Hrange' |].
  split; [rewrite length_map; exact Hn |].
  split; [rewrite length_map; exact Hn |].
  rewrite (combine_taken image_files target_files di dt shuffled_indices
             (eq_sym Hlen)).
  assert (Hc : length (combine image_files target_files) = length image_files)
    by (rewrite length_combine, Hlen, Nat.min_id; reflexivity).
  apply (Permutation_trans
           (l' := map (fun i => nth i (combine image_files target_files) (di, dt))
                    (seq 0 (length image_files)))).
  - apply Permutation_map; exact Hperm.
  - rewrite <- Hc, positions_of_list; apply Permutation_refl.
Qed.

Lemma names_match_parts (images targets : list A) (k : nat) :
  names_match same_name images targets
  = names_match same_name (firstn k images) (firstn k targets)
    && names_match same_name (skipn k images) (skipn k targets).
Proof.
  unfold names_match.
  rewrite <- combine_firstn, <- combine_skipn, <- forallb_app, firstn_skipn.
  reflexivity.
Qed.

(** X17.  The split loses nothing and keeps the pairs.  For two file lists
    of one length whose files match in name position by position, and a
    permutation of the positions, the cell runs through all its
    assertions; the training lists hold [int(0.8 n)] files each and the
    validation lists the rest; and the training pairs followed by the
    validation pairs are a rearrangement of the original (image, target)
    pairs: no file is dropped, none is in both parts, and every image
    stays with its target. *)
Theorem split_files_keeps_every_pair (shuffled_indices : list nat)
  (image_files target_files : list A) :
  length target_files = length image_files ->
  names_match same_name image_files target_files = true ->
  Permutation shuffled_indices (seq 0 (length image_files)) ->
  exists sp,
    split_files same_name shuffled_indices image_files target_files
    = Completed sp /\
    length (train_image_files sp) = train_cut (length image_files) /\
    length (train_target_files sp) = train_cut (length image_files) /\
    length (val_image_files sp)
    = (length image_files - train_cut (length image_files))%nat /\
    length (val_target_files sp)
    = (length image_files - train_cut (length image_files))%nat /\
    Permutation
      (combine (train_image_files sp) (train_target_files sp)
       ++ combine (val_image_files sp) (val_target_files sp))
      (combine image_files target_files).
Proof.
  intros Hlen Hnames Hperm.
  destruct (shuffled_pairs shuffled_indices image_files target_files Hlen Hperm)
    as (images & targets & Hi & Ht & Li & Lt & Hpairs).
  assert (Hm : names_match same_name images targets = true).
  { unfold names_match in *.
    rewrite (forallb_permutation _ _ _ Hpairs); exact Hnames. }
  pose proof Hm as Hparts.
  rewrite (names_match_parts images targets (train_cut (length image_files)))
    in Hparts.
  apply andb_prop in Hparts; destruct Hparts as [Htrain Hval].
  assert (Hcut : (train_cut (length image_files) <= length image_files)%nat).
  { unfold train_cut; apply Nat.Div0.div_le_upper_bound; lia. }
  unfold split_files.
  rewrite Hlen, Nat.eqb_refl, Hi, Ht, Hm; cbn [negb].
  cbn [train_image_files train_target_files val_image_files val_target_files].
  rewrite Li, Lt, Htrain, Hval; cbn [negb].
  eexists; split; [reflexivity |].
  cbn [train_image_files train_target_files val_image_files val_target_files].
  rewrite !length_firstn, !length_skipn, Li, Lt.
  repeat split; try lia.
  rewrite <- combine_firstn, <- combine_skipn, firstn_skipn; exact Hpairs.
Qed.

(** X18.  When the split refuses.  For a permutation of the positions,
    the cell ends with an AssertionError exactly when the two lists differ
    in length or some image file does not match the name of the target
    file at its position; the two assertions after the cut never fail on
    their own, and no index error occurs. *)
Theorem split_files_refuses_mismatches (shuffled_indices : list nat)
  (image_files target_files : list A) :
  Permutation shuffled_indices (seq 0 (length image_files)) ->
  (length image_files =? length target_files)%nat
  && names_match same_name image_files target_files = false ->
  split_files same_name shuffled_indices image_files target_files
  = AssertionError.
Proof.
  intros Hperm Hbad; unfold split_files.
  destruct (Nat.eqb_spec (length image_files) (length target_files))
    as [Hlen | _]; [| reflexivity].
  cbn [negb andb] in *.
  destruct (shuffled_pairs shuffled_indices image_files target_files
              (eq_sym Hlen) Hperm)
    as (images & targets & Hi & Ht & _ & _ & Hpairs).
  rewrite Hi, Ht.
  assert (Hm : names_match same_name images targets = false).
  { unfold names_match in *.
    rewrite (forallb_permutation _ _ _ Hpairs); exact Hbad. }
  rewrite Hm; reflexivity.
Qed.

End FileSplit.

Lemma five_positions_shuffled :
  Permutation [3; 0; 4; 1; 2]%nat (seq 0 5).
Proof.
  simpl.
  apply (perm_trans (l' := [0; 3; 4; 1; 2]%nat)); [apply perm_swap |].
  apply perm_skip.
  apply (perm_trans (l' := [3; 1; 4; 2]%nat));
    [apply perm_skip, perm_swap |].
  apply (perm_trans (l' := [1; 3; 4; 2]%nat)); [apply perm_swap |].
  apply perm_skip.
  apply (perm_trans (l' := [3; 2; 4]%nat)); [apply perm_skip, perm_swap |].
  apply (perm_trans (l' := [2; 3; 4]%nat)); [apply perm_swap |].
  apply Permutation_refl.
Defined.

Lemma split_files_keeps_every_pair_witness :
  exists sp,
    split_files (fun i j => Nat.eqb (i + 10) j) [3; 0; 4; 1; 2]%nat
      [10; 11; 12; 13; 14]%nat [20; 21; 22; 23; 24]%nat = Completed sp /\
    length (train_image_files sp) = train_cut 5 /\
    length (train_target_files sp) = train_cut 5 /\
    length (val_image_files sp) = (5 - train_cut 5)%nat /\
    length (val_target_files sp) = (5 - train_cut 5)%nat /\
    Permutation
      (combine (train_image_files sp) (train_target_files sp)
       ++ combine (val_image_files sp) (val_target_files sp))
      (combine [10; 11; 12; 13; 14]%nat [20; 21; 22; 23; 24]%nat).
Proof.
  apply (split_files_keeps_every_pair nat (fun i j => Nat.eqb (i + 10) j)
           [3; 0; 4; 1; 2]%nat
           [10; 11; 12; 13; 14]%nat [20; 21; 22; 23; 24]%nat).
  - reflexivity.
  - reflexivity.
  - exact five_positions_shuffled.
Defined.

Lemma split_files_refuses_mismatches_witness :
  split_files (fun i j => Nat.eqb (i + 10) j) [3; 0; 4; 1; 2]%nat
    [10; 11; 12; 13; 14]%nat [20; 21; 23; 22; 24]%nat = AssertionError.
Proof.
  apply (split_files_refuses_mismatches nat (fun i j => Nat.eqb (i + 10) j)
           [3; 0; 4; 1; 2]%nat
           [10; 11; 12; 13; 14]%nat [20; 21; 23; 22; 24]%nat).
  - exact five_positions_shuffled.
  - reflexivity.
Defined.

(** ** Patch sampler: a patch as large as the image *)

Lemma crop_data_whole (S : list nat) :
  forall (coords : list Z) (d : list Q),
    length d = prod S -> within_bounds S S coords ->
    crop_data 0 S (combine coords S) d = d.
Proof.
  unfold within_bounds.
  induction S as [| n S IH]; intros coords d Hd Hb.
  - inversion Hb; subst; reflexivity.
  - simpl in Hb; inversion Hb as [| c sp cs l Hc Hcs]; subst.
    simpl in Hc; assert (c = 0%Z) as -> by lia.
    destruct (@chunks_blocks n (prod S) d Hd) as [Hn Hblocks].
    cbn [combine crop_data].
    assert (Hstart : slice_start n 0 = 0%nat)
      by (unfold slice_start, clamp; simpl; lia).
    assert (Hcount : slice_length n 0 n = n).
    { unfold slice_length, clamp; simpl.
      destruct (Z.ltb_spec (Z.of_nat n) 0); lia. }
    rewrite Hstart, Hcount; cbn [skipn].
    rewrite <- Hn at 1; rewrite firstn_all.
    rewrite <- (concat_chunks n (prod S) d Hd) at 2; f_equal.
    rewrite <- (map_id (chunks n (prod S) d)) at 2.
    apply map_ext_in; intros block Hin.
    rewrite Forall_forall in Hblocks.
    apply IH; [apply Hblocks, Hin | exact Hcs].
Qed.

Lemma crop_whole (a : ndarray) (coords : list Z) :
  well_formed a -> within_bounds (shape a) (shape a) coords ->
  crop a coords (shape a) = Ok a.
Proof.
  intros Hw Hb.
  pose proof (@within_bounds_length (shape a) (shape a) coords eq_refl Hb) as Hcs.
  unfold crop, ndim.
  rewrite length_combine, Hcs, Nat.min_id, Nat.ltb_irrefl, Nat.sub_diag.
  rewrite (@crop_shape_fit (shape a) (shape a) coords eq_refl Hb).
  rewrite (crop_data_whole (shape a) coords (data a) Hw Hb).
  destruct a; reflexivity.
Qed.

Lemma fits_itself (S : list nat) : Forall2 le S S.
Proof.
  induction S; constructor; auto.
Qed.

Lemma item_dtype (a sub : ndarray) (i : Z) :
  item a i = Ok sub -> dtype_of sub = dtype_of a.
Proof.
  unfold item; destruct (shape a) as [| n rest]; [discriminate |].
  destruct (normalize_index n i); [| discriminate].
  intros H; injection H as <-; reflexivity.
Qed.

(** Stacking the sub-arrays of an array gives the array back. *)
Lemma stack_of_items (a : ndarray) (N : nat) (S : list nat) (xs : list ndarray) :
  well_formed a -> shape a = N :: S -> (1 <= N)%nat ->
  Forall2 (fun s x => item a (Z.of_nat s) = Ok x) (seq 0 N) xs ->
  stack xs = Ok a.
Proof.
  intros Hw Hs HN Hitems.
  assert (Hlen : length xs = N).
  { rewrite <- (Forall2_length Hitems), length_seq; reflexivity. }
  assert (Hshape : Forall (fun x => shape x = S) xs).
  { clear - Hitems Hs.
    induction Hitems as [| s x l l' Hx _ IH]; constructor; [| exact IH].
    rewrite (item_shape _ _ Hx), Hs; reflexivity. }
  unfold well_formed in Hw; rewrite Hs in Hw.
  assert (Hdata : map data xs = chunks N (prod S) (data a)).
  { destruct (@chunks_blocks N (prod S) (data a) Hw) as [Hn _].
    rewrite <- (positions_of_list (chunks N (prod S) (data a)) []), Hn.
    clear - Hitems Hs.
    induction Hitems as [| s x l l' Hx Hrest IH]; [reflexivity |].
    cbn [map]; rewrite IH; f_equal.
    assert (Hlt : (s < N)%nat).
    { destruct (Nat.lt_ge_cases s N) as [H | H]; [exact H |].
      rewrite (@item_past_the_end a s) in Hx; [discriminate |].
      right; rewrite Hs; exact H. }
    rewrite nth_chunks by exact Hlt.
    unfold item, normalize_index in Hx; rewrite Hs in Hx.
    destruct (Z.leb_spec 0 (Z.of_nat s)); [| lia].
    destruct (Z.ltb_spec (Z.of_nat s) (Z.of_nat N)); [| lia].
    simpl in Hx; injection Hx as <-; simpl; rewrite Nat2Z.id; reflexivity. }
  destruct (@stack_same_shape xs S) as (st & Hst & Sst).
  { destruct xs; [simpl in Hlen; lia | discriminate]. }
  { exact Hshape. }
  rewrite Hst; f_equal.
  destruct (stack_inversion _ _ Hst) as (x0 & rest & Ex & -> & _).
  assert (Hdt : dtype_of x0 = dtype_of a).
  { rewrite Ex in Hitems; inversion Hitems as [| s x l l' Hx _ Es El].
    exact (item_dtype _ _ _ Hx). }
  assert (Hx0 : shape x0 = S).
  { rewrite Ex in Hshape; inversion Hshape; assumption. }
  rewrite Hlen, Hdata, (concat_chunks N (prod S) (data a) Hw), Hdt, Hx0, <- Hs.
  destruct a; reflexivity.
Qed.

Lemma items_of_stack (a : ndarray) (N : nat) (S : list nat) (xs : list ndarray) :
  well_formed a -> shape a = N :: S -> (1 <= N)%nat ->
  Forall2 (fun s x => item a (Z.of_nat s) = Ok x) (seq 0 N) xs ->
  stack (map (astype float32) xs) = Ok (astype float32 a).
Proof.
  intros Hw Hs HN Hitems.
  rewrite stack_astype, (stack_of_items a N S xs Hw Hs HN Hitems); reflexivity.
Qed.

Section WholeImage.

Variable Generator : Type.
Variable random_raw : Generator -> Z * Generator.

Lemma iterate_samples_whole (image_array target_array : ndarray)
  (N : nat) (S : list nat) :
  well_formed image_array -> well_formed target_array ->
  shape image_array = N :: S -> shape target_array = N :: S ->
  (0 < prod S)%nat ->
  forall samples rng,
    Forall (fun s => (s < N)%nat) samples ->
    exists ds rng' xs ys,
      iterate_samples random_raw rng image_array target_array S samples
      = Ok (ds, rng') /\
      Forall2 (fun s x => item image_array (Z.of_nat s) = Ok x) samples xs /\
      Forall2 (fun s y => item target_array (Z.of_nat s) = Ok y) samples ys /\
      map patch ds = map (astype float32) xs /\
      map target_patch ds = map (astype float32) ys.
Proof.
  intros WI WT HI HT HS samples rng;
    induction 1 as [| s samples Hs _ IH] in rng |- *.
  - exists [], rng, [], []; repeat split; constructor.
  - cbn [iterate_samples].
    destruct (@item_in_range image_array N S s HI Hs) as (sample & Hi & Ss).
    destruct (@item_in_range target_array N S s HT Hs) as (target & Ht & St).
    rewrite Hi, Ht; cbn [bind]; rewrite Ss.
    assert (Hn : n_patches S S = Ok 1%nat).
    { unfold n_patches.
      destruct (Nat.eqb_spec (prod S) 0) as [E | _]; [lia |].
      f_equal.
      replace (prod S + prod S - 1)%nat with (1 * prod S + (prod S - 1))%nat
        by lia.
      rewrite Nat.div_add_l by lia.
      rewrite Nat.div_small by lia; reflexivity. }
    rewrite Hn; cbn [bind].
    assert (Hfit : Forall2 le S (shape sample)) by (rewrite Ss; apply fits_itself).
    destruct (@sample_patches_fit Generator random_raw s sample target S Hfit
                (eq_trans St (eq_sym Ss)) 1%nat rng)
      as (ps & rng1 & Hps & Hall).
    rewrite Hps; cbn [bind].
    destruct (@sample_patches_spec Generator random_raw s sample target S
                1%nat rng ps rng1 Hps) as [Hlen Hcrop].
    destruct ps as [| d [| d' ps]]; try discriminate.
    pose proof (Forall_inv Hall) as (Hb & _ & _).
    pose proof (Forall_inv Hcrop) as (_ & Hp & Hq).
    pose proof (@item_well_formed _ _ _ WI Hi) as W1.
    pose proof (@item_well_formed _ _ _ WT Ht) as W2.
    assert (Hb' : within_bounds S S (crop_coords d))
      by (rewrite Ss in Hb; exact Hb).
    pose proof (crop_whole sample (crop_coords d) W1) as Cp.
    rewrite Ss in Cp; rewrite (Cp Hb') in Hp.
    pose proof (crop_whole target (crop_coords d) W2) as Cq.
    rewrite St in Cq; rewrite (Cq Hb') in Hq.
    simpl in Hp, Hq; injection Hp as Hp; injection Hq as Hq.
    destruct (IH rng1) as (qs & rng2 & xs & ys & Hqs & Hx & Hy & Mp & Mt).
    rewrite Hqs; cbn [bind].
    exists ([d] ++ qs), rng2, (sample :: xs), (target :: ys).
    split; [reflexivity |].
    split; [constructor; assumption |].
    split; [constructor; assumption |].
    cbn [app map]; rewrite Mp, Mt, <- Hp, <- Hq; split; reflexivity.
Qed.

(** X19.  A patch as large as the image.  With [patch_size] equal to the
    shape of the images (all extents positive), every image gives exactly
    one patch, the image itself: whatever the generator draws,
    [create_patches] returns the two stacks as they are, converted to
    float32. *)
Theorem create_patches_with_whole_image_patch (rng : Generator)
  (image_array target_array : ndarray) (N : nat) (S : list nat) :
  well_formed image_array -> well_formed target_array ->
  shape image_array = N :: S -> shape target_array = N :: S ->
  (1 <= N)%nat -> Forall (lt 0) S ->
  create_patches random_raw rng image_array target_array S
  = Ok (astype float32 image_array, astype float32 target_array).
Proof.
  intros WI WT HI HT HN Hpos.
  assert (Hrange : Forall (fun s => (s < N)%nat) (seq 0 N)).
  { apply Forall_forall; intros s Hs; apply in_seq in Hs; lia. }
  destruct (iterate_samples_whole image_array target_array N S WI WT HI HT
              (prod_positive Hpos) (seq 0 N) rng Hrange)
    as (ds & rng' & xs & ys & Hds & Hx & Hy & Mp & Mt).
  unfold create_patches, draw_patches; rewrite HI, Hds; cbn [bind].
  rewrite Mp, Mt.
  rewrite (items_of_stack image_array N S xs WI HI HN Hx); cbn [bind].
  rewrite (items_of_stack target_array N S ys WT HT HN Hy); reflexivity.
Qed.

End WholeImage.

Lemma create_patches_with_whole_image_patch_witness :
  create_patches replay_raw [5; 8; 13]%Z
    (arange [2; 2; 3]%nat) (scale 3 (arange [2; 2; 3]%nat)) [2; 3]%nat
  = Ok (astype float32 (arange [2; 2; 3]%nat),
        astype float32 (scale 3 (arange [2; 2; 3]%nat))).
Proof.
  apply (create_patches_with_whole_image_patch (list Z) replay_raw [5; 8; 13]%Z
           (arange [2; 2; 3]%nat) (scale 3 (arange [2; 2; 3]%nat)) 2 [2; 3]%nat).
  - reflexivity.
  - reflexivity.
  - reflexivity.
  - reflexivity.
  - lia.
  - repeat constructor.
Defined.

(** ** Patch sampler: bounds, and what is read of the target stack *)

Section SamplerBounds.

Variable Generator : Type.
Variable random_raw : Generator -> Z * Generator.

(** X20.  Coordinates within bounds, patches never cut short.  For stacks
    of images that have exactly the axes of the patch and hold it, every
    coordinate drawn satisfies [0 <= coord[d] <= S[d] - P[d]] on every
    axis, so both crops of every draw have exactly the shape [P]. *)
Theorem create_patches_coordinates_within_bounds (rng : Generator)
  (image_array target_array : ndarray) (N : nat) (S P : list nat) :
  shape image_array = N :: S -> shape target_array = N :: S ->
  Forall2 le P S -> Forall (lt 0) P ->
  exists ds,
    draw_patches random_raw rng image_array target_array P = Ok ds /\
    Forall (fun d => within_bounds S P (crop_coords d) /\
                     length (crop_coords d) = length P /\
                     shape (patch d) = P /\ shape (target_patch d) = P) ds.
Proof.
  intros HI HT Hfit Hpos.
  destruct (@n_patches_ceil S P (prod_positive Hpos)) as (n & Hn & _).
  assert (Hrange : Forall (fun s => (s < N)%nat) (seq 0 N)).
  { apply Forall_forall; intros s Hs; apply in_seq in Hs; lia. }
  destruct (@iterate_samples_fit Generator random_raw image_array target_array
              N n S P HI HT Hfit Hn (seq 0 N) Hrange rng)
    as (ds & rng' & Hds & _ & _ & Hall).
  exists ds; split; [unfold draw_patches; rewrite HI, Hds; reflexivity |].
  eapply Forall_impl; [| exact Hall].
  intros d (Hb & Sp & St); repeat split; try assumption.
  apply (@within_bounds_length S P (crop_coords d)); [| exact Hb].
  symmetry; exact (Forall2_length Hfit).
Qed.

Lemma iterate_samples_same_targets (image_array target_array other : ndarray)
  (P : list nat) (samples : list nat) :
  Forall (fun s => item target_array (Z.of_nat s) = item other (Z.of_nat s))
    samples ->
  forall rng,
    iterate_samples random_raw rng image_array target_array P samples
    = iterate_samples random_raw rng image_array other P samples.
Proof.
  induction 1 as [| s samples Hs _ IH]; intros rng; [reflexivity |].
  cbn [iterate_samples]; rewrite Hs.
  destruct (item image_array (Z.of_nat s)) as [sample | e]; [| reflexivity].
  cbn [bind].
  destruct (item other (Z.of_nat s)) as [target | e]; [| reflexivity].
  cbn [bind].
  destruct (n_patches (shape sample) P) as [n | e]; [| reflexivity].
  cbn [bind].
  destruct (sample_patches random_raw rng s sample target P n)
    as [[ps rng1] | e]; [| reflexivity].
  cbn [bind]; rewrite IH; reflexivity.
Qed.

(** X21.  Only the targets of the source images are read.  Two target
    stacks that agree on the images at the positions of the source stack
    give the same result: target images beyond the number of source images
    are never looked at, so a surplus of targets goes unnoticed. *)
Theorem create_patches_ignores_surplus_targets (rng : Generator)
  (image_array target_array other : ndarray) (N : nat) (S P : list nat) :
  shape image_array = N :: S ->
  (forall s, (s < N)%nat ->
             item target_array (Z.of_nat s) = item other (Z.of_nat s)) ->
  create_patches random_raw rng image_array target_array P
  = create_patches random_raw rng image_array other P.
Proof.
  intros HI Hsame; unfold create_patches, draw_patches; rewrite HI.
  rewrite (iterate_samples_same_targets image_array target_array other P
             (seq 0 N)); [reflexivity |].
  apply Forall_forall; intros s Hs; apply in_seq in Hs; apply Hsame; lia.
Qed.

End SamplerBounds.

Lemma create_patches_coordinates_within_bounds_witness :
  exists ds,
    draw_patches replay_raw [9; 4; 2]%Z
      (arange [2; 3; 4]%nat) (arange [2; 3; 4]%nat) [2; 3]%nat = Ok ds /\
    Forall (fun d => within_bounds [3; 4]%nat [2; 3]%nat (crop_coords d) /\
                     length (crop_coords d) = length [2; 3]%nat /\
                     shape (patch d) = [2; 3]%nat /\
                     shape (target_patch d) = [2; 3]%nat) ds.
Proof.
  apply (create_patches_coordinates_within_bounds (list Z) replay_raw
           [9; 4; 2]%Z (arange [2; 3; 4]%nat) (arange [2; 3; 4]%nat) 2
           [3; 4]%nat [2; 3]%nat).
  - reflexivity.
  - reflexivity.
  - repeat constructor.
  - repeat constructor.
Defined.

Lemma create_patches_ignores_surplus_targets_witness :
  create_patches replay_raw [1; 5; 7]%Z
    (arange [1; 2; 3]%nat) (arange [1; 2; 3]%nat) [2; 2]%nat
  = create_patches replay_raw [1; 5; 7]%Z
      (arange [1; 2; 3]%nat) (arange [4; 2; 3]%nat) [2; 2]%nat.
Proof.
  apply (create_patches_ignores_surplus_targets (list Z) replay_raw
           [1; 5; 7]%Z (arange [1; 2; 3]%nat) (arange [1; 2; 3]%nat)
           (arange [4; 2; 3]%nat) 1 [2; 3]%nat [2; 2]%nat).
  - reflexivity.
  - intros s Hs; assert (s = 0%nat) as -> by lia; reflexivity.
Defined.
